(** * dbfread: the DBF table reader (dbfread/dbf.py)

    A shallow embedding of [dbfread/dbf.py] and the properties of its
    header reader, schema validator, record iterator and load/unload
    life cycle.

    Conventions of the embedding.

    - The interpreter is Python 3: a file opened with mode ['rb'] yields
      [bytes], literals without the [b] prefix are [str], and a [bytes]
      value never compares equal to a [str] value.  Python values that the
      code compares across types are kept tagged ([pyval]).
    - Unsigned struct fields ([B], [H], [L]) are [N].
    - An open file is its content together with a read position; the
      position and a chronological log of the operations performed on
      files and collaborators live in the [world] that every effectful
      function threads.
    - A raised exception is the left injection of [result].
    - Loops ([while 1], [while True]) are fixpoints on a fuel argument;
      the callers pass more fuel than the file has bytes, and the
      theorems that promise a result show that this fuel is never used up. *)

From Stdlib Require Import ZArith NArith String Ascii List Bool Lia Arith.
From Stdlib.Strings Require Import Byte.
Import ListNotations.

Set Implicit Arguments.

(** ** Python values *)

Definition bytes := list byte.

Definition bytes_eqb (a b : bytes) : bool :=
  if list_eq_dec byte_eq_dec a b then true else false.

(** [needle in haystack] for two [bytes] objects: [needle] occurs as a
    contiguous run of [haystack]. *)
Fixpoint bytes_startswith (hay needle : bytes) : bool :=
  match needle, hay with
  | [], _ => true
  | _ :: _, [] => false
  | n :: ns, h :: hs => Byte.eqb n h && bytes_startswith hs ns
  end.

Fixpoint bytes_in (needle hay : bytes) : bool :=
  bytes_startswith hay needle ||
  match hay with
  | [] => false
  | _ :: hs => bytes_in needle hs
  end.

(** The values a record field can hold, and the values the code compares. *)
Inductive pyval : Type :=
| PyNone
| PyBytes (b : bytes)
| PyStr (s : string)
| PyInt (z : Z)
| PyBool (b : bool)
| PyObj (repr : string).   (* any other object (float, date, ...) *)

(** [a == b].  Values of different types are unequal; in particular
    [b'' == ''] and [b'\n' == '\n'] are [False]. *)
Definition py_eq (a b : pyval) : bool :=
  match a, b with
  | PyNone, PyNone => true
  | PyBytes x, PyBytes y => bytes_eqb x y
  | PyStr x, PyStr y => String.eqb x y
  | PyInt x, PyInt y => Z.eqb x y
  | PyBool x, PyBool y => Bool.eqb x y
  | PyObj x, PyObj y => String.eqb x y
  | _, _ => false
  end.

(** [x in (a, b, c)] and [x in set(...)]. *)
Definition py_in (x : pyval) (xs : list pyval) : bool :=
  existsb (py_eq x) xs.

Definition LF : string := String (ascii_of_nat 10) EmptyString.

(** ** Struct layouts ([struct] format strings, little-endian, no padding) *)

Inductive fmt_code : Type :=
| fmt_B              (* unsigned char, 1 byte *)
| fmt_H              (* unsigned short, 2 bytes *)
| fmt_L              (* unsigned long, 4 bytes *)
| fmt_c              (* one byte, as bytes of length 1 *)
| fmt_s (n : nat).   (* n bytes *)

Definition fmt_size (c : fmt_code) : nat :=
  match c with
  | fmt_B => 1
  | fmt_H => 2
  | fmt_L => 4
  | fmt_c => 1
  | fmt_s n => n
  end.

Definition calcsize (fmt : list fmt_code) : nat :=
  fold_right (fun c acc => fmt_size c + acc) 0 fmt.

Inductive sval : Type :=
| SInt (n : N)
| SBytes (b : bytes).

(** Little-endian unsigned integer. *)
Fixpoint le_uint (bs : bytes) : N :=
  match bs with
  | [] => 0%N
  | b :: rest => (Byte.to_N b + 256 * le_uint rest)%N
  end.

Definition unpack_one (c : fmt_code) (chunk : bytes) : sval :=
  match c with
  | fmt_B | fmt_H | fmt_L => SInt (le_uint chunk)
  | fmt_c | fmt_s _ => SBytes chunk
  end.

Fixpoint unpack_items (fmt : list fmt_code) (data : bytes) : list sval :=
  match fmt with
  | [] => []
  | c :: rest =>
      unpack_one c (firstn (fmt_size c) data)
        :: unpack_items rest (skipn (fmt_size c) data)
  end.

(** [struct.unpack(fmt, data)]: [None] stands for [struct.error], raised
    when [data] has not exactly the size of the format. *)
Definition struct_unpack (fmt : list fmt_code) (data : bytes) : option (list sval) :=
  if Nat.eqb (length data) (calcsize fmt) then Some (unpack_items fmt data) else None.

(** ['<BBBBLHHHBBLLLBBH'] *)
Definition DBFHeader_format : list fmt_code :=
  [fmt_B; fmt_B; fmt_B; fmt_B; fmt_L; fmt_H; fmt_H; fmt_H;
   fmt_B; fmt_B; fmt_L; fmt_L; fmt_L; fmt_B; fmt_B; fmt_H].

(** ['<11scLBBHBBBB7sB'] *)
Definition DBFField_format : list fmt_code :=
  [fmt_s 11; fmt_c; fmt_L; fmt_B; fmt_B; fmt_H;
   fmt_B; fmt_B; fmt_B; fmt_B; fmt_s 7; fmt_B].

Record DBFHeader : Type := mkDBFHeader {
  dbversion : N;
  year : N;
  month : N;
  day : N;
  numrecords : N;
  headerlen : N;
  recordlen : N;
  h_reserved1 : N;
  incomplete_transaction : N;
  encryption_flag : N;
  free_record_thread : N;
  h_reserved2 : N;
  h_reserved3 : N;
  mdx_flag : N;
  language_driver : N;
  h_reserved4 : N
}.

(** The field descriptor ([DBFField] namedtuple).  [name] and [type] are
    [bytes] as unpacked ([DBFField_raw]) and [str] once [_read_headers] has
    replaced them ([DBFField]). *)
Record DBFField_of (T : Type) : Type := mkDBFField {
  f_name : T;
  f_type : T;
  address : N;
  f_length : N;
  decimal_count : N;
  f_reserved1 : N;
  workarea_id : N;
  f_reserved2 : N;
  f_reserved3 : N;
  set_fields_flag : N;
  f_reserved4 : bytes;
  index_field_flag : N
}.

Definition DBFField_raw : Type := DBFField_of bytes.
Definition DBFField : Type := DBFField_of string.

Definition DBFHeader_of_items (vs : list sval) : option DBFHeader :=
  match vs with
  | [SInt a; SInt b; SInt c; SInt d; SInt e; SInt f; SInt g; SInt h;
     SInt i; SInt j; SInt k; SInt l; SInt m; SInt n; SInt o; SInt p] =>
      Some (mkDBFHeader a b c d e f g h i j k l m n o p)
  | _ => None
  end.

Definition DBFField_of_items (vs : list sval) : option DBFField_raw :=
  match vs with
  | [SBytes a; SBytes b; SInt c; SInt d; SInt e; SInt f;
     SInt g; SInt h; SInt i; SInt j; SBytes k; SInt l] =>
      Some (mkDBFField a b c d e f g h i j k l)
  | _ => None
  end.

(** [fh._replace(name=fieldname, type=fieldtype)] *)
Definition DBFField_replace (fh : DBFField_raw) (fieldname fieldtype : string) : DBFField :=
  mkDBFField fieldname fieldtype (address fh) (f_length fh) (decimal_count fh)
    (f_reserved1 fh) (workarea_id fh) (f_reserved2 fh) (f_reserved3 fh)
    (set_fields_flag fh) (f_reserved4 fh) (index_field_flag fh).

(** ** [expand_year] *)

(** Convert 2-digit year to 4-digit year. *)
Definition expand_year (year : Z) : Z :=
  if (year <? 80)%Z then (2000 + year)%Z else (1900 + year)%Z.

(** ** [datetime.date] *)

Record pydate : Type := mkdate { d_year : Z; d_month : Z; d_day : Z }.

Definition is_leap (y : Z) : bool :=
  ((y mod 4 =? 0) && (negb (y mod 100 =? 0) || (y mod 400 =? 0)))%Z.

Definition days_in_month (y m : Z) : Z :=
  (if (m =? 2) then (if is_leap y then 29 else 28)
   else if (m =? 4) || (m =? 6) || (m =? 9) || (m =? 11) then 30
   else 31)%Z.

(** ** Exceptions *)

Inductive exn : Type :=
| IOError_no_such_file (filename : string)
    (* IOError('No such file: {!r}') and open() of a missing path *)
| IOError_missing_memo_file (fn : string)
    (* IOError('Missing memo file: {!r}') *)
| IOError_invalid_record_separator (sep : bytes)
    (* IOError("invalid record separator '{}'") *)
| ValueError_no_fields (filename : string)
    (* ValueError('dbf file must have at least one field: {!r}') *)
| ValueError_type_0_length (was : N)
    (* ValueError('Field of type 0 must have length 1 (was {})') *)
| ValueError_type_I_length (was : N)
    (* ValueError('Field type I must have length 4 (was {})') *)
| ValueError_type_L_length (was : N)
    (* ValueError('Field type L must have length 1 (was {})') *)
| ValueError_unknown_field_type (ty : string)
    (* ValueError('Unknown field type: {!r}') *)
| ValueError_date (y m d : Z)
    (* ValueError of datetime.date: month or day out of range *)
| struct_error (got : nat)
    (* struct.error: the data has not the size of the format *)
| AttributeError (attr : string)
    (* an attribute that is None or not yet set is used *)
| Raised (what : string)
    (* an exception raised inside a collaborator *)
| Diverged.
    (* the fuel of a loop ran out; no run of the code ends so *)

Definition is_ValueError (e : exn) : bool :=
  match e with
  | ValueError_no_fields _ | ValueError_type_0_length _
  | ValueError_type_I_length _ | ValueError_type_L_length _
  | ValueError_unknown_field_type _ | ValueError_date _ _ _ => true
  | _ => false
  end.

Definition is_IOError (e : exn) : bool :=
  match e with
  | IOError_no_such_file _ | IOError_missing_memo_file _
  | IOError_invalid_record_separator _ => true
  | _ => false
  end.

Definition result (A : Type) : Type := (exn + A)%type.

(** [datetime.date(year, month, day)] *)
Definition datetime_date (y m d : Z) : result pydate :=
  if ((1 <=? y) && (y <=? 9999) && (1 <=? m) && (m <=? 12)
      && (1 <=? d) && (d <=? days_in_month y m))%Z
  then inr (mkdate y m d)
  else inl (ValueError_date y m d).

(** ** The world: file position and the log of operations *)

Inductive whence : Type :=
| SEEK_SET    (* 0: from the start of the file *)
| SEEK_CUR.   (* 1: from the current position *)

Inductive event : Type :=
| EvOpen (path : string)                    (* open(path, 'rb') *)
| EvRead (n : nat) (got : bytes)            (* f.read(n) returned got *)
| EvSeek (offset : N) (wh : whence)         (* f.seek(offset, wh) *)
| EvParse (field : DBFField) (data : bytes) (* field_parser.parse(field, data) *)
| EvMemoOpen (path : string)                (* FPT(path) *)
| EvMemoGet (ptr : pyval).                  (* memofile[ptr] *)

Record world : Type := mkworld {
  w_pos : nat;            (* position of the file that is open *)
  w_log : list event      (* what has been done so far, oldest first *)
}.

Definition log_event (e : event) (w : world) : world :=
  mkworld (w_pos w) (w_log w ++ [e]).

(** The world once [open(path, 'rb')] has returned a fresh handle. *)
Definition opened (w : world) (path : string) : world :=
  mkworld 0 (w_log w ++ [EvOpen path]).

(** The world after [f.read(1)] returned [sep]. *)
Definition after_marker (w : world) (sep : bytes) : world :=
  mkworld (w_pos w + length sep) (w_log w ++ [EvRead 1 sep]).

Definition is_read (e : event) : bool :=
  match e with
  | EvRead _ _ => true
  | _ => false
  end.

(** What the DBF file itself sees: open, read and seek. *)
Definition is_file_event (e : event) : bool :=
  match e with
  | EvOpen _ | EvRead _ _ | EvSeek _ _ => true
  | _ => false
  end.

(** From [w] to [w'] the log grew by events of the kind [P] only. *)
Definition only_events (P : event -> bool) (w w' : world) : Prop :=
  exists evs, w_log w' = w_log w ++ evs /\ forallb P evs = true.

(** From [w] to [w'] the file was only read: no other file was opened
    and no seek, parser call or memo access took place. *)
Definition only_reads (w w' : world) : Prop := only_events is_read w w'.

(** A computation all of whose events are of the kind [P], whatever it
    returns. *)
Definition emits {X : Type} (P : event -> bool) (m : world -> X * world) : Prop :=
  forall w, only_events P w (snd (m w)).

(** A computation whose result and final position depend on the world
    through the position only. *)
Definition pos_det {X : Type} (m : world -> X * world) : Prop :=
  forall w1 w2, w_pos w1 = w_pos w2 ->
    fst (m w1) = fst (m w2) /\ w_pos (snd (m w1)) = w_pos (snd (m w2)).

(** Two positions at which a file reads the same from then on: they are
    equal, or both lie at or past its end. *)
Definition sync (f : bytes) (a b : nat) : Prop :=
  a = b \/ (length f <= a /\ length f <= b).

(** Computations that read the world, may raise, and leave a world. *)
Definition M (A : Type) : Type := world -> result A * world.

Definition ret {A : Type} (a : A) : M A := fun w => (inr a, w).

Definition raise {A : Type} (e : exn) : M A := fun w => (inl e, w).

Definition bind {A B : Type} (m : M A) (k : A -> M B) : M B :=
  fun w =>
    match m w with
    | (inl e, w') => (inl e, w')
    | (inr a, w') => k a w'
    end.

Definition lift {A : Type} (r : result A) : M A := fun w => (r, w).

Declare Scope dbf_scope.
Delimit Scope dbf_scope with dbf.
Notation "x <- m ;; k" := (bind m (fun x => k))
  (at level 61, m at next level, right associativity) : dbf_scope.
Notation "m ;;; k" := (bind m (fun _ => k))
  (at level 61, right associativity) : dbf_scope.
Open Scope dbf_scope.

(** An open binary file: its content.  The position is [w_pos]. *)
Definition file : Type := bytes.

(** [f.read(n)]: the next [n] bytes, fewer when the file ends before. *)
Definition f_read (f : file) (n : nat) : M bytes :=
  fun w =>
    let got := firstn n (skipn (w_pos w) f) in
    (inr got, mkworld (w_pos w + length got) (w_log w ++ [EvRead n got])).

(** [f.seek(offset, whence)]; seeking past the end is allowed, a later
    read then returns no bytes. *)
Definition f_seek (offset : N) (wh : whence) : M unit :=
  fun w =>
    let p := match wh with
             | SEEK_SET => N.to_nat offset
             | SEEK_CUR => w_pos w + N.to_nat offset
             end in
    (inr tt, mkworld p (w_log w ++ [EvSeek offset wh])).

(** Modelled from the spec: [StructParser.read] of dbfread/struct_parser.py,
    which is not among the sources.  It reads the fixed size of the
    format, less the bytes handed in as [prepend], puts [prepend] in front
    and unpacks the whole. *)
Definition StructParser_read (fmt : list fmt_code) (f : file)
    (prepend : option bytes) : M (list sval) :=
  data <- match prepend with
          | Some p => rest <- f_read f (calcsize fmt - length p) ;; ret (p ++ rest)
          | None => f_read f (calcsize fmt)
          end ;;
  match struct_unpack fmt data with
  | Some vs => ret vs
  | None => raise (struct_error (length data))
  end.

Definition DBFHeader_read (f : file) : M DBFHeader :=
  vs <- StructParser_read DBFHeader_format f None ;;
  match DBFHeader_of_items vs with
  | Some h => ret h
  | None => raise (struct_error 0)
  end.

Definition DBFField_read (f : file) (prepend : bytes) : M DBFField_raw :=
  vs <- StructParser_read DBFField_format f (Some prepend) ;;
  match DBFField_of_items vs with
  | Some fh => ret fh
  | None => raise (struct_error 0)
  end.

(** ** Collaborators *)

(** [FieldValue = namedtuple('Field', 'name value')] *)
Record FieldValue : Type := mkFieldValue { fv_name : string; fv_value : pyval }.

(** A field parser object ([parserclass(encoding)]). *)
Record FieldParser : Type := mkFieldParser {
  field_type_supported : string -> bool;
  parse : DBFField -> bytes -> result pyval
}.

(** What [memofile[index]] returns. *)
Record Memo : Type := mkMemo { memo_type : string; memo_data : bytes }.

(** An open memo file ([FPT] object). *)
Record MemoFile : Type := mkMemoFile { getitem : pyval -> result Memo }.

(** Python truth value of [None] or a [str]. *)
Definition truthy (o : option string) : bool :=
  match o with
  | None => false
  | Some s => negb (String.eqb s "")
  end.

Record RecordIterator : Type := mkRecordIterator { _deleted : bool }.

(** One turn of the [while True] loop of [_iter_records]. *)
Inductive step_result (R : Type) : Type :=
| StepReturn                  (* return: the generator is exhausted *)
| StepYield (v : option R)    (* a value was yielded; None is Python's None *)
| StepNext.                   (* the record was skipped, nothing yielded *)
Arguments StepReturn {R}.
Arguments StepNext {R}.

(** A generator run to its end: the values yielded, in order, and the
    exception that ended it, if one did. *)
Definition Gen (Y : Type) : Type := world -> (list Y * option exn) * world.

(** [list(g)] and [for x in g] over a generator. *)
Definition gen_list {Y : Type} (g : Gen Y) : M (list Y) :=
  fun w =>
    match g w with
    | ((ys, None), w') => (inr ys, w')
    | ((_, Some e), w') => (inl e, w')
    end.

(** ** Sample tables

    Small files in the DBF layout, and simple collaborators, on which the
    properties below are instantiated. *)

Module Sample.

Definition ascii_bytes (s : string) : bytes := list_byte_of_string s.

(** A 32-byte table header: version 3, date, header length, record
    length and language driver; the other fields are zero. *)
Definition header_block (yy mm dd hlen rlen lang : byte) : bytes :=
  [x03; yy; mm; dd] ++ [x00; x00; x00; x00] ++ [hlen; x00] ++ [rlen; x00]
    ++ repeat x00 17 ++ [lang] ++ [x00; x00].

(** A 32-byte field descriptor: name, type and length. *)
Definition descriptor (nm ty : string) (len : byte) : bytes :=
  let n := ascii_bytes nm in
  n ++ repeat x00 (11 - length n) ++ ascii_bytes ty ++ repeat x00 4
    ++ [len] ++ repeat x00 15.

(** NAME C(3) and AGE N(2); an active, a deleted and an active record. *)
Definition people_dbf : bytes :=
  header_block x5f x07 x1a x61 x06 x03
    ++ descriptor "NAME" "C" x03 ++ descriptor "AGE" "N" x02 ++ [x0d]
    ++ ascii_bytes " abc12" ++ ascii_bytes "*xyz34" ++ ascii_bytes " def56"
    ++ [x1a].

(** A header whose field section is empty. *)
Definition empty_dbf : bytes :=
  header_block x5f x07 x1a x21 x01 x03 ++ [x0d].

(** An integer field of length 5. *)
Definition badlen_dbf : bytes :=
  header_block x5f x07 x1a x41 x06 x03 ++ descriptor "ID" "I" x05 ++ [x0d].

(** A field type no parser knows. *)
Definition unknown_dbf : bytes :=
  header_block x5f x07 x1a x41 x03 x03 ++ descriptor "WHAT" "Z" x02 ++ [x0d].

(** NAME C(5); the file ends two bytes into its only record. *)
Definition truncated_dbf : bytes :=
  header_block x5f x07 x1a x41 x06 x03 ++ descriptor "NAME" "C" x05 ++ [x0d]
    ++ ascii_bytes " ab".

(** TITLE C(3) and NOTE M(4); memo pointers 1 and 2 and a blank one. *)
Definition notes_dbf : bytes :=
  header_block x5f x07 x1a x61 x08 x03
    ++ descriptor "TITLE" "C" x03 ++ descriptor "NOTE" "M" x04 ++ [x0d]
    ++ ascii_bytes " abc" ++ [x01; x00; x00; x00]
    ++ ascii_bytes " def" ++ [x02; x00; x00; x00]
    ++ ascii_bytes " ghi    "
    ++ [x1a].

(** As [people_dbf], with the byte 'X' where the second marker stands. *)
Definition corrupt_dbf : bytes :=
  header_block x5f x07 x1a x61 x06 x03
    ++ descriptor "NAME" "C" x03 ++ descriptor "AGE" "N" x02 ++ [x0d]
    ++ ascii_bytes " abc12" ++ ascii_bytes "Xxyz34" ++ ascii_bytes " def56"
    ++ [x1a].

(** A header and one descriptor; the file ends where the next descriptor
    or the 0x0D byte would stand. *)
Definition nocr_dbf : bytes :=
  header_block x5f x07 x1a x41 x04 x03 ++ descriptor "NAME" "C" x03.

Definition files (path : string) : option bytes :=
  if String.eqb path "people.dbf" then Some people_dbf
  else if String.eqb path "empty.dbf" then Some empty_dbf
  else if String.eqb path "badlen.dbf" then Some badlen_dbf
  else if String.eqb path "unknown.dbf" then Some unknown_dbf
  else if String.eqb path "truncated.dbf" then Some truncated_dbf
  else if String.eqb path "notes.dbf" then Some notes_dbf
  else if String.eqb path "orphan.dbf" then Some notes_dbf
  else if String.eqb path "corrupt.dbf" then Some corrupt_dbf
  else if String.eqb path "nocr.dbf" then Some nocr_dbf
  else None.

(** Only notes.dbf has a memo file beside it. *)
Definition ifind (path : string) (ext : option string) : option string :=
  match ext with
  | None => match files path with Some _ => Some path | None => None end
  | Some _ => if String.eqb path "notes.dbf" then Some "notes.fpt"%string else None
  end.

Definition guess_encoding (language_driver : N) : option string :=
  if N.eqb language_driver 3 then Some "cp1252"%string else None.

Fixpoint lstrip (l : bytes) : bytes :=
  match l with
  | b :: rest => if Byte.eqb b x00 || Byte.eqb b x20 then lstrip rest else l
  | [] => []
  end.

(** Trailing NULs and spaces removed, the rest read as text. *)
Definition parse_string (data : bytes) (enc : option string) : result string :=
  inr (string_of_list_byte (rev (lstrip (rev data)))).

Definition memo_file : MemoFile :=
  mkMemoFile (fun ptr =>
    match ptr with
    | PyInt 1 => inr (mkMemo "memo" (ascii_bytes "first note  "))
    | PyInt 2 => inr (mkMemo "picture" [xff; xd8; xff])
    | _ => inl (Raised "IndexError")
    end).

Definition FPT (path : string) : result MemoFile :=
  if String.eqb path "notes.fpt" then inr memo_file
  else inl (IOError_no_such_file path).

(** A parser for the types C, N, M, I, L and 0. *)
Definition parserclass (enc : option string) : FieldParser :=
  mkFieldParser
    (fun ty => existsb (String.eqb ty) ["C"; "N"; "M"; "I"; "L"; "0"]%string)
    (fun field data =>
       if String.eqb (f_type field) "C" then
         match parse_string data enc with
         | inr s => inr (PyStr s)
         | inl e => inl e
         end
       else if String.eqb (f_type field) "M" then
         if forallb (Byte.eqb x20) data then inr PyNone
         else inr (PyInt (Z.of_N (le_uint data)))
       else inr (PyBytes data)).

(** A parser that knows the type C only. *)
Definition text_parserclass (enc : option string) : FieldParser :=
  mkFieldParser
    (fun ty => String.eqb ty "C")
    (fun field data => inr (PyBytes data)).

(** The record is the list of its fields. *)
Definition recfactory (items : list FieldValue) : list FieldValue := items.

Definition same (s : string) : string := s.

Definition w0 : world := mkworld 0 [].

End Sample.

(** ** Further sample files *)

Module Edge.

(** NAME C(3) and one record; the three date bytes of the header are zero. *)
Definition undated_dbf : bytes :=
  Sample.header_block x00 x00 x00 x41 x04 x03
    ++ Sample.descriptor "NAME" "C" x03 ++ [x0d]
    ++ Sample.ascii_bytes " abc" ++ [x1a].

Definition files (path : string) : option bytes :=
  if String.eqb path "undated.dbf" then Some undated_dbf
  else Sample.files path.

Definition ifind (path : string) (ext : option string) : option string :=
  match ext with
  | None => match files path with Some _ => Some path | None => None end
  | Some _ => Sample.ifind path ext
  end.

End Edge.


Section Dbf.

(** What [recfactory] builds. *)
Variable Rec : Type.

(** The files on disk: the content of each path that exists. *)
Variable fs : string -> option bytes.

(** [ifiles.ifind(path, ext=None)]: the path on disk that matches [path]
    (with its extension replaced by [ext]) regardless of case, or [None]. *)
Variable ifind : string -> option string -> option string.

(** [codepages.guess_encoding]; [None] is [LookupError]. *)
Variable guess_encoding : N -> option string.

(** [common.parse_string(data, encoding)] *)
Variable parse_string : bytes -> option string -> result string.

(** [FPT(filename)] *)
Variable FPT : string -> result MemoFile.

(** [os.path.basename], [os.path.splitext(p)[0]] and [str.lower]. *)
Variables basename splitext_root str_lower : string -> string.

(** What [self.records] and [self.deleted] hold: a lazy [RecordIterator]
    or a list.  An iterator's [_table] is the table that holds it. *)
Inductive records_attr : Type :=
| AttrIterator (it : RecordIterator)
| AttrList (l : list (option Rec)).

Record Table : Type := mkTable {
  encoding : option string;
  ignorecase : bool;
  lowernames : bool;
  parserclass : option string -> FieldParser;
  recfactory : list FieldValue -> Rec;
  raw : bool;
  name : string;
  deleted : records_attr;
  filename : string;
  memofilename : option string;
  header : option DBFHeader;
  fields : list DBFField;
  field_names : list string;
  _field_parser : option FieldParser;
  date : option pydate;
  memofile : option MemoFile;
  records : option records_attr;
  loaded : option bool
}.

(** [with open(path, 'rb') as f: body]: a fresh handle at position 0. *)
Definition with_open {A : Type} (path : string) (body : file -> M A) : M A :=
  fun w =>
    match fs path with
    | None => (inl (IOError_no_such_file path), w)
    | Some f => body f (opened w path)
    end.

(** *** [Table._read_headers] *)

(** The [while 1] loop over the field headers.  [names] and [flds] are
    [self.field_names] and [self.fields] as appended to so far. *)
Fixpoint read_field_headers (fuel : nat) (enc : option string) (lower : bool)
    (f : file) (names : list string) (flds : list DBFField)
    : M (list string * list DBFField) :=
  match fuel with
  | 0 => raise Diverged
  | S fuel' =>
      sep <- f_read f 1 ;;
      if py_in (PyBytes sep) [PyBytes [x0d]; PyStr LF; PyStr ""]
      then ret (names, flds)                       (* End of field headers *)
      else
        fh <- DBFField_read f sep ;;
        fieldname <- lift (parse_string (f_name fh) enc) ;;
        let fieldname := if lower then str_lower fieldname else fieldname in
        fieldtype <- lift (parse_string (f_type fh) enc) ;;
        let fh := DBFField_replace fh fieldname fieldtype in
        read_field_headers fuel' enc lower f (names ++ [f_name fh]) (flds ++ [fh])
  end.

(** [self.encoding] after the header is read: what was passed in, else
    what [guess_encoding] finds, else ['latin1']. *)
Definition resolve_encoding (enc : option string) (hdr : DBFHeader) : option string :=
  match enc with
  | None => match guess_encoding (language_driver hdr) with
            | Some e => Some e
            | None => Some "latin1"%string
            end
  | Some e => Some e
  end.

Definition _read_headers (self : Table) (f : file) : M Table :=
  hdr <- DBFHeader_read f ;;
  let enc := resolve_encoding (encoding self) hdr in
  nf <- read_field_headers (S (length f)) enc (lowernames self) f
          (field_names self) (fields self) ;;
  let '(names, flds) := nf in
  if length flds <? 1 then raise (ValueError_no_fields (filename self))
  else
    (* Check for memo file *)
    memofn <-
      (if existsb (fun field => String.eqb "M" (f_type field)) flds then
         let fn := (splitext_root (filename self) ++ ".fpt")%string in
         let mtch := ifind (filename self) (Some ".fpt"%string) in
         if truthy mtch then ret mtch
         else raise (IOError_missing_memo_file fn)
       else ret (memofilename self)) ;;
    ret (mkTable enc (ignorecase self) (lowernames self) (parserclass self)
           (recfactory self) (raw self) (name self) (deleted self)
           (filename self) memofn (Some hdr) flds names
           (_field_parser self) (date self) (memofile self)
           (records self) (loaded self)).

(** *** [Table._check_headers] *)

(** The body of the loop, for one field.  [self._field_parser] is only
    looked at when the last [elif] is reached. *)
Definition check_field (parser : option FieldParser) (field : DBFField)
    : result unit :=
  if String.eqb (f_type field) "0" && negb (N.eqb (f_length field) 1) then
    inl (ValueError_type_0_length (f_length field))
  else if String.eqb (f_type field) "I" && negb (N.eqb (f_length field) 4) then
    inl (ValueError_type_I_length (f_length field))
  else if String.eqb (f_type field) "L" && negb (N.eqb (f_length field) 1) then
    inl (ValueError_type_L_length (f_length field))
  else
    match parser with
    | None => inl (AttributeError "_field_parser")
    | Some p =>
        if negb (field_type_supported p (f_type field)) then
          inl (ValueError_unknown_field_type (f_type field))
        else inr tt
    end.

Fixpoint check_fields (parser : option FieldParser) (flds : list DBFField)
    : result unit :=
  match flds with
  | [] => inr tt
  | field :: rest =>
      match check_field parser field with
      | inl e => inl e
      | inr _ => check_fields parser rest
      end
  end.

(** Check headers for possible format errors. *)
Definition _check_headers (self : Table) : M unit :=
  lift (check_fields (_field_parser self) (fields self)).

(** *** [Table._read_record] *)

(** [self._field_parser.parse(field, value)] *)
Definition call_parse (self : Table) (field : DBFField) (value : bytes) : M pyval :=
  match _field_parser self with
  | None => raise (AttributeError "_field_parser")
  | Some p => fun w => (parse p field value, log_event (EvParse field value) w)
  end.

(** [self.memofile[value]] *)
Definition memofile_getitem (self : Table) (value : pyval) : M Memo :=
  match memofile self with
  | None => raise (AttributeError "memofile")
  | Some m => fun w => (getitem m value, log_event (EvMemoGet value) w)
  end.

(** The body of the loop over [self.fields]: the value of one field. *)
Definition read_field (self : Table) (f : file) (field : DBFField) : M pyval :=
  value <- f_read f (N.to_nat (f_length field)) ;;
  if raw self then
    ret (PyBytes value)                  (* Just return the byte string *)
  else
    value <- call_parse self field value ;;
    if String.eqb (f_type field) "M" then
      match value with
      | PyNone => ret (PyStr "")
      | _ =>
          memo <- memofile_getitem self value ;;
          if String.eqb (memo_type memo) "memo" && negb (raw self) then
            (* Decode to unicode *)
            text <- lift (parse_string (memo_data memo) (encoding self)) ;;
            ret (PyStr text)
          else
            (* Byte array *)
            ret (PyBytes (memo_data memo))
      end
    else ret value.

Fixpoint read_items (self : Table) (f : file) (flds : list DBFField)
    : M (list FieldValue) :=
  match flds with
  | [] => ret []
  | field :: rest =>
      value <- read_field self f field ;;
      items <- read_items self f rest ;;
      ret (mkFieldValue (f_name field) value :: items)
  end.

Definition _read_record (self : Table) (f : file) : M Rec :=
  items <- read_items self f (fields self) ;;
  ret (recfactory self items).

(** *** [Table._skip_record] *)

(** [sum(field.length for field in self.fields)] *)
Definition record_size (flds : list DBFField) : N :=
  fold_right (fun field acc => (f_length field + acc)%N) 0%N flds.

(** Seek ahead by size of record. *)
Definition _skip_record (self : Table) (infile : file) : M unit :=
  f_seek (record_size (fields self)) SEEK_CUR.

(** *** [Table._iter_records] *)

Definition SPACE : bytes := [x20].
Definition STAR : bytes := [x2a].

Definition iter_step (self : Table) (infile : file) (deleted read : bool)
    : M (step_result Rec) :=
  sep <- f_read infile 1 ;;
  if bytes_eqb sep [] || bytes_eqb sep [x1a] then
    ret StepReturn                                 (* End of file reached *)
  else if negb (bytes_in sep (SPACE ++ STAR)) then
    raise (IOError_invalid_record_separator sep)
  else
    let interesting_record :=
      if deleted && bytes_eqb sep STAR then true
      else if negb deleted && bytes_eqb sep SPACE then true
      else false in
    if interesting_record then
      if read then
        rec <- _read_record self infile ;; ret (StepYield (Some rec))
      else
        _skip_record self infile ;;; ret (StepYield None)
    else
      _skip_record self infile ;;; ret StepNext.

Fixpoint iter_loop (fuel : nat) (self : Table) (infile : file)
    (deleted read : bool) : Gen (option Rec) :=
  fun w =>
    match fuel with
    | 0 => (([], Some Diverged), w)
    | S fuel' =>
        match iter_step self infile deleted read w with
        | (inl e, w1) => (([], Some e), w1)
        | (inr StepReturn, w1) => (([], None), w1)
        | (inr (StepYield v), w1) =>
            let '((ys, e), w2) := iter_loop fuel' self infile deleted read w1 in
            ((v :: ys, e), w2)
        | (inr StepNext, w1) => iter_loop fuel' self infile deleted read w1
        end
    end.

Definition _iter_records (self : Table) (deleted read : bool) : Gen (option Rec) :=
  fun w =>
    match fs (filename self) with
    | None => (([], Some (IOError_no_such_file (filename self))), w)
    | Some infile =>
        let w0 := opened w (filename self) in
        match header self with
        | None => (([], Some (AttributeError "header")), w0)
        | Some hdr =>
            (* Skip to first record. *)
            let w1 := snd (f_seek (headerlen hdr) SEEK_SET w0) in
            iter_loop (S (length infile)) self infile deleted read w1
        end
    end.

(** *** [RecordIterator] *)

Definition RecordIterator___iter__ (table : Table) (it : RecordIterator)
    : Gen (option Rec) :=
  _iter_records table (_deleted it) true.

Definition RecordIterator___len__ (table : Table) (it : RecordIterator) : M nat :=
  ys <- gen_list (_iter_records table (_deleted it) false) ;;
  ret (length ys).

(** [list(RecordIterator(...))].  The built-in [list] first asks its
    argument for a length hint, which is [len()] of an object that has
    [__len__], and then drains the iterator; an exception of either ends it. *)
Definition list_RecordIterator (table : Table) (it : RecordIterator)
    : M (list (option Rec)) :=
  RecordIterator___len__ table it ;;;
  gen_list (RecordIterator___iter__ table it).

(** *** [Table.load], [Table.unload] *)

Definition set_records (self : Table) (recs dels : records_attr) (l : bool) : Table :=
  mkTable (encoding self) (ignorecase self) (lowernames self) (parserclass self)
    (recfactory self) (raw self) (name self) dels
    (filename self) (memofilename self) (header self) (fields self)
    (field_names self) (_field_parser self) (date self) (memofile self)
    (Some recs) (Some l).

Definition load (self : Table) : M Table :=
  recs <- list_RecordIterator self (mkRecordIterator false) ;;
  (* self.records is a list from here on; the second traversal reads
     only the file and the schema *)
  dels <- list_RecordIterator self (mkRecordIterator true) ;;
  ret (set_records self (AttrList recs) (AttrList dels) true).

Definition unload (self : Table) : Table :=
  set_records self (AttrIterator (mkRecordIterator false))
    (AttrIterator (mkRecordIterator true)) false.

(** [for record in attr] and [list(attr)] for what [self.records] or
    [self.deleted] holds. *)
Definition iter_attr (self : Table) (attr : records_attr) : Gen (option Rec) :=
  match attr with
  | AttrIterator it => RecordIterator___iter__ self it
  | AttrList l => fun w => ((l, None), w)
  end.

Definition len_attr (self : Table) (attr : records_attr) : M nat :=
  match attr with
  | AttrIterator it => RecordIterator___len__ self it
  | AttrList l => ret (length l)
  end.

Definition Table___iter__ (self : Table) : Gen (option Rec) :=
  match records self with
  | None => fun w => (([], Some (AttributeError "records")), w)
  | Some attr => iter_attr self attr
  end.

Definition Table___len__ (self : Table) : M nat :=
  match records self with
  | None => raise (AttributeError "records")
  | Some attr => len_attr self attr
  end.

(** *** [Table.__init__] *)

(** [self.filename]: the path found by [ifind] when [ignorecase] is set. *)
Definition resolve_filename (filename_arg : string) (ignorecase_arg : bool)
    : result string :=
  if ignorecase_arg then
    let found := ifind filename_arg None in
    match found with
    | Some p => if truthy found then inr p
                else inl (IOError_no_such_file filename_arg)
    | None => inl (IOError_no_such_file filename_arg)
    end
  else inr filename_arg.

(** [self] as the assignments before the [with] block leave it. *)
Definition new_table (filename_arg : string) (encoding_arg : option string)
    (ignorecase_arg lowernames_arg : bool)
    (parserclass_arg : option string -> FieldParser)
    (recfactory_arg : list FieldValue -> Rec)
    (raw_arg : bool) (fname : string) : Table :=
  (* Name part before .dbf is the table name *)
  let nm := str_lower (splitext_root (basename filename_arg)) in
  mkTable encoding_arg ignorecase_arg lowernames_arg parserclass_arg
    recfactory_arg raw_arg nm (AttrList [])
    fname None None [] [] None None None None None.

Definition set_field_parser (self : Table) (parser : FieldParser) : Table :=
  mkTable (encoding self) (ignorecase self) (lowernames self)
    (parserclass self) (recfactory self) (raw self) (name self)
    (deleted self) (filename self) (memofilename self) (header self)
    (fields self) (field_names self) (Some parser) (date self)
    (memofile self) (records self) (loaded self).

Definition set_date_memofile (self : Table) (d : pydate) (mf : option MemoFile)
    : Table :=
  mkTable (encoding self) (ignorecase self) (lowernames self)
    (parserclass self) (recfactory self) (raw self) (name self)
    (deleted self) (filename self) (memofilename self) (header self)
    (fields self) (field_names self) (_field_parser self) (Some d)
    mf (records self) (loaded self).

(** [FPT(path)] *)
Definition open_memofile (path : string) : M MemoFile :=
  fun w => (FPT path, log_event (EvMemoOpen path) w).

(** The body of the [with open(self.filename, mode='rb') as f] block. *)
Definition init_with_file (self : Table) (f : file) : M Table :=
  self <- _read_headers self f ;;
  let self := set_field_parser self (parserclass self (encoding self)) in
  _check_headers self ;;;
  hdr <- match header self with
         | Some h => ret h
         | None => raise (AttributeError "header")
         end ;;
  d <- lift (datetime_date (expand_year (Z.of_N (year hdr)))
               (Z.of_N (month hdr)) (Z.of_N (day hdr))) ;;
  (* Get memo file *)
  mf <- (if truthy (memofilename self) && negb (raw self) then
           match memofilename self with
           | Some path => m <- open_memofile path ;; ret (Some m)
           | None => ret None
           end
         else ret None) ;;
  ret (set_date_memofile self d mf).

Definition Table___init__ (filename_arg : string) (encoding_arg : option string)
    (ignorecase_arg lowernames_arg : bool)
    (parserclass_arg : option string -> FieldParser)
    (recfactory_arg : list FieldValue -> Rec)
    (load_arg raw_arg : bool) : M Table :=
  fname <- lift (resolve_filename filename_arg ignorecase_arg) ;;
  self <- with_open fname
            (init_with_file
               (new_table filename_arg encoding_arg ignorecase_arg lowernames_arg
                  parserclass_arg recfactory_arg raw_arg fname)) ;;
  if load_arg then load self else ret (unload self).

(** ** The record area as the format describes it *)

(** The marker bytes of the record area: the byte at [pos], then one every
    [1 + size] bytes, up to the end-of-file byte 0x1A or the end of the
    file.  [fuel] bounds the number of markers looked at. *)
Fixpoint marker_bytes (fuel : nat) (data : bytes) (pos size : nat) : bytes :=
  match fuel with
  | 0 => []
  | S fuel' =>
      match nth_error data pos with
      | None => []
      | Some b =>
          if Byte.eqb b x1a then []
          else b :: marker_bytes fuel' data (pos + 1 + size) size
      end
  end.

(** The markers of a table's file [data]. *)
Definition table_markers (self : Table) (data : bytes) : bytes :=
  match header self with
  | None => []
  | Some hdr =>
      marker_bytes (S (length data)) data (N.to_nat (headerlen hdr))
        (N.to_nat (record_size (fields self)))
  end.

Definition count_byte (b : byte) (l : bytes) : nat :=
  length (filter (Byte.eqb b) l).

(** How the format classifies a marker; [None] is the end of the stream. *)
Inductive marker_class : Type :=
| Active | Deleted | Terminal | Invalid.

Definition classify (marker : option byte) : marker_class :=
  match marker with
  | None => Terminal
  | Some b =>
      if Byte.eqb b x20 then Active
      else if Byte.eqb b x2a then Deleted
      else if Byte.eqb b x1a then Terminal
      else Invalid
  end.

(** The byte under the read position, if the file has one there. *)
Definition peek (f : file) (w : world) : option byte := nth_error f (w_pos w).

(** What a turn does once the marker is read. *)
Definition decode_record (self : Table) (infile : file) : M (step_result Rec) :=
  rec <- _read_record self infile ;; ret (StepYield (Some rec)).

Definition count_record (self : Table) (infile : file) : M (step_result Rec) :=
  _skip_record self infile ;;; ret (StepYield None).

Definition pass_record (self : Table) (infile : file) : M (step_result Rec) :=
  _skip_record self infile ;;; ret StepNext.

(** The marker of the class of records a traversal is asked for. *)
Definition wanted_marker (deleted : bool) : byte :=
  if deleted then x2a else x20.

(** The fields of a record as the layout gives them: each value is the
    run of bytes of the file that lies in the field's slot, the slots
    following one another from [pos]. *)
Fixpoint slot_items (f : bytes) (pos : nat) (flds : list DBFField)
    : list FieldValue :=
  match flds with
  | [] => []
  | field :: rest =>
      let n := N.to_nat (f_length field) in
      mkFieldValue (f_name field) (PyBytes (firstn n (skipn pos f)))
        :: slot_items f (pos + n) rest
  end.

(** A computation that leaves the position where it was. *)
Definition keeps_pos {X : Type} (m : world -> X * world) : Prop :=
  forall w, w_pos (snd (m w)) = w_pos w.


(** [for record in table.deleted] *)
Definition iterate_deleted (self : Table) : Gen (option Rec) :=
  iter_attr self (deleted self).


(** [item] is a raw value of [field]: it bears the field's name and is a
    byte string of [n] bytes. *)
Definition raw_value_of (field : DBFField) (n : nat) (item : FieldValue) : Prop :=
  fv_name item = f_name field /\
  exists b, fv_value item = PyBytes b /\ length b = n.


(** The world after [data] was read for [field] and handed to the parser. *)
Definition parsed_world (w : world) (field : DBFField) (data : bytes) : world :=
  log_event (EvParse field data)
    (mkworld (w_pos w + length data)
       (w_log w ++ [EvRead (N.to_nat (f_length field)) data])).

(** A computation that takes every world to one related to it by [R]. *)
Definition preserves {X : Type} (R : world -> world -> Prop)
    (m : world -> X * world) : Prop :=
  forall w, R w (snd (m w)).

(** The position did not move back. *)
Definition pos_le (w w' : world) : Prop := w_pos w <= w_pos w'.


(** What a turn of the loop of [_read_headers] does when it has not left
    the loop: read the descriptor with [sep] in front, fix its name and
    type, append it, and go on with [loop]. *)
Definition next_descriptor (enc : option string) (lower : bool) (f : file)
    (names : list string) (flds : list DBFField) (sep : bytes)
    (loop : list string -> list DBFField -> M (list string * list DBFField))
    : M (list string * list DBFField) :=
  fh <- DBFField_read f sep ;;
  fieldname <- lift (parse_string (f_name fh) enc) ;;
  let fieldname := if lower then str_lower fieldname else fieldname in
  fieldtype <- lift (parse_string (f_type fh) enc) ;;
  let fh := DBFField_replace fh fieldname fieldtype in
  loop (names ++ [f_name fh]) (flds ++ [fh]).


(** ** What a traversal does to the file *)

(** The operations of a traversal that looks at markers only: the file is
    opened, the position is moved, and single bytes are read. *)
Definition is_marker_event (e : event) : bool :=
  match e with
  | EvOpen _ | EvSeek _ _ => true
  | EvRead n _ => Nat.eqb n 1
  | _ => false
  end.

(** A marker of a record: active or deleted. *)
Definition record_marker (b : byte) : Prop := b = x20 \/ b = x2a.


(** The records of one class as the layout gives them: for each marker
    [wanted] met from [pos] on, one every [1 + size] bytes up to 0x1A or
    the end of the file, the slots of the fields that follow it. *)
Fixpoint area_records (fuel : nat) (data : bytes) (pos size : nat)
    (flds : list DBFField) (wanted : byte) : list (list FieldValue) :=
  match fuel with
  | 0 => []
  | S fuel' =>
      match nth_error data pos with
      | None => []
      | Some b =>
          if Byte.eqb b x1a then []
          else
            let rest :=
              area_records fuel' data (pos + 1 + size) size flds wanted in
            if Byte.eqb b wanted then slot_items data (pos + 1) flds :: rest
            else rest
      end
  end.


(** The unsigned value of the byte of [f] at offset [i] (0 past the end). *)
Definition byte_at (f : bytes) (i : nat) : N := Byte.to_N (nth i f x00).


(** [fld] is the descriptor that the 32 bytes of [f] from offset [p] on
    hold: 11 bytes of name, one byte of type, a 4-byte address, one byte
    of length and one of decimal count, the name and the type decoded
    with [enc]. *)
Definition descriptor_at (enc : option string) (lower : bool) (f : bytes)
    (p : nat) (fld : DBFField) : Prop :=
  p + 32 <= length f /\
  nth_error f p <> Some x0d /\
  (exists nm, parse_string (firstn 11 (skipn p f)) enc = inr nm /\
              f_name fld = if lower then str_lower nm else nm) /\
  parse_string (firstn 1 (skipn (p + 11) f)) enc = inr (f_type fld) /\
  f_length fld = byte_at f (p + 16) /\
  decimal_count fld = byte_at f (p + 17).


(** What decoding does outside raw mode when no memo is involved: reads
    and calls of the field parser. *)
Definition is_read_or_parse (e : event) : bool :=
  match e with
  | EvRead _ _ | EvParse _ _ => true
  | _ => false
  end.

(** The fields of a record as the parser gives them: each value is what
    [parse] returns for the bytes of the field's slot, the slots
    following one another from [pos]; the first failure ends it. *)
Fixpoint parsed_items (parser : FieldParser) (f : bytes) (pos : nat)
    (flds : list DBFField) : result (list FieldValue) :=
  match flds with
  | [] => inr []
  | field :: rest =>
      let n := N.to_nat (f_length field) in
      match parse parser field (firstn n (skipn pos f)) with
      | inl e => inl e
      | inr value =>
          match parsed_items parser f (pos + n) rest with
          | inl e => inl e
          | inr items => inr (mkFieldValue (f_name field) value :: items)
          end
      end
  end.


(** *** [LegacyTable] *)

(** How a caller of [LegacyTable( *args, **kwargs)] passes [load]: not at
    all, as a keyword, or as the seventh positional argument. *)
Inductive load_passing : Type :=
| LoadOmitted
| LoadKeyword (b : bool)
| LoadPositional (b : bool).

(** A [LegacyTable] is a list: [legacy_items] is what the list holds and
    [legacy_table] is [self._table], the table that attributes are
    forwarded to.  After [__init__], [self._table.records] is the
    [LegacyTable] itself; the table's [records] then hold the same
    items. *)
Record LegacyTable : Type := mkLegacyTable {
  legacy_items : list (option Rec);
  legacy_table : Table
}.

(** [__getattr__]: an attribute that the list has not is looked up on
    [self._table]. *)
Definition LegacyTable___getattr__ {A : Type} (self : LegacyTable)
    (attr : Table -> A) : A :=
  attr (legacy_table self).

(** [table.records = recs] *)
Definition assign_records (self : Table) (recs : records_attr) : Table :=
  mkTable (encoding self) (ignorecase self) (lowernames self) (parserclass self)
    (recfactory self) (raw self) (name self) (deleted self)
    (filename self) (memofilename self) (header self) (fields self)
    (field_names self) (_field_parser self) (date self) (memofile self)
    (Some recs) (loaded self).

Definition LegacyTable___init__ (filename_arg : string)
    (encoding_arg : option string) (ignorecase_arg lowernames_arg : bool)
    (parserclass_arg : option string -> FieldParser)
    (recfactory_arg : list FieldValue -> Rec)
    (load_arg : load_passing) (raw_arg : bool) : M LegacyTable :=
  match load_arg with
  | LoadPositional _ =>
      (* Table( *args, load=True) with [load] among args: the call fails *)
      raise (Raised "TypeError")
  | _ =>
      (* kwargs['load'] = True *)
      table <- Table___init__ filename_arg encoding_arg ignorecase_arg
                 lowernames_arg parserclass_arg recfactory_arg true raw_arg ;;
      (* self[:] = self.records *)
      items <- match LegacyTable___getattr__ (mkLegacyTable [] table)
                       records with
               | None => raise (AttributeError "records")
               | Some (AttrList l) => ret l
               | Some (AttrIterator it) => list_RecordIterator table it
               end ;;
      (* self._table.records = self *)
      ret (mkLegacyTable items (assign_records table (AttrList items)))
  end.


(** ** The record boundaries of a traversal *)

(** [reaches self infile deleted read k w ys wb]: the loop of
    [_iter_records], standing at the record boundary [w], takes [k] turns
    that neither return nor raise, yields [ys] in them, in this order,
    and then stands at the record boundary [wb]. *)
Inductive reaches (self : Table) (infile : file) (deleted read : bool)
    : nat -> world -> list (option Rec) -> world -> Prop :=
| reaches_here (w : world) :
    reaches self infile deleted read 0 w [] w
| reaches_yield (k : nat) (w w1 wb : world) (v : option Rec)
    (ys : list (option Rec)) :
    iter_step self infile deleted read w = (inr (StepYield v), w1) ->
    reaches self infile deleted read k w1 ys wb ->
    reaches self infile deleted read (S k) w (v :: ys) wb
| reaches_next (k : nat) (w w1 wb : world) (ys : list (option Rec)) :
    iter_step self infile deleted read w = (inr StepNext, w1) ->
    reaches self infile deleted read k w1 ys wb ->
    reaches self infile deleted read (S k) w ys wb.


(** ** What the specification says of a field descriptor *)

Definition bad_length (field : DBFField) : Prop :=
  (f_type field = "0"%string /\ f_length field <> 1%N) \/
  (f_type field = "I"%string /\ f_length field <> 4%N) \/
  (f_type field = "L"%string /\ f_length field <> 1%N).

Definition unsupported (parser : FieldParser) (field : DBFField) : Prop :=
  field_type_supported parser (f_type field) = false.

(** * Properties *)

(** ** Bytes and comparisons *)

Lemma bytes_eqb_eq (a b : bytes) : bytes_eqb a b = true <-> a = b.
Proof.
  unfold bytes_eqb. destruct (list_eq_dec byte_eq_dec a b); split; congruence.
Qed.

Lemma bytes_eqb_neq (a b : bytes) : bytes_eqb a b = false <-> a <> b.
Proof.
  unfold bytes_eqb. destruct (list_eq_dec byte_eq_dec a b); split; congruence.
Qed.

Lemma byte_eqb_eq (a b : byte) : Byte.eqb a b = true <-> a = b.
Proof.
  split; [apply byte_dec_bl | apply byte_dec_lb].
Qed.

Lemma byte_eqb_neq (a b : byte) : Byte.eqb a b = false <-> a <> b.
Proof.
  split; intro H.
  - intro E. apply byte_dec_lb in E. congruence.
  - destruct (Byte.eqb a b) eqn:E; [apply byte_dec_bl in E; contradiction | reflexivity].
Qed.

Lemma bytes_eqb_single (a b : byte) : bytes_eqb [a] [b] = Byte.eqb a b.
Proof.
  destruct (Byte.eqb a b) eqn:E.
  - apply byte_eqb_eq in E. subst. now apply bytes_eqb_eq.
  - apply byte_eqb_neq in E. apply bytes_eqb_neq. congruence.
Qed.

(** The byte that [f.read(1)] returns is the byte under the position. *)
Lemma read1_peek (f : file) (p : nat) :
  firstn 1 (skipn p f) = match nth_error f p with Some b => [b] | None => [] end.
Proof.
  revert p. induction f as [|x f IH]; intros [|p]; simpl; try reflexivity.
  apply IH.
Qed.

Lemma sep_in_space_star (b : byte) :
  bytes_in [b] (SPACE ++ STAR) = Byte.eqb b x20 || Byte.eqb b x2a.
Proof.
  unfold SPACE, STAR. simpl.
  rewrite !andb_true_r, !orb_false_r. reflexivity.
Qed.

(** ** [expand_year] *)

(** C4.  Century expansion: a year below 80 is mapped to 2000 + year, a
    year from 80 on to 1900 + year; so 0 gives 2000, 79 gives 2079, 80
    gives 1980 and 99 gives 1999, the boundary lying exactly at 80. *)
Theorem expand_year_century (y : Z) :
  ((y < 80 -> expand_year y = 2000 + y) /\
   (80 <= y -> expand_year y = 1900 + y) /\
   expand_year 0 = 2000 /\ expand_year 79 = 2079 /\
   expand_year 80 = 1980 /\ expand_year 99 = 1999)%Z.
Proof.
  unfold expand_year. repeat split; try reflexivity.
  - intro H. apply Z.ltb_lt in H. now rewrite H.
  - intro H. apply Z.ltb_ge in H. now rewrite H.
Qed.

(** ** The record iterator, one step at a time *)

Lemma iter_step_eq (self : Table) (infile : file) (deleted read : bool) (w : world) :
  iter_step self infile deleted read w =
    match peek infile w with
    | None => (inr StepReturn, after_marker w [])
    | Some b =>
        if Byte.eqb b x1a then (inr StepReturn, after_marker w [b])
        else if Byte.eqb b x20 then
          (if deleted then pass_record self infile
           else if read then decode_record self infile
           else count_record self infile) (after_marker w [b])
        else if Byte.eqb b x2a then
          (if deleted then (if read then decode_record self infile
                            else count_record self infile)
           else pass_record self infile) (after_marker w [b])
        else (inl (IOError_invalid_record_separator [b]), after_marker w [b])
    end.
Proof.
  unfold iter_step, bind at 1, f_read, peek, after_marker.
  rewrite read1_peek.
  destruct (nth_error infile (w_pos w)) as [b|]; [|reflexivity].
  change (bytes_eqb [b] []) with false.
  rewrite bytes_eqb_single, sep_in_space_star.
  unfold SPACE, STAR. rewrite !bytes_eqb_single. simpl orb.
  destruct (Byte.eqb b x1a) eqn:E1a.
  { reflexivity. }
  destruct (Byte.eqb b x20) eqn:E20.
  { apply byte_eqb_eq in E20. subst b. simpl. destruct deleted; reflexivity. }
  destruct (Byte.eqb b x2a) eqn:E2a.
  { apply byte_eqb_eq in E2a. subst b. simpl. destruct deleted; reflexivity. }
  reflexivity.
Qed.

(** One turn of the loop of [_iter_records] first reads one byte at the
    position it is at (nothing at the end of the stream) and goes by it:
    0x20 is an active record and 0x2A a deleted one, which is then
    decoded or skipped and nothing else; 0x1A or the end of the stream
    ends the loop; any other byte raises the invalid record separator
    error, and the loop ends there, the read of that byte being the last
    thing it did. *)
Lemma iter_step_classifies (self : Table) (infile : file)
    (deleted read : bool) (w : world) :
  let marker := peek infile w in
  let sep := match marker with Some b => [b] | None => [] end in
  let w1 := after_marker w sep in
  let wanted := if read then decode_record self infile
                else count_record self infile in
  match classify marker with
  | Active =>
      iter_step self infile deleted read w =
        (if deleted then pass_record self infile else wanted) w1
  | Deleted =>
      iter_step self infile deleted read w =
        (if deleted then wanted else pass_record self infile) w1
  | Terminal =>
      iter_step self infile deleted read w = (inr StepReturn, w1) /\
      forall fuel,
        iter_loop (S fuel) self infile deleted read w = (([], None), w1)
  | Invalid =>
      iter_step self infile deleted read w =
        (inl (IOError_invalid_record_separator sep), w1) /\
      forall fuel,
        iter_loop (S fuel) self infile deleted read w =
          (([], Some (IOError_invalid_record_separator sep)), w1)
  end.
Proof.
  cbv zeta. pose proof (iter_step_eq self infile deleted read w) as Hstep.
  unfold classify. destruct (peek infile w) as [b|].
  - destruct (Byte.eqb b x20) eqn:E20.
    + assert (b = x20) by now apply byte_eqb_eq. subst b.
      rewrite Hstep. simpl. destruct deleted; reflexivity.
    + destruct (Byte.eqb b x2a) eqn:E2a.
      * assert (b = x2a) by now apply byte_eqb_eq. subst b.
        rewrite Hstep. simpl. destruct deleted; reflexivity.
      * destruct (Byte.eqb b x1a) eqn:E1a.
        -- split; [exact Hstep|]. intro fuel. simpl. now rewrite Hstep.
        -- split; [exact Hstep|]. intro fuel. simpl. now rewrite Hstep.
  - split; [exact Hstep|]. intro fuel. simpl. now rewrite Hstep.
Qed.

(** ** The events of a computation *)

Lemma only_events_refl (P : event -> bool) (w : world) : only_events P w w.
Proof. exists []. now rewrite app_nil_r. Qed.

Lemma only_events_trans (P : event -> bool) (w1 w2 w3 : world) :
  only_events P w1 w2 -> only_events P w2 w3 -> only_events P w1 w3.
Proof.
  intros [e1 [H1 F1]] [e2 [H2 F2]]. exists (e1 ++ e2). split.
  - rewrite H2, H1. now rewrite app_assoc.
  - rewrite forallb_app. now rewrite F1, F2.
Qed.

Lemma only_events_mono (P Q : event -> bool) (w w' : world) :
  (forall e, P e = true -> Q e = true) ->
  only_events P w w' -> only_events Q w w'.
Proof.
  intros HPQ [evs [H F]]. exists evs. split; [exact H|].
  rewrite forallb_forall in *. auto.
Qed.

Lemma emits_ret {A : Type} (P : event -> bool) (a : A) : emits P (ret a).
Proof. intro w. apply only_events_refl. Qed.

Lemma emits_raise {A : Type} (P : event -> bool) (e : exn) : emits P (@raise A e).
Proof. intro w. apply only_events_refl. Qed.

Lemma emits_lift {A : Type} (P : event -> bool) (r : result A) : emits P (lift r).
Proof. intro w. apply only_events_refl. Qed.

Lemma emits_bind {A B : Type} (P : event -> bool) (m : M A) (k : A -> M B) :
  emits P m -> (forall a, emits P (k a)) -> emits P (bind m k).
Proof.
  intros Hm Hk w. unfold bind. specialize (Hm w).
  destruct (m w) as [[e|a] w']; simpl in *; [exact Hm|].
  eapply only_events_trans; [exact Hm | apply Hk].
Qed.

Lemma emits_gen_list {Y : Type} (P : event -> bool) (g : Gen Y) :
  emits P g -> emits P (gen_list g).
Proof.
  intros Hg w. unfold gen_list. specialize (Hg w).
  destruct (g w) as [[ys [e|]] w']; exact Hg.
Qed.

Ltac emits_step :=
  match goal with
  | |- emits _ (bind _ _) => apply emits_bind; [|intro]
  | |- emits _ (ret _) => apply emits_ret
  | |- emits _ (raise _) => apply emits_raise
  | |- emits _ (lift _) => apply emits_lift
  | |- emits _ (if ?c then _ else _) => destruct c
  | |- emits _ (match ?c with Some _ => _ | None => _ end) => destruct c
  | |- emits _ (let '(_, _) := ?c in _) => destruct c
  end.

Section Emits.

Variable P : event -> bool.
Hypothesis P_read : forall n got, P (EvRead n got) = true.

Lemma emits_f_read (f : file) (n : nat) : emits P (f_read f n).
Proof.
  intro w. eexists. split; [reflexivity|]. simpl. now rewrite P_read.
Qed.

Lemma emits_StructParser_read fmt (f : file) prepend :
  emits P (StructParser_read fmt f prepend).
Proof.
  unfold StructParser_read. repeat (emits_step || apply emits_f_read).
Qed.

Lemma emits_DBFHeader_read (f : file) : emits P (DBFHeader_read f).
Proof.
  unfold DBFHeader_read. repeat (emits_step || apply emits_StructParser_read).
Qed.

Lemma emits_DBFField_read (f : file) (p : bytes) : emits P (DBFField_read f p).
Proof.
  unfold DBFField_read. repeat (emits_step || apply emits_StructParser_read).
Qed.

Lemma emits_read_field_headers fuel enc lower (f : file) names flds :
  emits P (read_field_headers fuel enc lower f names flds).
Proof.
  revert names flds. induction fuel as [|fuel IH]; intros names flds;
    cbn [read_field_headers].
  - apply emits_raise.
  - repeat (emits_step || apply emits_f_read || apply emits_DBFField_read
            || apply IH).
Qed.

Lemma emits__read_headers (self : Table) (f : file) :
  emits P (_read_headers self f).
Proof.
  unfold _read_headers.
  repeat (emits_step || apply emits_DBFHeader_read
          || apply emits_read_field_headers).
Qed.

End Emits.

Lemma reads_only__read_headers (self : Table) (f : file) (w : world) :
  only_reads w (snd (_read_headers self f w)).
Proof. apply emits__read_headers. reflexivity. Qed.

(** ** Schema validation *)

Lemma check_field_ValueError (parser : FieldParser) (field : DBFField) (e : exn) :
  check_field (Some parser) field = inl e -> is_ValueError e = true.
Proof.
  unfold check_field.
  repeat match goal with
         | |- context [if ?c then _ else _] => destruct c
         end; intro H; inversion H; reflexivity.
Qed.

Lemma check_field_bad_length (parser : option FieldParser) (field : DBFField) :
  (f_type field = "0"%string -> f_length field <> 1%N ->
   check_field parser field = inl (ValueError_type_0_length (f_length field))) /\
  (f_type field = "I"%string -> f_length field <> 4%N ->
   check_field parser field = inl (ValueError_type_I_length (f_length field))) /\
  (f_type field = "L"%string -> f_length field <> 1%N ->
   check_field parser field = inl (ValueError_type_L_length (f_length field))).
Proof.
  unfold check_field. repeat split; intros Ht Hl; rewrite Ht; simpl;
    apply N.eqb_neq in Hl; rewrite Hl; reflexivity.
Qed.

Lemma check_field_unsupported (parser : FieldParser) (field : DBFField) :
  unsupported parser field -> ~ bad_length field ->
  check_field (Some parser) field =
    inl (ValueError_unknown_field_type (f_type field)).
Proof.
  unfold unsupported, bad_length, check_field. intros Hu Hn. rewrite Hu. simpl.
  destruct (String.eqb_spec (f_type field) "0") as [E0|E0]; simpl.
  - destruct (N.eqb_spec (f_length field) 1) as [L|L]; simpl; [|tauto].
    rewrite E0. reflexivity.
  - destruct (String.eqb_spec (f_type field) "I") as [EI|EI]; simpl.
    + destruct (N.eqb_spec (f_length field) 4) as [L|L]; simpl; [|tauto].
      rewrite EI. reflexivity.
    + destruct (String.eqb_spec (f_type field) "L") as [EL|EL]; simpl;
        [|reflexivity].
      destruct (N.eqb_spec (f_length field) 1) as [L|L]; simpl; [|tauto].
      reflexivity.
Qed.

Lemma bad_length_dec (field : DBFField) : bad_length field \/ ~ bad_length field.
Proof.
  unfold bad_length.
  destruct (string_dec (f_type field) "0"), (string_dec (f_type field) "I"),
    (string_dec (f_type field) "L"), (N.eq_dec (f_length field) 1),
    (N.eq_dec (f_length field) 4); tauto.
Qed.

Lemma check_field_offending (parser : FieldParser) (field : DBFField) :
  bad_length field \/ unsupported parser field ->
  exists e, check_field (Some parser) field = inl e /\ is_ValueError e = true.
Proof.
  intros H.
  destruct (bad_length_dec field) as [B|NB].
  - destruct (check_field_bad_length (Some parser) field) as [H0 [HI HL]].
    destruct B as [[T L]|[[T L]|[T L]]]; eexists; split;
      [apply H0 | | apply HI | | apply HL | ]; auto.
  - destruct H as [B|U]; [contradiction|].
    eexists; split; [apply check_field_unsupported; assumption | reflexivity].
Qed.

(** The loop stops at the first field that fails. *)
Lemma check_fields_first (parser : option FieldParser)
    (pre : list DBFField) (field : DBFField) (post : list DBFField) (e : exn) :
  Forall (fun g => check_field parser g = inr tt) pre ->
  check_field parser field = inl e ->
  check_fields parser (pre ++ field :: post) = inl e.
Proof.
  intros Hpre Hf. induction Hpre as [|g pre Hg _ IH]; simpl.
  - now rewrite Hf.
  - now rewrite Hg.
Qed.

Lemma check_fields_offending (parser : FieldParser) (flds : list DBFField)
    (field : DBFField) :
  In field flds -> bad_length field \/ unsupported parser field ->
  exists e, check_fields (Some parser) flds = inl e /\ is_ValueError e = true.
Proof.
  intros Hin Hoff. induction flds as [|g flds IH]; [contradiction|].
  simpl. destruct (check_field (Some parser) g) as [e|[]] eqn:Hg.
  - exists e. split; [reflexivity|]. eapply check_field_ValueError; eauto.
  - destruct Hin as [->|Hin]; [|auto].
    destruct (check_field_offending Hoff) as [e [He _]]. congruence.
Qed.

Lemma check_fields_passes (parser : FieldParser) (flds : list DBFField) :
  (forall field, In field flds -> ~ bad_length field /\ ~ unsupported parser field) ->
  check_fields (Some parser) flds = inr tt.
Proof.
  induction flds as [|g flds IH]; intro H; [reflexivity|]. simpl.
  destruct (check_field (Some parser) g) as [e|[]] eqn:Hg.
  - exfalso. destruct (H g (or_introl eq_refl)) as [NB NU].
    unfold check_field, bad_length, unsupported in *.
    destruct (String.eqb_spec (f_type g) "0"), (String.eqb_spec (f_type g) "I"),
      (String.eqb_spec (f_type g) "L"), (N.eqb_spec (f_length g) 1),
      (N.eqb_spec (f_length g) 4),
      (field_type_supported parser (f_type g));
      simpl in Hg; try discriminate; tauto.
  - apply IH. intros field Hin. apply H. now right.
Qed.

(** The constructor fails where [_check_headers] fails, in the world that
    reading the headers left. *)
Lemma init_fails_at_check
    (filename_arg : string) (encoding_arg : option string)
    (ignorecase_arg lowernames_arg : bool)
    (parserclass_arg : option string -> FieldParser)
    (recfactory_arg : list FieldValue -> Rec) (load_arg raw_arg : bool)
    (w : world) (fname : string) (f : file) (self1 : Table) (w1 : world) (e : exn) :
  resolve_filename filename_arg ignorecase_arg = inr fname ->
  fs fname = Some f ->
  _read_headers
    (new_table filename_arg encoding_arg ignorecase_arg lowernames_arg
       parserclass_arg recfactory_arg raw_arg fname) f (opened w fname)
    = (inr self1, w1) ->
  check_fields (Some (parserclass self1 (encoding self1))) (fields self1) = inl e ->
  Table___init__ filename_arg encoding_arg ignorecase_arg lowernames_arg
    parserclass_arg recfactory_arg load_arg raw_arg w = (inl e, w1).
Proof.
  intros Hres Hfs Hrh Hck.
  unfold Table___init__, bind at 1, lift. rewrite Hres.
  unfold bind at 1, with_open. rewrite Hfs.
  unfold init_with_file, bind at 1. rewrite Hrh.
  unfold bind at 1, _check_headers, lift. simpl. rewrite Hck. reflexivity.
Qed.

(** C6, as the code has it.  Schema validation, which the constructor
    runs once on the open file before any record is read, is fatal for a
    descriptor of type '0' whose length is not 1, of type 'I' whose
    length is not 4, of type 'L' whose length is not 1, with the length
    error of that type whatever the field parser supports; and it is
    fatal for a type code the field parser does not support, with the
    unknown field type error when the descriptor breaks none of the
    three length rules, which are tested first.  The error raised is
    that of the first such descriptor, and the constructor ends with it
    in the world that reading the headers left: the file has been read
    from, nothing else. *)
Theorem schema_validation_rejects :
  (forall (parser : FieldParser) (field : DBFField),
     (f_type field = "0"%string -> f_length field <> 1%N ->
      check_field (Some parser) field =
        inl (ValueError_type_0_length (f_length field))) /\
     (f_type field = "I"%string -> f_length field <> 4%N ->
      check_field (Some parser) field =
        inl (ValueError_type_I_length (f_length field))) /\
     (f_type field = "L"%string -> f_length field <> 1%N ->
      check_field (Some parser) field =
        inl (ValueError_type_L_length (f_length field))) /\
     (unsupported parser field ->
      exists e, check_field (Some parser) field = inl e /\ is_ValueError e = true) /\
     (unsupported parser field -> ~ bad_length field ->
      check_field (Some parser) field =
        inl (ValueError_unknown_field_type (f_type field)))) /\
  (forall (self : Table) (parser : FieldParser) (w : world),
     _field_parser self = Some parser ->
     (forall pre field post e,
        fields self = pre ++ field :: post ->
        Forall (fun g => check_field (Some parser) g = inr tt) pre ->
        check_field (Some parser) field = inl e ->
        _check_headers self w = (inl e, w)) /\
     (forall field,
        In field (fields self) ->
        bad_length field \/ unsupported parser field ->
        exists e, _check_headers self w = (inl e, w) /\ is_ValueError e = true)) /\
  (forall (filename_arg : string) (encoding_arg : option string)
     (ignorecase_arg lowernames_arg : bool)
     (parserclass_arg : option string -> FieldParser)
     (recfactory_arg : list FieldValue -> Rec) (load_arg raw_arg : bool)
     (w : world) (fname : string) (f : file) (self1 : Table) (w1 : world)
     (field : DBFField),
     resolve_filename filename_arg ignorecase_arg = inr fname ->
     fs fname = Some f ->
     _read_headers
       (new_table filename_arg encoding_arg ignorecase_arg lowernames_arg
          parserclass_arg recfactory_arg raw_arg fname) f (opened w fname)
       = (inr self1, w1) ->
     In field (fields self1) ->
     bad_length field \/ unsupported (parserclass self1 (encoding self1)) field ->
     exists e,
       Table___init__ filename_arg encoding_arg ignorecase_arg lowernames_arg
         parserclass_arg recfactory_arg load_arg raw_arg w = (inl e, w1) /\
       is_ValueError e = true /\
       only_reads (opened w fname) w1).
Proof.
  split; [|split].
  - intros parser field.
    destruct (check_field_bad_length (Some parser) field) as [H0 [HI HL]].
    repeat split; auto.
    + intro U. apply check_field_offending. now right.
    + apply check_field_unsupported.
  - intros self parser w Hp. unfold _check_headers, lift. rewrite Hp. split.
    + intros pre field post e Hf Hpre He. rewrite Hf.
      f_equal. now apply check_fields_first.
    + intros field Hin Hoff.
      destruct (check_fields_offending _ Hin Hoff) as [e [He Hv]].
      exists e. now rewrite He.
  - intros filename_arg encoding_arg ignorecase_arg lowernames_arg
      parserclass_arg recfactory_arg load_arg raw_arg w fname f self1 w1 field
      Hres Hfs Hrh Hin Hoff.
    destruct (check_fields_offending _ Hin Hoff) as [e [He Hv]].
    exists e. split; [|split].
    + eapply init_fails_at_check; eauto.
    + exact Hv.
    + pose proof (reads_only__read_headers
                    (new_table filename_arg encoding_arg ignorecase_arg
                       lowernames_arg parserclass_arg recfactory_arg raw_arg fname)
                    f (opened w fname)) as Hro.
      rewrite Hrh in Hro. exact Hro.
Qed.

(** ** The empty schema *)

Lemma read_headers_no_fields (self : Table) (f : file) (w : world)
    (hdr : DBFHeader) (w1 : world) (names : list string) (w2 : world) :
  DBFHeader_read f w = (inr hdr, w1) ->
  read_field_headers (S (length f)) (resolve_encoding (encoding self) hdr)
    (lowernames self) f (field_names self) (fields self) w1
    = (inr (names, []), w2) ->
  _read_headers self f w = (inl (ValueError_no_fields (filename self)), w2).
Proof.
  intros Hh Hl. unfold _read_headers, bind at 1. rewrite Hh.
  unfold bind at 1. rewrite Hl. reflexivity.
Qed.

(** C7.  When the loop over the field headers ends with no descriptor
    decoded, the constructor raises the ValueError of the empty schema, in
    the world that the loop left: the file was opened and read from, and
    no record was read. *)
Theorem zero_fields_fatal
    (filename_arg : string) (encoding_arg : option string)
    (ignorecase_arg lowernames_arg : bool)
    (parserclass_arg : option string -> FieldParser)
    (recfactory_arg : list FieldValue -> Rec) (load_arg raw_arg : bool)
    (w : world) (fname : string) (f : file)
    (hdr : DBFHeader) (w1 : world) (names : list string) (w2 : world) :
  resolve_filename filename_arg ignorecase_arg = inr fname ->
  fs fname = Some f ->
  DBFHeader_read f (opened w fname) = (inr hdr, w1) ->
  read_field_headers (S (length f)) (resolve_encoding encoding_arg hdr)
    lowernames_arg f [] [] w1 = (inr (names, []), w2) ->
  Table___init__ filename_arg encoding_arg ignorecase_arg lowernames_arg
    parserclass_arg recfactory_arg load_arg raw_arg w
    = (inl (ValueError_no_fields fname), w2) /\
  is_ValueError (ValueError_no_fields fname) = true /\
  only_reads (opened w fname) w2.
Proof.
  intros Hres Hfs Hh Hl.
  set (self0 := new_table filename_arg encoding_arg ignorecase_arg lowernames_arg
                  parserclass_arg recfactory_arg raw_arg fname).
  assert (Hrh : _read_headers self0 f (opened w fname)
                = (inl (ValueError_no_fields fname), w2)).
  { eapply read_headers_no_fields with (self := self0); [exact Hh | exact Hl]. }
  split; [|split; [reflexivity|]].
  - unfold Table___init__, bind at 1, lift. rewrite Hres.
    unfold bind at 1, with_open. rewrite Hfs.
    fold self0. unfold init_with_file, bind at 1. rewrite Hrh. reflexivity.
  - pose proof (@reads_only__read_headers self0 f (opened w fname)) as Hro.
    rewrite Hrh in Hro. exact Hro.
Qed.

(** ** Positions *)

Lemma sync_refl (f : bytes) (a : nat) : sync f a a.
Proof. now left. Qed.

Lemma sync_peek (f : bytes) (a b : nat) :
  sync f a b -> nth_error f a = nth_error f b.
Proof.
  intros [->|[Ha Hb]]; [reflexivity|].
  apply nth_error_None in Ha. apply nth_error_None in Hb. congruence.
Qed.

Lemma sync_slice (f : bytes) (a b n : nat) :
  sync f a b -> firstn n (skipn a f) = firstn n (skipn b f).
Proof.
  intros [->|[Ha Hb]]; [reflexivity|].
  now rewrite (skipn_all2 f Ha), (skipn_all2 f Hb).
Qed.

Lemma slice_length (f : bytes) (a n : nat) :
  length (firstn n (skipn a f)) = Nat.min n (length f - a).
Proof. now rewrite length_firstn, length_skipn. Qed.

Lemma sync_read (f : bytes) (a b n : nat) :
  sync f a b -> sync f (a + length (firstn n (skipn a f))) (b + n).
Proof.
  intros H. rewrite slice_length. unfold sync in *. lia.
Qed.

Lemma sync_add (f : bytes) (a b n : nat) :
  sync f a b -> sync f (a + n) (b + n).
Proof. unfold sync. lia. Qed.

Lemma keeps_pos_ret {A : Type} (a : A) : keeps_pos (ret a).
Proof. intro w. reflexivity. Qed.

Lemma keeps_pos_raise {A : Type} (e : exn) : keeps_pos (@raise A e).
Proof. intro w. reflexivity. Qed.

Lemma keeps_pos_lift {A : Type} (r : result A) : keeps_pos (lift r).
Proof. intro w. reflexivity. Qed.

Lemma keeps_pos_bind {A B : Type} (m : M A) (k : A -> M B) :
  keeps_pos m -> (forall a, keeps_pos (k a)) -> keeps_pos (bind m k).
Proof.
  intros Hm Hk w. unfold bind. specialize (Hm w).
  destruct (m w) as [[e|a] w']; simpl in *; [exact Hm|].
  now rewrite Hk.
Qed.

Lemma keeps_pos_call_parse (self : Table) (field : DBFField) (value : bytes) :
  keeps_pos (call_parse self field value).
Proof.
  unfold call_parse. destruct (_field_parser self); intro w; reflexivity.
Qed.

Lemma keeps_pos_memofile_getitem (self : Table) (value : pyval) :
  keeps_pos (memofile_getitem self value).
Proof.
  unfold memofile_getitem. destruct (memofile self); intro w; reflexivity.
Qed.

Ltac keeps_pos_step :=
  match goal with
  | |- keeps_pos (bind _ _) => apply keeps_pos_bind; [|intro]
  | |- keeps_pos (ret _) => apply keeps_pos_ret
  | |- keeps_pos (raise _) => apply keeps_pos_raise
  | |- keeps_pos (lift _) => apply keeps_pos_lift
  | |- keeps_pos (call_parse _ _ _) => apply keeps_pos_call_parse
  | |- keeps_pos (memofile_getitem _ _) => apply keeps_pos_memofile_getitem
  | |- keeps_pos (if ?c then _ else _) => destruct c
  | |- keeps_pos (match ?v with PyNone => _ | _ => _ end) => destruct v
  end.

(** Whatever the mode and the outcome, decoding a field moves the
    position by the bytes that its one read returned. *)
Lemma read_field_pos (self : Table) (f : file) (field : DBFField) (w : world) :
  w_pos (snd (read_field self f field w)) =
    w_pos w + length (firstn (N.to_nat (f_length field)) (skipn (w_pos w) f)).
Proof.
  unfold read_field, bind at 1, f_read.
  match goal with
  | |- w_pos (snd (?k ?w1)) = _ =>
      assert (K : keeps_pos k); [|rewrite K; reflexivity]
  end.
  repeat keeps_pos_step.
Qed.

Lemma record_size_cons (field : DBFField) (rest : list DBFField) :
  N.to_nat (record_size (field :: rest)) =
    N.to_nat (f_length field) + N.to_nat (record_size rest).
Proof. simpl. apply N2Nat.inj_add. Qed.

Lemma read_items_sync (self : Table) (f : file) (flds : list DBFField) :
  forall (w : world) (p : nat) (items : list FieldValue) (w' : world),
    read_items self f flds w = (inr items, w') ->
    sync f (w_pos w) p ->
    sync f (w_pos w') (p + N.to_nat (record_size flds)).
Proof.
  induction flds as [|field rest IH]; intros w p items w' H S.
  - simpl in H. inversion H; subst. simpl. now rewrite Nat.add_0_r.
  - cbn [read_items] in H. unfold bind at 1 in H.
    pose proof (read_field_pos self f field w) as Hp.
    destruct (read_field self f field w) as [[e|v] w1]; [discriminate|].
    simpl in Hp. unfold bind at 1 in H.
    destruct (read_items self f rest w1) as [[e|its] w2] eqn:Hr; [discriminate|].
    inversion H; subst.
    rewrite record_size_cons, Nat.add_assoc.
    eapply IH; [exact Hr|]. rewrite Hp. now apply sync_read.
Qed.

Lemma read_record_sync (self : Table) (f : file) (w : world) (p : nat)
    (r : Rec) (w' : world) :
  _read_record self f w = (inr r, w') ->
  sync f (w_pos w) p ->
  sync f (w_pos w') (p + N.to_nat (record_size (fields self))).
Proof.
  unfold _read_record, bind. intros H S.
  destruct (read_items self f (fields self) w) as [[e|its] w2] eqn:Hr;
    [discriminate|].
  inversion H; subst. eapply read_items_sync; eauto.
Qed.

Lemma count_byte_cons (m b : byte) (l : bytes) :
  count_byte m (b :: l) = (if Byte.eqb m b then 1 else 0) + count_byte m l.
Proof. unfold count_byte. simpl. now destruct (Byte.eqb m b). Qed.

(** ** Counting against decoding *)

Lemma pass_record_eq (self : Table) (infile : file) (w : world) :
  pass_record self infile w =
    (inr StepNext,
     mkworld (w_pos w + N.to_nat (record_size (fields self)))
       (w_log w ++ [EvSeek (record_size (fields self)) SEEK_CUR])).
Proof. reflexivity. Qed.

Lemma count_record_eq (self : Table) (infile : file) (w : world) :
  count_record self infile w =
    (inr (StepYield None),
     mkworld (w_pos w + N.to_nat (record_size (fields self)))
       (w_log w ++ [EvSeek (record_size (fields self)) SEEK_CUR])).
Proof. reflexivity. Qed.

Lemma decode_record_inv (self : Table) (infile : file) (w : world)
    (s : step_result Rec) (w' : world) :
  decode_record self infile w = (inr s, w') ->
  exists r, s = StepYield (Some r) /\ _read_record self infile w = (inr r, w').
Proof.
  unfold decode_record, bind. intro H.
  destruct (_read_record self infile w) as [[e|r] w1]; [discriminate|].
  inversion H; subst. eauto.
Qed.

(** The two ways a turn goes on in [loops_agree]: the record is passed
    over by both traversals, or decoded by one and counted by the other. *)
Ltac agree_pass IH S1 H :=
  match goal with
  | |- context [iter_loop _ _ _ _ false ?wsn] =>
      let ws' := fresh "ws'" in
      let H1 := fresh "H1" in
      let H2 := fresh "H2" in
      match type of H with
      | iter_loop _ _ _ _ true ?wdn = _ =>
          destruct (IH wdn wsn _ _ (sync_add _ S1) H) as [ws' [H1 H2]]
      end;
      exists ws'; split; [exact H1|];
      simpl in H2 |- *; rewrite H2; reflexivity
  end.

Ltac agree_decode IH S1 H :=
  match type of H with
  | context [decode_record ?self ?f ?w] =>
      let Hd := fresh "Hd" in
      let Hr := fresh "Hr" in
      let Hl := fresh "Hl" in
      let r := fresh "r" in
      destruct (decode_record self f w) as [[?e|?s] ?w2] eqn:Hd;
      [discriminate|];
      apply decode_record_inv in Hd; destruct Hd as [r [-> Hr]];
      match type of H with
      | context [iter_loop ?fuel self f ?d true ?w2] =>
          destruct (iter_loop fuel self f d true w2) as [[?ys0 ?e0] ?w3] eqn:Hl
      end;
      inversion H; subst;
      rewrite count_record_eq;
      match goal with
      | |- context [iter_loop _ _ _ _ false ?wsn] =>
          let ws' := fresh "ws'" in
          let H1 := fresh "H1" in
          let H2 := fresh "H2" in
          let S2 := fresh "S2" in
          match type of Hl with
          | iter_loop _ _ _ _ true ?wdn = _ =>
              assert (S2 : sync f (w_pos wdn) (w_pos wsn))
                by (simpl; eapply read_record_sync; [exact Hr | exact S1]);
              destruct (IH wdn wsn _ _ S2 Hl) as [ws' [H1 H2]]
          end;
          rewrite H1; exists ws'; split; [reflexivity|];
          simpl in H2 |- *; rewrite H2; reflexivity
      end
  end.

(** A decoding traversal that ends normally and the counting traversal
    from a position in step with it: the counting traversal ends
    normally too, yields as often, and that is the number of markers of
    the wanted class. *)
Lemma loops_agree (self : Table) (f : file) (deleted : bool) :
  forall (fuel : nat) (wd ws : world) (ys : list (option Rec)) (wd' : world),
    sync f (w_pos wd) (w_pos ws) ->
    iter_loop fuel self f deleted true wd = ((ys, None), wd') ->
    exists ws',
      iter_loop fuel self f deleted false ws
        = ((repeat None (length ys), None), ws') /\
      length ys =
        count_byte (wanted_marker deleted)
          (marker_bytes fuel f (w_pos ws) (N.to_nat (record_size (fields self)))).
Proof.
  induction fuel as [|fuel IH]; intros wd ws ys wd' S H.
  { simpl in H. discriminate. }
  cbn [iter_loop marker_bytes] in *.
  rewrite iter_step_eq in *. unfold peek in *.
  rewrite (sync_peek S) in H.
  destruct (nth_error f (w_pos ws)) as [b|] eqn:Hb.
  2:{ inversion H; subst. eexists. split; reflexivity. }
  assert (S1 : sync f (w_pos (after_marker wd [b])) (w_pos (after_marker ws [b]))).
  { simpl. now apply sync_add. }
  destruct (Byte.eqb b x1a) eqn:E1a.
  { inversion H; subst. eexists. split; reflexivity. }
  rewrite count_byte_cons.
  destruct (Byte.eqb b x20) eqn:E20.
  { apply byte_eqb_eq in E20. subst b. destruct deleted.
    - rewrite pass_record_eq in *. agree_pass IH S1 H.
    - agree_decode IH S1 H. }
  destruct (Byte.eqb b x2a) eqn:E2a.
  { apply byte_eqb_eq in E2a. subst b. destruct deleted.
    - agree_decode IH S1 H.
    - rewrite pass_record_eq in *. agree_pass IH S1 H. }
  discriminate.
Qed.

(** [load] and [unload] change nothing that a traversal looks at. *)
Lemma read_items_set_records (self : Table) (a b : records_attr) (l : bool)
    (f : file) (flds : list DBFField) (w : world) :
  read_items (set_records self a b l) f flds w = read_items self f flds w.
Proof.
  revert w. induction flds as [|field rest IH]; intro w; [reflexivity|].
  cbn [read_items]. unfold bind.
  change (read_field (set_records self a b l) f field w)
    with (read_field self f field w).
  destruct (read_field self f field w) as [[e|v] w1]; [reflexivity|].
  now rewrite IH.
Qed.

Lemma iter_step_set_records (self : Table) (a b : records_attr) (l : bool)
    (f : file) (deleted read : bool) (w : world) :
  iter_step (set_records self a b l) f deleted read w
    = iter_step self f deleted read w.
Proof.
  rewrite !iter_step_eq.
  assert (D : forall w1, decode_record (set_records self a b l) f w1
                         = decode_record self f w1).
  { intro w1. unfold decode_record, _read_record, bind.
    change (fields (set_records self a b l)) with (fields self).
    rewrite read_items_set_records. reflexivity. }
  destruct (peek f w) as [x|]; [|reflexivity].
  change (pass_record (set_records self a b l) f) with (pass_record self f).
  change (count_record (set_records self a b l) f) with (count_record self f).
  destruct (Byte.eqb x x1a), (Byte.eqb x x20), (Byte.eqb x x2a), deleted, read;
    try reflexivity; apply D.
Qed.

Lemma iter_loop_set_records (self : Table) (a b : records_attr) (l : bool)
    (f : file) (deleted read : bool) (fuel : nat) (w : world) :
  iter_loop fuel (set_records self a b l) f deleted read w
    = iter_loop fuel self f deleted read w.
Proof.
  revert w. induction fuel as [|fuel IH]; intro w; [reflexivity|].
  cbn [iter_loop]. rewrite iter_step_set_records.
  destruct (iter_step self f deleted read w) as [[e|[|v|]] w1];
    try reflexivity; now rewrite IH.
Qed.

Lemma iter_records_set_records (self : Table) (a b : records_attr) (l : bool)
    (deleted read : bool) (w : world) :
  _iter_records (set_records self a b l) deleted read w
    = _iter_records self deleted read w.
Proof.
  unfold _iter_records.
  change (filename (set_records self a b l)) with (filename self).
  change (header (set_records self a b l)) with (header self).
  destruct (fs (filename self)); [|reflexivity].
  destruct (header self); [|reflexivity].
  apply iter_loop_set_records.
Qed.

(** The counting traversal of a class ends normally wherever the
    decoding traversal of that class does, and yields as often. *)
Lemma count_traversal_agrees (self : Table) (deleted : bool) (w w' : world)
    (ys : list (option Rec)) :
  _iter_records self deleted true w = ((ys, None), w') ->
  forall ws, exists ws',
    _iter_records self deleted false ws
      = ((repeat None (length ys), None), ws') /\
    forall data, fs (filename self) = Some data ->
      length ys = count_byte (wanted_marker deleted) (table_markers self data).
Proof.
  intros H ws. unfold _iter_records, table_markers in *.
  destruct (fs (filename self)) as [f|]; [|discriminate].
  destruct (header self) as [hdr|]; [|discriminate].
  eapply loops_agree
    with (ws := snd (f_seek (headerlen hdr) SEEK_SET (opened ws (filename self))))
    in H; [|apply sync_refl].
  destruct H as [ws' [H1 H2]]. exists ws'. split; [exact H1|].
  intros data E. inversion E; subst. exact H2.
Qed.

Lemma len_of_count_traversal (self : Table) (deleted : bool) (ws ws' : world)
    (n : nat) :
  _iter_records self deleted false ws = ((repeat None n, None), ws') ->
  RecordIterator___len__ self (mkRecordIterator deleted) ws = (inr n, ws').
Proof.
  intro H. unfold RecordIterator___len__, bind, gen_list. cbn [_deleted].
  rewrite H. unfold ret. now rewrite repeat_length.
Qed.

(** ** A traversal does not depend on what happened before it *)

Lemma pos_det_ret {A : Type} (a : A) : pos_det (ret a).
Proof. intros w1 w2 E. now split. Qed.

Lemma pos_det_raise {A : Type} (e : exn) : pos_det (@raise A e).
Proof. intros w1 w2 E. now split. Qed.

Lemma pos_det_lift {A : Type} (r : result A) : pos_det (lift r).
Proof. intros w1 w2 E. now split. Qed.

Lemma pos_det_bind {A B : Type} (m : M A) (k : A -> M B) :
  pos_det m -> (forall a, pos_det (k a)) -> pos_det (bind m k).
Proof.
  intros Hm Hk w1 w2 E. unfold bind. destruct (Hm w1 w2 E) as [F P].
  destruct (m w1) as [[e1|a1] w1'], (m w2) as [[e2|a2] w2'];
    simpl in F, P; inversion F; subst.
  - now split.
  - now apply Hk.
Qed.

Lemma pos_det_f_read (f : file) (n : nat) : pos_det (f_read f n).
Proof. intros w1 w2 E. unfold f_read. simpl. rewrite E. now split. Qed.

Lemma pos_det_f_seek (offset : N) (wh : whence) : pos_det (f_seek offset wh).
Proof. intros w1 w2 E. unfold f_seek. simpl. rewrite E. now split. Qed.

Lemma pos_det_call_parse (self : Table) (field : DBFField) (value : bytes) :
  pos_det (call_parse self field value).
Proof.
  unfold call_parse. destruct (_field_parser self); intros w1 w2 E; now split.
Qed.

Lemma pos_det_memofile_getitem (self : Table) (value : pyval) :
  pos_det (memofile_getitem self value).
Proof.
  unfold memofile_getitem. destruct (memofile self); intros w1 w2 E; now split.
Qed.

Ltac pos_det_step :=
  match goal with
  | |- pos_det (bind _ _) => apply pos_det_bind; [|intro]
  | |- pos_det (ret _) => apply pos_det_ret
  | |- pos_det (raise _) => apply pos_det_raise
  | |- pos_det (lift _) => apply pos_det_lift
  | |- pos_det (f_read _ _) => apply pos_det_f_read
  | |- pos_det (f_seek _ _) => apply pos_det_f_seek
  | |- pos_det (call_parse _ _ _) => apply pos_det_call_parse
  | |- pos_det (memofile_getitem _ _) => apply pos_det_memofile_getitem
  | |- pos_det (if ?c then _ else _) => destruct c
  | |- pos_det (match ?v with PyNone => _ | _ => _ end) => destruct v
  end.

Lemma pos_det_read_field (self : Table) (f : file) (field : DBFField) :
  pos_det (read_field self f field).
Proof. unfold read_field. repeat pos_det_step. Qed.

Lemma pos_det_read_items (self : Table) (f : file) (flds : list DBFField) :
  pos_det (read_items self f flds).
Proof.
  induction flds as [|field rest IH]; cbn [read_items].
  - apply pos_det_ret.
  - repeat (pos_det_step || apply pos_det_read_field || apply IH).
Qed.

Lemma pos_det_iter_step (self : Table) (f : file) (deleted read : bool) :
  pos_det (iter_step self f deleted read).
Proof.
  unfold iter_step, _read_record, _skip_record.
  repeat (pos_det_step || apply pos_det_read_items).
Qed.

Lemma pos_det_iter_loop (self : Table) (f : file) (deleted read : bool)
    (fuel : nat) :
  pos_det (iter_loop fuel self f deleted read).
Proof.
  induction fuel as [|fuel IH]; intros w1 w2 E; cbn [iter_loop].
  - now split.
  - destruct (pos_det_iter_step self f deleted read w1 w2 E) as [F P].
    destruct (iter_step self f deleted read w1) as [[e1|s1] w1'],
      (iter_step self f deleted read w2) as [[e2|s2] w2'];
      simpl in F, P; inversion F; subst.
    + now split.
    + destruct s2 as [|v|].
      * now split.
      * destruct (IH w1' w2' P) as [F' P'].
        destruct (iter_loop fuel self f deleted read w1') as [[ys1 o1] u1],
          (iter_loop fuel self f deleted read w2') as [[ys2 o2] u2].
        simpl in F', P' |- *. inversion F'; subst. now split.
      * now apply IH.
Qed.

(** The values a traversal yields and the way it ends are the same from
    any world: it opens the file anew and seeks to the first record. *)
Lemma iter_records_any_world (self : Table) (deleted read : bool) (w1 w2 : world) :
  fst (_iter_records self deleted read w1) = fst (_iter_records self deleted read w2).
Proof.
  unfold _iter_records.
  destruct (fs (filename self)); [|reflexivity].
  destruct (header self); [|reflexivity].
  now apply pos_det_iter_loop.
Qed.

(** ** Loaded and unloaded tables *)

Lemma list_RecordIterator_inv (self : Table) (it : RecordIterator) (w : world)
    (l : list (option Rec)) (w' : world) :
  list_RecordIterator self it w = (inr l, w') ->
  exists wa, _iter_records self (_deleted it) true wa = ((l, None), w').
Proof.
  unfold list_RecordIterator, bind at 1. intro H.
  destruct (RecordIterator___len__ self it w) as [[e|n] wa]; [discriminate|].
  exists wa. unfold gen_list, RecordIterator___iter__ in H.
  destruct (_iter_records self (_deleted it) true wa) as [[ys [e|]] wb];
    [discriminate|].
  now inversion H.
Qed.

Lemma load_inv (self : Table) (w : world) (t : Table) (w' : world) :
  load self w = (inr t, w') ->
  exists recs dels wa wa' wb,
    t = set_records self (AttrList recs) (AttrList dels) true /\
    _iter_records self false true wa = ((recs, None), wa') /\
    _iter_records self true true wb = ((dels, None), w').
Proof.
  unfold load, bind at 1. intro H.
  destruct (list_RecordIterator self (mkRecordIterator false) w)
    as [[e|recs] w1] eqn:H1; [discriminate|].
  unfold bind at 1 in H.
  destruct (list_RecordIterator self (mkRecordIterator true) w1)
    as [[e|dels] w2] eqn:H2; [discriminate|].
  inversion H; subst.
  apply list_RecordIterator_inv in H1. destruct H1 as [wa H1].
  apply list_RecordIterator_inv in H2. destruct H2 as [wb H2].
  exists recs, dels, wa, w1, wb. auto.
Qed.

(** Iterating an unloaded table is the decoding traversal of its class. *)
Lemma unloaded_iteration (self : Table) (a b : records_attr) (l : bool) (w : world) :
  Table___iter__ (unload (set_records self a b l)) w
    = _iter_records self false true w /\
  iterate_deleted (unload (set_records self a b l)) w
    = _iter_records self true true w.
Proof.
  unfold Table___iter__, iterate_deleted, unload, iter_attr,
    RecordIterator___iter__.
  cbn [records deleted set_records _deleted].
  now rewrite !iter_records_set_records.
Qed.

Lemma unloaded_iteration_self (self : Table) (w : world) :
  Table___iter__ (unload self) w = _iter_records self false true w /\
  iterate_deleted (unload self) w = _iter_records self true true w.
Proof.
  unfold Table___iter__, iterate_deleted, unload, iter_attr,
    RecordIterator___iter__.
  cbn [records deleted set_records _deleted].
  now rewrite !iter_records_set_records.
Qed.

Lemma load_then_unloaded (self : Table) (w w' : world) (t : Table) :
  load self w = (inr t, w') ->
  exists recs dels : list (option Rec),
    records t = Some (AttrList recs) /\
    deleted t = AttrList dels /\
    forall w2 : world,
      fst (Table___iter__ (unload self) w2) = (recs, None) /\
      fst (iterate_deleted (unload self) w2) = (dels, None) /\
      fst (Table___iter__ (unload t) w2) = (recs, None) /\
      fst (iterate_deleted (unload t) w2) = (dels, None) /\
      Table___iter__ t w2 = ((recs, None), w2) /\
      iterate_deleted t w2 = ((dels, None), w2).
Proof.
  intro H. apply load_inv in H.
  destruct H as [recs [dels [wa [wa' [wb [-> [Hr Hd]]]]]]].
  exists recs, dels. split; [reflexivity|]. split; [reflexivity|].
  intro w2.
  destruct (unloaded_iteration_self self w2) as [U1 U2].
  destruct (unloaded_iteration self (AttrList recs) (AttrList dels) true w2)
    as [V1 V2].
  rewrite U1, U2, V1, V2.
  rewrite (iter_records_any_world self false true w2 wa), Hr.
  rewrite (iter_records_any_world self true true w2 wb), Hd.
  repeat split; reflexivity.
Qed.

Lemma list_RecordIterator_ok (self : Table) (deleted : bool) (w0 : world)
    (ys : list (option Rec)) :
  fst (_iter_records self deleted true w0) = (ys, None) ->
  forall w, exists w',
    list_RecordIterator self (mkRecordIterator deleted) w = (inr ys, w').
Proof.
  intros H w.
  destruct (_iter_records self deleted true w0) as [r w0'] eqn:H0.
  simpl in H. subst r.
  pose proof H0 as HC. eapply count_traversal_agrees with (ws := w) in HC.
  destruct HC as [wa [L _]].
  apply len_of_count_traversal in L.
  unfold list_RecordIterator, bind. rewrite L.
  unfold gen_list, RecordIterator___iter__. cbn [_deleted].
  pose proof (iter_records_any_world self deleted true wa w0) as E.
  rewrite H0 in E. simpl in E.
  destruct (_iter_records self deleted true wa) as [[ys' o] wb].
  simpl in E. inversion E; subst. eexists. reflexivity.
Qed.

Lemma unloaded_then_load (self : Table) (w0 w1 : world)
    (recs dels : list (option Rec)) :
  fst (Table___iter__ (unload self) w0) = (recs, None) ->
  fst (iterate_deleted (unload self) w1) = (dels, None) ->
  forall w, exists w',
    load self w = (inr (set_records self (AttrList recs) (AttrList dels) true), w').
Proof.
  intros Hr Hd w.
  destruct (unloaded_iteration_self self w0) as [U1 _].
  destruct (unloaded_iteration_self self w1) as [_ U2].
  rewrite U1 in Hr. rewrite U2 in Hd.
  eapply list_RecordIterator_ok with (w := w) in Hr. destruct Hr as [wa La].
  eapply list_RecordIterator_ok with (w := wa) in Hd. destruct Hd as [wb Lb].
  exists wb. unfold load, bind. now rewrite La, Lb.
Qed.

(** C2.  Loaded and unloaded iteration agree for both classes of
    records.  When [load()] succeeds, the lists it has put into the
    table, active and deleted, are the very sequences that iterating the
    table in unloaded mode yields, in the same order, from any state of
    the world, and iterating the loaded table yields them again and
    touches no file.  And when iterating the unloaded table ends normally
    for both classes, [load()] succeeds and stores what was yielded. *)
Theorem loaded_equals_unloaded (self : Table) :
  (forall (w w' : world) (t : Table),
     load self w = (inr t, w') ->
     exists recs dels : list (option Rec),
       records t = Some (AttrList recs) /\
       deleted t = AttrList dels /\
       forall w2 : world,
         fst (Table___iter__ (unload self) w2) = (recs, None) /\
         fst (iterate_deleted (unload self) w2) = (dels, None) /\
         fst (Table___iter__ (unload t) w2) = (recs, None) /\
         fst (iterate_deleted (unload t) w2) = (dels, None) /\
         Table___iter__ t w2 = ((recs, None), w2) /\
         iterate_deleted t w2 = ((dels, None), w2)) /\
  (forall (w0 w1 : world) (recs dels : list (option Rec)),
     fst (Table___iter__ (unload self) w0) = (recs, None) ->
     fst (iterate_deleted (unload self) w1) = (dels, None) ->
     forall w, exists t w',
       load self w = (inr t, w') /\
       records t = Some (AttrList recs) /\
       deleted t = AttrList dels /\
       Table___iter__ t w = ((recs, None), w) /\
       iterate_deleted t w = ((dels, None), w)).
Proof.
  split.
  - intros w w' t. apply load_then_unloaded.
  - intros w0 w1 recs dels Hr Hd w.
    pose proof (fun w => @unloaded_then_load self w0 w1 recs dels Hr Hd w) as HL.
    destruct (HL w) as [w' L].
    eexists. exists w'. split; [exact L|]. repeat split; reflexivity.
Qed.

(** ** Raw mode *)

Lemma read_field_raw (self : Table) (f : file) (field : DBFField) (w : world) :
  raw self = true ->
  read_field self f field w =
    (let got := firstn (N.to_nat (f_length field)) (skipn (w_pos w) f) in
     (inr (PyBytes got),
      mkworld (w_pos w + length got)
        (w_log w ++ [EvRead (N.to_nat (f_length field)) got]))).
Proof.
  intro R. unfold read_field, bind, f_read. now rewrite R.
Qed.

Lemma read_items_raw (self : Table) (f : file) (flds : list DBFField) :
  raw self = true ->
  forall (w : world) (p : nat),
    sync f (w_pos w) p ->
    exists w',
      read_items self f flds w = (inr (slot_items f p flds), w') /\
      only_reads w w'.
Proof.
  intro R. induction flds as [|field rest IH]; intros w p S.
  - exists w. split; [reflexivity | apply only_events_refl].
  - cbn [read_items slot_items]. unfold bind at 1.
    rewrite read_field_raw by exact R. cbv zeta.
    set (got := firstn (N.to_nat (f_length field)) (skipn (w_pos w) f)).
    set (w1 := mkworld (w_pos w + length got)
                 (w_log w ++ [EvRead (N.to_nat (f_length field)) got])).
    destruct (IH w1 (p + N.to_nat (f_length field))) as [w' [H O]].
    { simpl. now apply sync_read. }
    exists w'. unfold bind. rewrite H. split.
    + unfold ret. subst got.
      now rewrite (@sync_slice f (w_pos w) p (N.to_nat (f_length field)) S).
    + eapply only_events_trans; [|exact O].
      exists [EvRead (N.to_nat (f_length field)) got]. now split.
Qed.

Lemma read_record_raw (self : Table) (f : file) (w : world) :
  raw self = true ->
  exists w',
    _read_record self f w
      = (inr (recfactory self (slot_items f (w_pos w) (fields self))), w') /\
    only_reads w w'.
Proof.
  intro R.
  destruct (@read_items_raw self f (fields self) R w (w_pos w) (sync_refl f _))
    as [w' [H O]].
  exists w'. split; [|exact O]. unfold _read_record, bind. now rewrite H.
Qed.

Lemma slot_items_bounded (f : bytes) (flds : list DBFField) :
  forall p,
    Forall2
      (fun field item =>
         exists n, n <= N.to_nat (f_length field) /\ raw_value_of field n item)
      flds (slot_items f p flds).
Proof.
  induction flds as [|field rest IH]; intro p; cbn [slot_items]; constructor.
  - eexists. split; [|split; [reflexivity | eexists; split; reflexivity]].
    rewrite slice_length. lia.
  - apply IH.
Qed.

Lemma slot_items_full (f : bytes) (flds : list DBFField) :
  forall p,
    p + N.to_nat (record_size flds) <= length f ->
    Forall2 (fun field item => raw_value_of field (N.to_nat (f_length field)) item)
      flds (slot_items f p flds).
Proof.
  induction flds as [|field rest IH]; intros p H; cbn [slot_items]; constructor.
  - rewrite record_size_cons in H.
    split; [reflexivity|]. eexists. split; [reflexivity|].
    rewrite slice_length. lia.
  - apply IH. rewrite record_size_cons in H. lia.
Qed.

(** The item of the [i]-th field is the run of bytes in its slot, which
    starts where the slots of the fields before it end. *)
Lemma slot_items_nth (f : bytes) (flds : list DBFField) :
  forall (p i : nat) (field : DBFField),
    nth_error flds i = Some field ->
    nth_error (slot_items f p flds) i =
      Some (mkFieldValue (f_name field)
              (PyBytes (firstn (N.to_nat (f_length field))
                          (skipn (p + N.to_nat (record_size (firstn i flds)))
                             f)))).
Proof.
  induction flds as [|g rest IH]; intros p [|i] field H; try discriminate.
  - inversion H; subst. cbn [slot_items nth_error firstn record_size fold_right].
    change (N.to_nat 0) with 0. now rewrite Nat.add_0_r.
  - cbn [nth_error] in H. cbn [slot_items nth_error firstn].
    rewrite (IH _ _ _ H), record_size_cons.
    now rewrite Nat.add_assoc.
Qed.

(** C8, as the code has it.  In raw mode the record is built from the
    values of [slot_items]: each field's value is the unmodified run of
    bytes of the file in the field's slot, and the file is only read (the
    field parser and the memo file are not called).  The value is never
    longer than the field is declared, and has the declared length when
    the record lies within the file.  Field by field: the slot starts
    where the slots of the fields before it end, and the length of the
    value is the smaller of the declared length and the number of bytes
    that the file holds from the start of the slot on; so it is the
    declared length exactly when the file holds that many bytes from
    there on, and shorter exactly when it holds fewer. *)
Theorem raw_record_is_slot_bytes (self : Table) (f : file) (w : world) :
  raw self = true ->
  exists w',
    _read_record self f w
      = (inr (recfactory self (slot_items f (w_pos w) (fields self))), w') /\
    only_reads w w' /\
    Forall2
      (fun field item =>
         exists n, n <= N.to_nat (f_length field) /\ raw_value_of field n item)
      (fields self) (slot_items f (w_pos w) (fields self)) /\
    (w_pos w + N.to_nat (record_size (fields self)) <= length f ->
     Forall2
       (fun field item => raw_value_of field (N.to_nat (f_length field)) item)
       (fields self) (slot_items f (w_pos w) (fields self))) /\
    (forall (i : nat) (field : DBFField),
       nth_error (fields self) i = Some field ->
       let n := N.to_nat (f_length field) in
       let start :=
         w_pos w + N.to_nat (record_size (firstn i (fields self))) in
       let value := firstn n (skipn start f) in
       nth_error (slot_items f (w_pos w) (fields self)) i
         = Some (mkFieldValue (f_name field) (PyBytes value)) /\
       length value = Nat.min n (length f - start) /\
       (length value = n <-> n <= length f - start) /\
       (length value < n <-> length f - start < n)).
Proof.
  intro R. destruct (@read_record_raw self f w R) as [w' [H O]].
  exists w'. split; [exact H|]. split; [exact O|]. split; [|split].
  - apply slot_items_bounded.
  - apply slot_items_full.
  - intros i field Hi. cbv zeta.
    split; [now apply slot_items_nth|].
    rewrite slice_length. lia.
Qed.

(** ** Memo fields *)

(** Decoding a field outside raw mode, step by step. *)
Lemma read_field_parsed (self : Table) (parser : FieldParser) (f : file)
    (field : DBFField) (w : world) :
  raw self = false ->
  _field_parser self = Some parser ->
  read_field self f field w =
    (let data := firstn (N.to_nat (f_length field)) (skipn (w_pos w) f) in
     let w1 := parsed_world w field data in
     match parse parser field data with
     | inl e => (inl e, w1)
     | inr value =>
         if String.eqb (f_type field) "M" then
           match value with
           | PyNone => (inr (PyStr ""), w1)
           | _ =>
               match memofile self with
               | None => (inl (AttributeError "memofile"), w1)
               | Some mf =>
                   let w2 := log_event (EvMemoGet value) w1 in
                   match getitem mf value with
                   | inl e => (inl e, w2)
                   | inr memo =>
                       if String.eqb (memo_type memo) "memo" then
                         match parse_string (memo_data memo) (encoding self) with
                         | inl e => (inl e, w2)
                         | inr text => (inr (PyStr text), w2)
                         end
                       else (inr (PyBytes (memo_data memo)), w2)
                   end
               end
           end
         else (inr value, w1)
     end).
Proof.
  intros R P.
  unfold read_field, bind, f_read, call_parse, memofile_getitem, lift, ret, raise,
    parsed_world.
  rewrite R, P. cbv zeta.
  destruct (parse parser field _) as [e|value]; [reflexivity|].
  destruct (String.eqb (f_type field) "M"); [|reflexivity].
  destruct (memofile self) as [mf|].
  - destruct value; try reflexivity;
      (destruct (getitem mf _) as [e|memo]; [reflexivity|];
       rewrite andb_true_r;
       destruct (String.eqb (memo_type memo) "memo"); [|reflexivity];
       destruct (parse_string _ _); reflexivity).
  - destruct value; reflexivity.
Qed.


(** ** Raw mode and the memo file *)

Lemma read_headers_keeps (self : Table) (f : file) (w : world)
    (t : Table) (w' : world) :
  _read_headers self f w = (inr t, w') ->
  raw t = raw self /\ memofile t = memofile self /\
  recfactory t = recfactory self /\ parserclass t = parserclass self /\
  filename t = filename self.
Proof.
  unfold _read_headers, bind at 1. intro H.
  destruct (DBFHeader_read f w) as [[e|hdr] w1]; [discriminate|].
  unfold bind at 1 in H.
  destruct (read_field_headers _ _ _ _ _ _ w1) as [[e|[names flds]] w2];
    [discriminate|].
  destruct (length flds <? 1); [discriminate|].
  unfold bind in H.
  match type of H with context [if ?c then _ else _] => destruct c end.
  - match type of H with context [if ?c then _ else _] => destruct c end;
      [|discriminate].
    inversion H; subst. simpl. auto.
  - inversion H; subst. simpl. auto.
Qed.

Lemma read_headers_missing_memo (self : Table) (f : file) (w : world)
    (hdr : DBFHeader) (w1 : world) (names : list string)
    (flds : list DBFField) (w2 : world) :
  DBFHeader_read f w = (inr hdr, w1) ->
  read_field_headers (S (length f)) (resolve_encoding (encoding self) hdr)
    (lowernames self) f (field_names self) (fields self) w1
    = (inr (names, flds), w2) ->
  (exists field, In field flds /\ f_type field = "M"%string) ->
  truthy (ifind (filename self) (Some ".fpt"%string)) = false ->
  _read_headers self f w
    = (inl (IOError_missing_memo_file
              (splitext_root (filename self) ++ ".fpt")%string), w2).
Proof.
  intros Hh Hl [field [Hin Ht]] Hm.
  unfold _read_headers, bind at 1. rewrite Hh.
  unfold bind at 1. rewrite Hl.
  destruct flds as [|g flds]; [contradiction|]. cbn [length Nat.ltb Nat.leb].
  assert (E : existsb (fun field0 => String.eqb "M" (f_type field0)) (g :: flds)
              = true).
  { apply existsb_exists. exists field. split; [exact Hin|].
    rewrite Ht. reflexivity. }
  unfold bind. rewrite E, Hm. reflexivity.
Qed.

Lemma emits_skip_record (self : Table) (f : file) :
  emits is_file_event (_skip_record self f).
Proof.
  intro w. eexists. split; [reflexivity|]. reflexivity.
Qed.

Lemma emits_read_record_raw (self : Table) (f : file) :
  raw self = true -> emits is_file_event (_read_record self f).
Proof.
  intros R w. destruct (@read_record_raw self f w R) as [w' [H O]].
  rewrite H. simpl. eapply only_events_mono; [|exact O].
  intros [] E; (discriminate || reflexivity).
Qed.

(** A traversal that counts, or one that decodes in raw mode, acts on
    the DBF file only. *)
Lemma emits_iter_step (self : Table) (f : file) (deleted read : bool) :
  (read = true -> raw self = true) ->
  emits is_file_event (iter_step self f deleted read).
Proof.
  intro H. unfold iter_step.
  apply emits_bind; [apply emits_f_read; reflexivity|]. intro sep.
  repeat match goal with
         | |- emits _ (if ?c then _ else _) => destruct c
         end;
    repeat (emits_step || apply emits_skip_record
            || (apply emits_read_record_raw; now apply H)).
Qed.

Lemma emits_iter_loop (self : Table) (f : file) (deleted read : bool) (fuel : nat) :
  (read = true -> raw self = true) ->
  emits is_file_event (iter_loop fuel self f deleted read).
Proof.
  intro H. induction fuel as [|fuel IH]; intro w; cbn [iter_loop].
  - apply only_events_refl.
  - pose proof (@emits_iter_step self f deleted read H w) as S.
    destruct (iter_step self f deleted read w) as [[e|[|v|]] w1]; simpl in S;
      try exact S.
    + specialize (IH w1).
      destruct (iter_loop fuel self f deleted read w1) as [[ys o] w2].
      simpl in IH |- *. eapply only_events_trans; eauto.
    + eapply only_events_trans; [exact S | apply IH].
Qed.

Lemma emits_iter_records (self : Table) (deleted read : bool) :
  (read = true -> raw self = true) ->
  emits is_file_event (_iter_records self deleted read).
Proof.
  intros H w. unfold _iter_records.
  destruct (fs (filename self)) as [f|]; [|apply only_events_refl].
  assert (O : only_events is_file_event w (opened w (filename self))).
  { eexists. split; reflexivity. }
  destruct (header self) as [hdr|]; [|exact O].
  eapply only_events_trans; [exact O|].
  eapply only_events_trans; [|apply emits_iter_loop; exact H].
  eexists. split; reflexivity.
Qed.

Lemma emits_list_RecordIterator (self : Table) (it : RecordIterator) :
  raw self = true ->
  emits is_file_event (list_RecordIterator self it).
Proof.
  intro R. unfold list_RecordIterator, RecordIterator___len__,
    RecordIterator___iter__.
  repeat (emits_step || (apply emits_gen_list; apply emits_iter_records; auto)).
Qed.

Lemma emits_load_raw (self : Table) :
  raw self = true -> emits is_file_event (load self).
Proof.
  intro R. unfold load.
  repeat (emits_step || (apply emits_list_RecordIterator; exact R)).
Qed.

Lemma load_keeps (self : Table) (w : world) (t : Table) (w' : world) :
  load self w = (inr t, w') ->
  raw t = raw self /\ memofile t = memofile self /\ fields t = fields self /\
  _field_parser t = _field_parser self.
Proof.
  intro H. apply load_inv in H.
  destruct H as [recs [dels [wa [wa' [wb [-> _]]]]]]. simpl. auto.
Qed.

(** A table built in raw mode. *)
Lemma init_raw
    (filename_arg : string) (encoding_arg : option string)
    (ignorecase_arg lowernames_arg : bool)
    (parserclass_arg : option string -> FieldParser)
    (recfactory_arg : list FieldValue -> Rec) (load_arg : bool)
    (w : world) (t : Table) (w' : world) :
  Table___init__ filename_arg encoding_arg ignorecase_arg lowernames_arg
    parserclass_arg recfactory_arg load_arg true w = (inr t, w') ->
  raw t = true /\ memofile t = None /\ only_events is_file_event w w'.
Proof.
  unfold Table___init__, bind at 1, lift. intro H.
  destruct (resolve_filename filename_arg ignorecase_arg) as [e|fname];
    [discriminate|].
  unfold bind at 1, with_open in H.
  destruct (fs fname) as [f|]; [|discriminate].
  set (self0 := new_table filename_arg encoding_arg ignorecase_arg lowernames_arg
                  parserclass_arg recfactory_arg true fname) in *.
  assert (O0 : only_events is_file_event w (opened w fname)).
  { eexists. split; reflexivity. }
  unfold init_with_file, bind at 1 in H.
  pose proof (@emits__read_headers is_file_event (fun _ _ => eq_refl) self0 f
                (opened w fname)) as O1.
  destruct (_read_headers self0 f (opened w fname)) as [[e|self1] w1] eqn:Hrh;
    [discriminate|].
  simpl in O1.
  destruct (read_headers_keeps _ _ _ Hrh) as [R1 [M1 _]].
  change (raw self0) with true in R1. change (memofile self0) with (@None MemoFile) in M1.
  unfold bind at 1, _check_headers, lift in H.
  destruct (check_fields _ _) as [e|[]]; [discriminate|].
  unfold bind at 1 in H. cbn [header set_field_parser] in H.
  destruct (header self1) as [hdr|]; [|discriminate].
  unfold ret at 1 in H. unfold bind at 1, lift in H.
  destruct (datetime_date _ _ _) as [e|d]; [discriminate|].
  unfold bind at 1 in H. cbn [raw memofilename set_field_parser] in H.
  rewrite R1 in H. rewrite andb_false_r in H. unfold ret at 1 2 in H.
  assert (O2 : only_events is_file_event w w1).
  { eapply only_events_trans; [exact O0 | exact O1]. }
  destruct load_arg.
  - pose proof (@emits_load_raw
                  (set_date_memofile
                     (set_field_parser self1 (parserclass self1 (encoding self1)))
                     d None) R1 w1) as O3.
    rewrite H in O3. simpl in O3.
    apply load_keeps in H. destruct H as [Hr [Hm _]].
    simpl in Hr, Hm. rewrite Hr, Hm.
    split; [exact R1|]. split; [reflexivity|].
    eapply only_events_trans; eauto.
  - unfold ret in H. inversion H; subst. simpl.
    split; [exact R1|]. split; [reflexivity | exact O2].
Qed.

(** C3.  For a table whose decoding traversal of the active records ends
    normally, the length of the lazy record iterator, which only opens,
    reads the markers of and seeks in the file (no field is read or
    parsed), is the number of records that the decoding traversal
    yields, and both are the number of marker bytes of the record area
    that equal 0x20. *)
Theorem active_count_agrees (self : Table) (data : bytes) (w w' : world)
    (ys : list (option Rec)) :
  fs (filename self) = Some data ->
  _iter_records self false true w = ((ys, None), w') ->
  forall ws, exists ws',
    RecordIterator___len__ self (mkRecordIterator false) ws
      = (inr (length ys), ws') /\
    Table___len__ (unload self) ws = (inr (length ys), ws') /\
    only_events is_file_event ws ws' /\
    length ys = count_byte x20 (table_markers self data).
Proof.
  intros Hfs H ws.
  pose proof H as HC. eapply count_traversal_agrees with (ws := ws) in HC.
  destruct HC as [ws' [L1 L2]].
  exists ws'.
  pose proof L1 as R. apply len_of_count_traversal in R.
  split; [exact R|]. split; [|split; [|exact (L2 data Hfs)]].
  - rewrite <- R. unfold Table___len__, unload. cbn [records set_records].
    unfold len_attr, RecordIterator___len__, bind, gen_list. cbn [_deleted].
    now rewrite iter_records_set_records.
  - assert (E : emits is_file_event (_iter_records self false false)).
    { apply emits_iter_records. discriminate. }
    specialize (E ws). now rewrite L1 in E.
Qed.

(** C10.  A table constructed in raw mode has no memo file object: its
    [memofile] is None, and all that its construction did, loading
    included, was to open, read and seek the DBF file.  Each of its
    records is built from the bytes of the fields' slots, memo fields
    included, by reads alone: the memo file is not asked.  Yet, raw mode
    or not, the construction of a table with a field of type 'M' raises
    the missing memo file error when [ifind] finds no memo file. *)
Theorem raw_mode_leaves_memo_unopened
    (filename_arg : string) (encoding_arg : option string)
    (ignorecase_arg lowernames_arg : bool)
    (parserclass_arg : option string -> FieldParser)
    (recfactory_arg : list FieldValue -> Rec) (load_arg : bool) :
  (forall (w : world) (t : Table) (w' : world),
     Table___init__ filename_arg encoding_arg ignorecase_arg lowernames_arg
       parserclass_arg recfactory_arg load_arg true w = (inr t, w') ->
     raw t = true /\ memofile t = None /\
     only_events is_file_event w w' /\
     forall (f : file) (w1 : world), exists w1',
       _read_record t f w1
         = (inr (recfactory t (slot_items f (w_pos w1) (fields t))), w1') /\
       only_reads w1 w1') /\
  (forall (raw_arg : bool) (w : world) (fname : string) (f : file)
     (hdr : DBFHeader) (w1 : world) (names : list string)
     (flds : list DBFField) (w2 : world),
     resolve_filename filename_arg ignorecase_arg = inr fname ->
     fs fname = Some f ->
     DBFHeader_read f (opened w fname) = (inr hdr, w1) ->
     read_field_headers (S (length f)) (resolve_encoding encoding_arg hdr)
       lowernames_arg f [] [] w1 = (inr (names, flds), w2) ->
     (exists field, In field flds /\ f_type field = "M"%string) ->
     truthy (ifind fname (Some ".fpt"%string)) = false ->
     Table___init__ filename_arg encoding_arg ignorecase_arg lowernames_arg
       parserclass_arg recfactory_arg load_arg raw_arg w
       = (inl (IOError_missing_memo_file (splitext_root fname ++ ".fpt")%string),
          w2)).
Proof.
  split.
  - intros w t w' H. apply init_raw in H. destruct H as [R [Mf O]].
    split; [exact R|]. split; [exact Mf|]. split; [exact O|].
    intros f w1. now apply read_record_raw.
  - intros raw_arg w fname f hdr w1 names flds w2 Hres Hfs Hh Hl HM Hi.
    set (self0 := new_table filename_arg encoding_arg ignorecase_arg
                    lowernames_arg parserclass_arg recfactory_arg raw_arg fname).
    assert (Hrh : _read_headers self0 f (opened w fname)
                  = (inl (IOError_missing_memo_file
                            (splitext_root fname ++ ".fpt")%string), w2)).
    { eapply read_headers_missing_memo with (self := self0); eauto. }
    unfold Table___init__, bind at 1, lift. rewrite Hres.
    unfold bind at 1, with_open. rewrite Hfs.
    fold self0. unfold init_with_file, bind at 1. rewrite Hrh. reflexivity.
Qed.

(** ** The loops end: their fuel is enough *)

Section Preserves.

Variable R : world -> world -> Prop.
Hypothesis R_refl : forall w, R w w.
Hypothesis R_trans : forall w1 w2 w3, R w1 w2 -> R w2 w3 -> R w1 w3.

Lemma preserves_ret {A : Type} (a : A) : preserves R (ret a).
Proof. intro w. apply R_refl. Qed.

Lemma preserves_raise {A : Type} (e : exn) : preserves R (@raise A e).
Proof. intro w. apply R_refl. Qed.

Lemma preserves_lift {A : Type} (r : result A) : preserves R (lift r).
Proof. intro w. apply R_refl. Qed.

Lemma preserves_bind {A B : Type} (m : M A) (k : A -> M B) :
  preserves R m -> (forall a, preserves R (k a)) -> preserves R (bind m k).
Proof.
  intros Hm Hk w. unfold bind. specialize (Hm w).
  destruct (m w) as [[e|a] w']; simpl in *; [exact Hm|].
  eapply R_trans; [exact Hm | apply Hk].
Qed.

End Preserves.

Lemma pos_le_refl (w : world) : pos_le w w.
Proof. unfold pos_le. lia. Qed.

Lemma pos_le_trans (w1 w2 w3 : world) : pos_le w1 w2 -> pos_le w2 w3 -> pos_le w1 w3.
Proof. unfold pos_le. lia. Qed.

Lemma pos_le_f_read (f : file) (n : nat) : preserves pos_le (f_read f n).
Proof. intro w. unfold pos_le. simpl. lia. Qed.

Lemma pos_le_skip_record (self : Table) (f : file) :
  preserves pos_le (_skip_record self f).
Proof. intro w. unfold pos_le. simpl. lia. Qed.

Lemma pos_le_keeps {X : Type} (m : world -> X * world) :
  keeps_pos m -> preserves pos_le m.
Proof. intros K w. unfold pos_le. rewrite K. lia. Qed.

Lemma pos_le_ret {A : Type} (a : A) : preserves pos_le (ret a).
Proof. apply preserves_ret. exact pos_le_refl. Qed.

Lemma pos_le_raise {A : Type} (e : exn) : preserves pos_le (@raise A e).
Proof. apply preserves_raise. exact pos_le_refl. Qed.

Lemma pos_le_lift {A : Type} (r : result A) : preserves pos_le (lift r).
Proof. apply preserves_lift. exact pos_le_refl. Qed.

Lemma pos_le_bind {A B : Type} (m : M A) (k : A -> M B) :
  preserves pos_le m -> (forall a, preserves pos_le (k a)) ->
  preserves pos_le (bind m k).
Proof. apply preserves_bind; first [exact pos_le_refl | exact pos_le_trans]. Qed.

Ltac pos_le_step :=
  match goal with
  | |- preserves pos_le (bind _ _) => apply pos_le_bind; [|intro]
  | |- preserves pos_le (ret _) => apply pos_le_ret
  | |- preserves pos_le (raise _) => apply pos_le_raise
  | |- preserves pos_le (lift _) => apply pos_le_lift
  | |- preserves pos_le (f_read _ _) => apply pos_le_f_read
  | |- preserves pos_le (_skip_record _ _) => apply pos_le_skip_record
  | |- preserves pos_le (call_parse _ _ _) =>
      apply pos_le_keeps; apply keeps_pos_call_parse
  | |- preserves pos_le (memofile_getitem _ _) =>
      apply pos_le_keeps; apply keeps_pos_memofile_getitem
  | |- preserves pos_le (if ?c then _ else _) => destruct c
  | |- preserves pos_le (match ?c with Some _ => _ | None => _ end) => destruct c
  | |- preserves pos_le (match ?v with PyNone => _ | _ => _ end) => destruct v
  end.

Lemma pos_le_read_items (self : Table) (f : file) (flds : list DBFField) :
  preserves pos_le (read_items self f flds).
Proof.
  induction flds as [|field rest IH]; cbn [read_items].
  - apply pos_le_ret.
  - unfold read_field. repeat (pos_le_step || apply IH).
Qed.

Lemma pos_le_DBFField_read (f : file) (p : bytes) :
  preserves pos_le (DBFField_read f p).
Proof.
  unfold DBFField_read, StructParser_read. repeat pos_le_step.
Qed.

(** A turn that does not end the traversal has read a marker byte and
    left the position beyond it. *)
Lemma iter_step_progress (self : Table) (f : file) (deleted read : bool)
    (w : world) (s : step_result Rec) (w1 : world) :
  iter_step self f deleted read w = (inr s, w1) ->
  s <> StepReturn ->
  w_pos w < length f /\ w_pos w < w_pos w1.
Proof.
  rewrite iter_step_eq. unfold peek. intros H N.
  destruct (nth_error f (w_pos w)) as [b|] eqn:Hb.
  2:{ inversion H; subst. contradiction. }
  assert (Hlt : w_pos w < length f).
  { apply nth_error_Some. congruence. }
  split; [exact Hlt|].
  assert (P : forall (m : M (step_result Rec)),
             preserves pos_le m ->
             m (after_marker w [b]) = (inr s, w1) -> w_pos w < w_pos w1).
  { intros m Hm E. specialize (Hm (after_marker w [b])). rewrite E in Hm.
    unfold pos_le in Hm. simpl in Hm. lia. }
  assert (Pp : preserves pos_le (pass_record self f)).
  { unfold pass_record. repeat pos_le_step. }
  assert (Pc : preserves pos_le (count_record self f)).
  { unfold count_record. repeat pos_le_step. }
  assert (Pd : preserves pos_le (decode_record self f)).
  { unfold decode_record, _read_record.
    repeat (pos_le_step || apply pos_le_read_items). }
  destruct (Byte.eqb b x1a).
  { inversion H; subst. contradiction. }
  destruct (Byte.eqb b x20).
  { destruct deleted; [|destruct read]; (eapply P; [|exact H]; assumption). }
  destruct (Byte.eqb b x2a).
  { destruct deleted; [destruct read|]; (eapply P; [|exact H]; assumption). }
  discriminate.
Qed.

(** More fuel than bytes left is as good as any amount of fuel: the
    result of the loop of [_iter_records] is its result however long it
    is let run. *)
Lemma iter_loop_fuel_enough (self : Table) (f : file) (deleted read : bool) :
  forall (n k : nat) (w : world),
    length f - w_pos w < n ->
    iter_loop (n + k) self f deleted read w = iter_loop n self f deleted read w.
Proof.
  induction n as [|n IH]; intros k w H; [lia|].
  cbn [Nat.add iter_loop].
  destruct (iter_step self f deleted read w) as [[e|s] w1] eqn:Hs; [reflexivity|].
  destruct s as [|v|]; [reflexivity| |].
  - apply iter_step_progress in Hs; [|discriminate]. destruct Hs as [H1 H2].
    rewrite IH by lia. reflexivity.
  - apply iter_step_progress in Hs; [|discriminate]. destruct Hs as [H1 H2].
    apply IH. lia.
Qed.

(** ** The loop over the field headers, one turn at a time *)

Lemma read_field_headers_turn (fuel : nat) (enc : option string) (lower : bool)
    (f : file) (names : list string) (flds : list DBFField) (w : world) :
  read_field_headers (S fuel) enc lower f names flds w =
    match peek f w with
    | Some b =>
        if Byte.eqb b x0d then (inr (names, flds), after_marker w [b])
        else next_descriptor enc lower f names flds [b]
               (read_field_headers fuel enc lower f) (after_marker w [b])
    | None =>
        next_descriptor enc lower f names flds []
          (read_field_headers fuel enc lower f) (after_marker w [])
    end.
Proof.
  cbn [read_field_headers]. unfold bind at 1, f_read, peek, after_marker.
  rewrite read1_peek.
  destruct (nth_error f (w_pos w)) as [b|].
  - unfold py_in. cbn [existsb py_eq]. rewrite bytes_eqb_single, !orb_false_r.
    destruct (Byte.eqb b x0d); reflexivity.
  - reflexivity.
Qed.

(** With [sep] in front, the descriptor is unpacked from [sep] and the
    bytes of one read that makes up the 32. *)
Lemma DBFField_read_prepends (f : file) (sep : bytes) (w : world) :
  StructParser_read DBFField_format f (Some sep) w =
    (let rest := firstn (32 - length sep) (skipn (w_pos w) f) in
     let w1 := mkworld (w_pos w + length rest)
                 (w_log w ++ [EvRead (32 - length sep) rest]) in
     match struct_unpack DBFField_format (sep ++ rest) with
     | Some vs => (inr vs, w1)
     | None => (inl (struct_error (length (sep ++ rest))), w1)
     end).
Proof.
  unfold StructParser_read, bind, f_read, ret. cbv zeta.
  change (calcsize DBFField_format) with 32.
  destruct (struct_unpack DBFField_format _); reflexivity.
Qed.

(** Where the stream is exhausted the loop is not left: the code goes on
    to read a descriptor with nothing in front, and that read fails. *)
Lemma next_descriptor_at_eof (enc : option string) (lower : bool) (f : file)
    (names : list string) (flds : list DBFField)
    (loop : list string -> list DBFField -> M (list string * list DBFField))
    (w : world) :
  length f <= w_pos w ->
  next_descriptor enc lower f names flds [] loop w =
    (inl (struct_error 0), mkworld (w_pos w) (w_log w ++ [EvRead 32 []])).
Proof.
  intro H. unfold next_descriptor, bind at 1, DBFField_read, bind at 1.
  rewrite DBFField_read_prepends. cbv zeta.
  rewrite (skipn_all2 f H). rewrite firstn_nil. cbn [app length].
  change (struct_unpack DBFField_format []) with (@None (list sval)).
  now rewrite Nat.add_0_r.
Qed.

Lemma header_loop_at_eof (fuel : nat) (enc : option string) (lower : bool)
    (f : file) (names : list string) (flds : list DBFField) (w : world) :
  peek f w = None ->
  read_field_headers (S fuel) enc lower f names flds w =
    (inl (struct_error 0),
     mkworld (w_pos w) (w_log w ++ [EvRead 1 []; EvRead 32 []])).
Proof.
  intro H. rewrite read_field_headers_turn, H.
  rewrite next_descriptor_at_eof.
  - unfold after_marker. cbn [w_pos w_log length].
    now rewrite Nat.add_0_r, <- app_assoc.
  - unfold after_marker. cbn [w_pos length]. rewrite Nat.add_0_r.
    now apply nth_error_None.
Qed.

Lemma read_field_headers_fuel_enough (enc : option string) (lower : bool)
    (f : file) :
  forall (n k : nat) (names : list string) (flds : list DBFField) (w : world),
    length f - w_pos w < n ->
    read_field_headers (n + k) enc lower f names flds w
      = read_field_headers n enc lower f names flds w.
Proof.
  induction n as [|n IH]; intros k names flds w H; [lia|].
  cbn [Nat.add]. rewrite !read_field_headers_turn.
  destruct (peek f w) as [b|] eqn:Hb.
  - destruct (Byte.eqb b x0d); [reflexivity|].
    assert (Hlt : w_pos w < length f).
    { apply nth_error_Some. unfold peek in Hb. congruence. }
    unfold next_descriptor, bind at 1 4.
    pose proof (pos_le_DBFField_read f [b] (after_marker w [b])) as P.
    destruct (DBFField_read f [b] (after_marker w [b])) as [[e|fh] w2];
      [reflexivity|].
    unfold pos_le in P. simpl in P.
    unfold bind at 1 3, lift.
    destruct (parse_string (f_name fh) enc) as [e|fieldname]; [reflexivity|].
    unfold bind.
    destruct (parse_string (f_type fh) enc) as [e|fieldtype]; [reflexivity|].
    apply IH. lia.
  - rewrite !next_descriptor_at_eof; try reflexivity;
      unfold after_marker; cbn [w_pos length]; rewrite Nat.add_0_r;
      now apply nth_error_None.
Qed.

(** The fuel that [_iter_records] and [_read_headers] give their loops is
    enough wherever the loop starts. *)
Lemma iter_records_fuel (self : Table) (f : file) (deleted read : bool)
    (k : nat) (w : world) :
  iter_loop (S (length f) + k) self f deleted read w
    = iter_loop (S (length f)) self f deleted read w.
Proof. apply iter_loop_fuel_enough. lia. Qed.

(** The loop over the field headers always ends: its result is reached
    within length(file) + 1 turns, and is the same however many more
    turns the loop is allowed. *)
Lemma read_headers_fuel (enc : option string) (lower : bool) (f : file)
    (k : nat) (names : list string) (flds : list DBFField) (w : world) :
  read_field_headers (S (length f) + k) enc lower f names flds w
    = read_field_headers (S (length f)) enc lower f names flds w.
Proof. apply read_field_headers_fuel_enough. lia. Qed.

(** What the loop over the field headers does at a descriptor boundary.
    It reads one byte.  The byte 0x0D ends the field headers.  Any other
    byte, 0x0A included, is put in front of the 31 bytes read next, and
    the 32 are unpacked as the next descriptor.  Where the stream is
    exhausted the read returns [b''], which equals none of [b'\x0d'],
    ['\n'] and [''], so the loop is not left: a descriptor is read with
    nothing in front, and unpacking it fails. *)
Theorem field_header_boundary (fuel : nat) (enc : option string) (lower : bool)
    (f : file) (names : list string) (flds : list DBFField) (w : world) :
  let sep := match peek f w with Some b => [b] | None => [] end in
  let w1 := after_marker w sep in
  match peek f w with
  | Some b =>
      if Byte.eqb b x0d then
        read_field_headers (S fuel) enc lower f names flds w
          = (inr (names, flds), w1)
      else
        read_field_headers (S fuel) enc lower f names flds w
          = next_descriptor enc lower f names flds [b]
              (read_field_headers fuel enc lower f) w1 /\
        StructParser_read DBFField_format f (Some [b]) w1 =
          (let rest := firstn 31 (skipn (w_pos w1) f) in
           let w2 := mkworld (w_pos w1 + length rest)
                       (w_log w1 ++ [EvRead 31 rest]) in
           match struct_unpack DBFField_format (b :: rest) with
           | Some vs => (inr vs, w2)
           | None => (inl (struct_error (S (length rest))), w2)
           end)
  | None =>
      read_field_headers (S fuel) enc lower f names flds w
        = (inl (struct_error 0),
           mkworld (w_pos w) (w_log w ++ [EvRead 1 []; EvRead 32 []]))
  end.
Proof.
  cbv zeta. destruct (peek f w) as [b|] eqn:Hb.
  - rewrite read_field_headers_turn, Hb.
    destruct (Byte.eqb b x0d); [reflexivity|].
    split; [reflexivity|]. apply DBFField_read_prepends.
  - now apply header_loop_at_eof.
Qed.

(** ** Memo fields of a constructed table *)






(** * Further properties of the module *)

(** ** The two classes of records partition the record area *)

Ltac marker_eqb :=
  change (Byte.eqb x20 x20) with true in *;
  change (Byte.eqb x2a x2a) with true in *;
  change (Byte.eqb x20 x2a) with false in *;
  change (Byte.eqb x2a x20) with false in *;
  cbv iota beta.

(** A counting traversal that ends normally has met record markers only,
    and the counting traversal of either class then ends in the same
    world, having yielded once for each marker of its class. *)
Lemma count_loop_normal (self : Table) (f : file) :
  forall (fuel : nat) (deleted : bool) (w : world) (ys : list (option Rec))
         (w' : world),
    iter_loop fuel self f deleted false w = ((ys, None), w') ->
    let markers :=
      marker_bytes fuel f (w_pos w) (N.to_nat (record_size (fields self))) in
    Forall record_marker markers /\
    forall d,
      iter_loop fuel self f d false w
        = ((repeat None (count_byte (wanted_marker d) markers), None), w').
Proof.
  induction fuel as [|fuel IH]; intros deleted w ys w' H.
  { simpl in H. discriminate. }
  cbn [iter_loop marker_bytes] in *.
  rewrite iter_step_eq in H. unfold peek in H.
  assert (T : forall d, iter_step self f d false w =
                match nth_error f (w_pos w) with
                | None => (inr StepReturn, after_marker w [])
                | Some b =>
                    if Byte.eqb b x1a then (inr StepReturn, after_marker w [b])
                    else if Byte.eqb b x20 then
                      (if d then pass_record self f else count_record self f)
                        (after_marker w [b])
                    else if Byte.eqb b x2a then
                      (if d then count_record self f else pass_record self f)
                        (after_marker w [b])
                    else (inl (IOError_invalid_record_separator [b]),
                          after_marker w [b])
                end).
  { intro d. rewrite iter_step_eq. reflexivity. }
  destruct (nth_error f (w_pos w)) as [b|] eqn:Hb.
  2:{ inversion H; subst. split; [constructor|]. intro d. rewrite T. reflexivity. }
  destruct (Byte.eqb b x1a) eqn:E1a.
  { inversion H; subst. split; [constructor|]. intro d. rewrite T. reflexivity. }
  assert (R : exists ys0,
             iter_loop fuel self f deleted false
               (mkworld (w_pos (after_marker w [b])
                         + N.to_nat (record_size (fields self)))
                  (w_log (after_marker w [b])
                   ++ [EvSeek (record_size (fields self)) SEEK_CUR]))
             = ((ys0, None), w') /\ record_marker b).
  { destruct (Byte.eqb b x20) eqn:E20.
    - apply byte_eqb_eq in E20. subst b.
      destruct deleted; [rewrite pass_record_eq in H|rewrite count_record_eq in H].
      + eexists. split; [exact H|now left].
      + match type of H with
        | context [iter_loop ?a ?b ?c ?d ?e ?g] =>
            destruct (iter_loop a b c d e g) as [[ys0 e0] w2] eqn:Hl
        end.
        inversion H; subst. eexists. split; [reflexivity|now left].
    - destruct (Byte.eqb b x2a) eqn:E2a; [|discriminate].
      apply byte_eqb_eq in E2a. subst b.
      destruct deleted; [rewrite count_record_eq in H|rewrite pass_record_eq in H].
      + match type of H with
        | context [iter_loop ?a ?b ?c ?d ?e ?g] =>
            destruct (iter_loop a b c d e g) as [[ys0 e0] w2] eqn:Hl
        end.
        inversion H; subst. eexists. split; [reflexivity|now right].
      + eexists. split; [exact H|now right]. }
  destruct R as [ys0 [R Hm]].
  apply IH in R. cbn zeta in R. destruct R as [F A].
  replace (w_pos w + 1 + N.to_nat (record_size (fields self)))
    with (w_pos (after_marker w [b]) + N.to_nat (record_size (fields self)))
    by reflexivity.
  split; [constructor; assumption|].
  intro d. rewrite T. rewrite count_byte_cons.
  destruct Hm as [-> | ->]; destruct d; cbn [wanted_marker]; marker_eqb;
    first [rewrite pass_record_eq|rewrite count_record_eq];
    cbv iota beta; rewrite (A _); reflexivity.
Qed.

Lemma count_byte_partition (l : bytes) :
  Forall record_marker l ->
  count_byte x20 l + count_byte x2a l = length l.
Proof.
  induction 1 as [|b l Hb F IH]; [reflexivity|].
  rewrite !count_byte_cons. cbn [length].
  destruct Hb as [-> | ->]; marker_eqb; lia.
Qed.

Lemma len_inv (self : Table) (deleted : bool) (w : world) (n : nat) (w' : world) :
  RecordIterator___len__ self (mkRecordIterator deleted) w = (inr n, w') ->
  exists ys, _iter_records self deleted false w = ((ys, None), w') /\ n = length ys.
Proof.
  unfold RecordIterator___len__, bind, gen_list, ret. cbn [_deleted].
  destruct (_iter_records self deleted false w) as [[ys [e|]] w1]; [discriminate|].
  intro H. inversion H; subst. eexists. split; reflexivity.
Qed.

(** X3.  If [len()] of the iterator of one class of records returns, the
    record area consists of active and deleted records only up to its
    end: [len()] of the other class returns too, after the same file
    operations, each number is the count of the markers of its class, and
    the two add up to the number of records in the file. *)
Theorem record_classes_partition (self : Table) (data : bytes) (deleted : bool)
    (w w' : world) (n : nat) :
  fs (filename self) = Some data ->
  RecordIterator___len__ self (mkRecordIterator deleted) w = (inr n, w') ->
  exists m,
    RecordIterator___len__ self (mkRecordIterator (negb deleted)) w = (inr m, w') /\
    n = count_byte (wanted_marker deleted) (table_markers self data) /\
    m = count_byte (wanted_marker (negb deleted)) (table_markers self data) /\
    n + m = length (table_markers self data) /\
    Forall record_marker (table_markers self data).
Proof.
  intros E H. apply len_inv in H. destruct H as [ys [H ->]].
  unfold _iter_records in H. unfold table_markers.
  rewrite E in H.
  destruct (header self) as [hdr|] eqn:Eh; [|discriminate].
  pose proof (count_loop_normal _ _ _ _ _ H) as C. cbn zeta in C.
  change (w_pos (snd (f_seek (headerlen hdr) SEEK_SET (opened w (filename self)))))
    with (N.to_nat (headerlen hdr)) in C.
  destruct C as [F A].
  remember (marker_bytes (S (length data)) data (N.to_nat (headerlen hdr))
              (N.to_nat (record_size (fields self)))) as markers eqn:EM.
  assert (L : forall d,
            RecordIterator___len__ self (mkRecordIterator d) w
            = (inr (count_byte (wanted_marker d) markers), w')).
  { intro d. apply len_of_count_traversal.
    unfold _iter_records. rewrite E, Eh. apply A. }
  pose proof (A deleted) as Ad. rewrite H in Ad.
  assert (Ey : ys = repeat None (count_byte (wanted_marker deleted) markers))
    by congruence.
  clear Ad H. subst ys.
  exists (count_byte (wanted_marker (negb deleted)) markers).
  rewrite repeat_length.
  split; [apply L|]. split; [reflexivity|]. split; [reflexivity|].
  split; [|exact F].
  pose proof (count_byte_partition F) as P.
  destruct deleted; unfold negb, wanted_marker; lia.
Qed.


(** ** What a counting traversal does and how it can fail *)

Lemma emits_marker_iter_step (self : Table) (f : file) (deleted : bool) :
  emits is_marker_event (iter_step self f deleted false).
Proof.
  intro w. rewrite iter_step_eq.
  destruct (peek f w) as [b|]; [|eexists; split; reflexivity].
  destruct (Byte.eqb b x1a); [eexists; split; reflexivity|].
  destruct (Byte.eqb b x20), (Byte.eqb b x2a), deleted;
    rewrite ?pass_record_eq, ?count_record_eq; cbn [snd after_marker w_log];
    try (exists [EvRead 1 [b]; EvSeek (record_size (fields self)) SEEK_CUR];
         split; [now rewrite <- app_assoc | reflexivity]);
    eexists; split; reflexivity.
Qed.

Lemma emits_marker_iter_loop (self : Table) (f : file) (deleted : bool)
    (fuel : nat) :
  emits is_marker_event (iter_loop fuel self f deleted false).
Proof.
  induction fuel as [|fuel IH]; intro w; cbn [iter_loop].
  - apply only_events_refl.
  - pose proof (@emits_marker_iter_step self f deleted w) as S.
    destruct (iter_step self f deleted false w) as [[e|[|v|]] w1]; simpl in S;
      try exact S.
    + specialize (IH w1).
      destruct (iter_loop fuel self f deleted false w1) as [[ys o] w2].
      simpl in IH |- *. eapply only_events_trans; eauto.
    + eapply only_events_trans; [exact S | apply IH].
Qed.

(** However a counting loop ends, it has yielded [None]s only; and when
    it ends with an exception, that is the invalid record separator error
    for the byte read last, which is none of 0x20, 0x2A and 0x1A. *)
Lemma count_loop_outcome (self : Table) (f : file) (deleted : bool) :
  forall (fuel : nat) (w : world) (ys : list (option Rec)) (e : option exn)
         (w' : world),
    length f - w_pos w < fuel ->
    iter_loop fuel self f deleted false w = ((ys, e), w') ->
    ys = repeat None (length ys) /\
    (e = None \/
     exists b,
       e = Some (IOError_invalid_record_separator [b]) /\
       classify (Some b) = Invalid /\
       0 < w_pos w' /\
       nth_error f (w_pos w' - 1) = Some b /\
       exists evs, w_log w' = evs ++ [EvRead 1 [b]]).
Proof.
  induction fuel as [|fuel IH]; intros w ys e w' B H; [lia|].
  cbn [iter_loop] in H. rewrite iter_step_eq in H. unfold peek in H.
  destruct (nth_error f (w_pos w)) as [b|] eqn:Hb.
  2:{ inversion H; subst. split; [reflexivity|now left]. }
  assert (Lt : w_pos w < length f) by (apply nth_error_Some; congruence).
  destruct (Byte.eqb b x1a) eqn:E1a.
  { inversion H; subst. split; [reflexivity|now left]. }
  assert (N : forall ys0 e0,
             iter_loop fuel self f deleted false
               (mkworld (w_pos (after_marker w [b])
                         + N.to_nat (record_size (fields self)))
                  (w_log (after_marker w [b])
                   ++ [EvSeek (record_size (fields self)) SEEK_CUR]))
             = ((ys0, e0), w') ->
             ys0 = repeat None (length ys0) /\
             (e0 = None \/
              exists b0,
                e0 = Some (IOError_invalid_record_separator [b0]) /\
                classify (Some b0) = Invalid /\
                0 < w_pos w' /\
                nth_error f (w_pos w' - 1) = Some b0 /\
                exists evs, w_log w' = evs ++ [EvRead 1 [b0]])).
  { intros ys0 e0 H0. eapply IH; [|exact H0]. simpl. lia. }
  assert (Y : forall ys0 e0 w2,
             (let '((ys1, e1), w3) :=
                iter_loop fuel self f deleted false
                  (mkworld (w_pos (after_marker w [b])
                            + N.to_nat (record_size (fields self)))
                     (w_log (after_marker w [b])
                      ++ [EvSeek (record_size (fields self)) SEEK_CUR]))
              in ((@None Rec :: ys1, e1), w3)) = ((ys0, e0), w2) ->
             exists ys1,
               ys0 = None :: ys1 /\
               iter_loop fuel self f deleted false
                 (mkworld (w_pos (after_marker w [b])
                           + N.to_nat (record_size (fields self)))
                    (w_log (after_marker w [b])
                     ++ [EvSeek (record_size (fields self)) SEEK_CUR]))
               = ((ys1, e0), w2)).
  { intros ys0 e0 w2.
    match goal with
    | |- context [iter_loop ?a ?b ?c ?d ?x ?g] =>
        destruct (iter_loop a b c d x g) as [[ys1 e1] w3]
    end.
    intro E. inversion E; subst. eexists. split; reflexivity. }
  destruct (Byte.eqb b x20) eqn:E20.
  { destruct deleted; [rewrite pass_record_eq in H|rewrite count_record_eq in H].
    - exact (N _ _ H).
    - apply Y in H. destruct H as [ys1 [-> H]].
      apply N in H. destruct H as [Hy He]. split; [|exact He].
      cbn [length repeat]. now rewrite <- Hy. }
  destruct (Byte.eqb b x2a) eqn:E2a.
  { destruct deleted; [rewrite count_record_eq in H|rewrite pass_record_eq in H].
    - apply Y in H. destruct H as [ys1 [-> H]].
      apply N in H. destruct H as [Hy He]. split; [|exact He].
      cbn [length repeat]. now rewrite <- Hy.
    - exact (N _ _ H). }
  inversion H; subst. split; [reflexivity|]. right. exists b.
  split; [reflexivity|].
  split; [unfold classify; now rewrite E20, E2a, E1a|].
  cbn [after_marker w_pos w_log length].
  split; [lia|].
  split; [replace (w_pos w + 1 - 1) with (w_pos w) by lia; exact Hb|].
  eexists. reflexivity.
Qed.

(** X4.  A traversal that counts touches the file by opening it, seeking
    and reading single bytes, whatever the file holds; it yields [None]s;
    and it can fail in one way only: on a marker byte that is none of
    0x20, 0x2A and 0x1A, with the invalid record separator error for that
    byte, read last.  [len()] then raises that error. *)
Theorem counting_fails_only_on_bad_marker (self : Table) (data : bytes)
    (hdr : DBFHeader) (deleted : bool) (w : world)
    (ys : list (option Rec)) (e : option exn) (w' : world) :
  fs (filename self) = Some data ->
  header self = Some hdr ->
  _iter_records self deleted false w = ((ys, e), w') ->
  only_events is_marker_event w w' /\
  ys = repeat None (length ys) /\
  (e = None \/
   exists b,
     e = Some (IOError_invalid_record_separator [b]) /\
     classify (Some b) = Invalid /\
     0 < w_pos w' /\
     nth_error data (w_pos w' - 1) = Some b /\
     (exists evs, w_log w' = evs ++ [EvRead 1 [b]]) /\
     RecordIterator___len__ self (mkRecordIterator deleted) w
       = (inl (IOError_invalid_record_separator [b]), w')).
Proof.
  intros E Eh H. split.
  { pose proof H as H0. unfold _iter_records in H0. rewrite E, Eh in H0.
    eapply only_events_trans with (w2 := opened w (filename self));
      [eexists; split; reflexivity|].
    eapply only_events_trans
      with (w2 := snd (f_seek (headerlen hdr) SEEK_SET (opened w (filename self))));
      [eexists; split; reflexivity|].
    pose proof (@emits_marker_iter_loop self data deleted (S (length data))
                  (snd (f_seek (headerlen hdr) SEEK_SET
                          (opened w (filename self))))) as O.
    rewrite H0 in O. exact O. }
  pose proof H as H0. unfold _iter_records in H0. rewrite E, Eh in H0.
  apply count_loop_outcome in H0; [|lia].
  destruct H0 as [Hy He]. split; [exact Hy|].
  destruct He as [-> | [b [-> [Hc [Hp [Hn Hl]]]]]]; [now left|].
  right. exists b. repeat (split; [assumption || reflexivity|]).
  unfold RecordIterator___len__, bind, gen_list. cbn [_deleted].
  rewrite H. reflexivity.
Qed.


(** ** The shape of a decoded record *)

Lemma read_items_names (self : Table) (f : file) (flds : list DBFField) :
  forall (w : world) (items : list FieldValue) (w' : world),
    read_items self f flds w = (inr items, w') ->
    map fv_name items = map (@f_name string) flds.
Proof.
  induction flds as [|field rest IH]; intros w items w' H.
  { inversion H. reflexivity. }
  cbn [read_items] in H. unfold bind in H.
  destruct (read_field self f field w) as [[e|v] w1]; [discriminate|].
  destruct (read_items self f rest w1) as [[e|its] w2] eqn:R; [discriminate|].
  inversion H; subst. cbn [map fv_name]. f_equal. eapply IH. exact R.
Qed.

Lemma read_items_pos (self : Table) (f : file) (flds : list DBFField) :
  forall (w : world) (items : list FieldValue) (w' : world),
    read_items self f flds w = (inr items, w') ->
    w_pos w' =
      w_pos w + Nat.min (N.to_nat (record_size flds)) (length f - w_pos w).
Proof.
  induction flds as [|field rest IH]; intros w items w' H.
  { inversion H; subst. simpl. lia. }
  rewrite record_size_cons.
  cbn [read_items] in H. unfold bind in H.
  pose proof (read_field_pos self f field w) as P.
  rewrite slice_length in P.
  destruct (read_field self f field w) as [[e|v] w1]; [discriminate|].
  destruct (read_items self f rest w1) as [[e|its] w2] eqn:R; [discriminate|].
  inversion H; subst. apply IH in R. simpl in P. lia.
Qed.

(** X5.  A decoded record is built by [recfactory] from one item for each
    field of the schema, in the order of the schema and under the fields'
    names, in raw mode and outside it. *)
Theorem record_follows_schema (self : Table) (f : file) (w : world)
    (r : Rec) (w' : world) :
  _read_record self f w = (inr r, w') ->
  exists items,
    r = recfactory self items /\
    map fv_name items = map (@f_name string) (fields self) /\
    length items = length (fields self).
Proof.
  unfold _read_record, bind, ret. intro H.
  destruct (read_items self f (fields self) w) as [[e|items] w1] eqn:R;
    [discriminate|].
  inversion H; subst. exists items.
  pose proof (read_items_names _ _ _ _ R) as Hn.
  split; [reflexivity|]. split; [exact Hn|].
  rewrite <- (length_map fv_name items), Hn. apply length_map.
Qed.

(** X6.  Decoding a record moves the read position by the record size,
    or to the end of the file when the record is cut short; it leaves the
    position where skipping the record would when the record lies within
    the file, and the next marker read is the same in either case. *)
Theorem decode_and_skip_advance_alike (self : Table) (f : file) (w : world)
    (r : Rec) (w' : world) :
  _read_record self f w = (inr r, w') ->
  let size := N.to_nat (record_size (fields self)) in
  w_pos w' = w_pos w + Nat.min size (length f - w_pos w) /\
  (w_pos w + size <= length f ->
   w_pos w' = w_pos (snd (_skip_record self f w))) /\
  peek f w' = peek f (snd (_skip_record self f w)).
Proof.
  intros H size. pose proof H as H0.
  unfold _read_record, bind, ret in H0.
  destruct (read_items self f (fields self) w) as [[e|items] w1] eqn:R;
    [discriminate|].
  inversion H0; subst w1. clear H0.
  apply read_items_pos in R. fold size in R.
  split; [exact R|].
  split.
  - intro B. rewrite R. simpl. fold size. lia.
  - unfold peek. apply sync_peek. simpl. fold size. unfold sync. lia.
Qed.

(** ** A raw traversal returns the record area as it is laid out *)

Lemma slot_items_sync (f : bytes) (flds : list DBFField) :
  forall a b, sync f a b -> slot_items f a flds = slot_items f b flds.
Proof.
  induction flds as [|field rest IH]; intros a b S; [reflexivity|].
  cbn [slot_items]. rewrite (sync_slice _ S).
  f_equal. apply IH. now apply sync_add.
Qed.

Lemma raw_loop_records (self : Table) (f : file) (deleted : bool) :
  raw self = true ->
  forall (fuel : nat) (w : world) (p : nat) (ys : list (option Rec))
         (e : option exn) (w' : world),
    sync f (w_pos w) p ->
    iter_loop fuel self f deleted true w = ((ys, e), w') ->
    e = None ->
    ys = map (fun items => Some (recfactory self items))
           (area_records fuel f p (N.to_nat (record_size (fields self)))
              (fields self) (wanted_marker deleted)).
Proof.
  intro Raw.
  induction fuel as [|fuel IH]; intros w p ys e w' S H He.
  { simpl in H. inversion H; subst. discriminate. }
  cbn [iter_loop area_records] in *.
  rewrite iter_step_eq in H. unfold peek in H.
  rewrite (sync_peek S) in H.
  destruct (nth_error f p) as [b|] eqn:Hb.
  2:{ inversion H; subst. reflexivity. }
  destruct (Byte.eqb b x1a) eqn:E1a.
  { inversion H; subst. reflexivity. }
  assert (S1 : sync f (w_pos (after_marker w [b]) +
                       N.to_nat (record_size (fields self)))
                 (p + 1 + N.to_nat (record_size (fields self)))).
  { simpl. now apply sync_add, sync_add. }
  assert (D : forall yl el wl,
             (let (r, w1) := decode_record self f (after_marker w [b]) in
              match r with
              | inl e => ([], Some e, w1)
              | inr StepReturn => ([], None, w1)
              | inr (StepYield v) =>
                  let '(ys, e, w2) := iter_loop fuel self f deleted true w1 in
                  (v :: ys, e, w2)
              | inr StepNext => iter_loop fuel self f deleted true w1
              end) = ((yl, el), wl) ->
             el = None ->
             yl = Some (recfactory self (slot_items f (p + 1) (fields self)))
                  :: map (fun items => Some (recfactory self items))
                       (area_records fuel f
                          (p + 1 + N.to_nat (record_size (fields self)))
                          (N.to_nat (record_size (fields self)))
                          (fields self) (wanted_marker deleted))).
  { intros yl el wl Hd Hel.
    destruct (@read_record_raw self f (after_marker w [b]) Raw) as [w1 [Hr _]].
    unfold decode_record, bind, ret in Hd. rewrite Hr in Hd.
    assert (S2 : sync f (w_pos w1)
                   (p + 1 + N.to_nat (record_size (fields self)))).
    { eapply read_record_sync; [exact Hr|]. simpl. now apply sync_add. }
    destruct (iter_loop fuel self f deleted true w1) as [[ys1 e1] w2] eqn:Hl.
    inversion Hd; subst.
    rewrite (IH w1 _ _ _ _ S2 Hl eq_refl).
    f_equal. f_equal. f_equal. apply slot_items_sync. simpl. now apply sync_add. }
  destruct (Byte.eqb b x20) eqn:E20.
  { apply byte_eqb_eq in E20. subst b.
    destruct deleted; cbn [wanted_marker]; marker_eqb.
    - rewrite pass_record_eq in H. refine (IH _ _ _ _ _ _ H He). exact S1.
    - exact (D _ _ _ H He). }
  destruct (Byte.eqb b x2a) eqn:E2a.
  { apply byte_eqb_eq in E2a. subst b.
    destruct deleted; cbn [wanted_marker]; marker_eqb.
    - exact (D _ _ _ H He).
    - rewrite pass_record_eq in H. refine (IH _ _ _ _ _ _ H He). exact S1. }
  inversion H; subst. discriminate.
Qed.

(** X7.  In raw mode, a traversal of one class of records that ends
    normally returns, for each marker of the class at header length +
    i * (1 + record size) and in that order, the record made of the bytes
    of the field slots that follow the marker; nothing else of the file
    enters the result. *)
Theorem raw_traversal_is_the_record_area (self : Table) (data : bytes)
    (hdr : DBFHeader) (deleted : bool) (w : world)
    (ys : list (option Rec)) (w' : world) :
  raw self = true ->
  fs (filename self) = Some data ->
  header self = Some hdr ->
  _iter_records self deleted true w = ((ys, None), w') ->
  ys = map (fun items => Some (recfactory self items))
         (area_records (S (length data)) data (N.to_nat (headerlen hdr))
            (N.to_nat (record_size (fields self))) (fields self)
            (wanted_marker deleted)) /\
  length ys = count_byte (wanted_marker deleted) (table_markers self data).
Proof.
  intros Raw E Eh H. split.
  - pose proof H as H0. unfold _iter_records in H0. rewrite E, Eh in H0.
    eapply raw_loop_records; [exact Raw| |exact H0|reflexivity].
    simpl. apply sync_refl.
  - destruct (count_traversal_agrees _ _ _ H w) as [ws' [_ C]].
    now apply C.
Qed.


(** ** Lengths before and after loading *)

Lemma count_traversal_markers (self : Table) (data : bytes) (deleted : bool)
    (w : world) (ys : list (option Rec)) (w' : world) :
  fs (filename self) = Some data ->
  _iter_records self deleted false w = ((ys, None), w') ->
  Forall record_marker (table_markers self data) /\
  forall d,
    _iter_records self d false w
      = ((repeat None (count_byte (wanted_marker d) (table_markers self data)),
          None), w').
Proof.
  intros E H. unfold _iter_records, table_markers in *. rewrite E in *.
  destruct (header self) as [hdr|]; [|discriminate].
  apply count_loop_normal in H. exact H.
Qed.

Lemma len_unload (self : Table) (w : world) :
  Table___len__ (unload self) w
    = RecordIterator___len__ self (mkRecordIterator false) w /\
  len_attr (unload self) (deleted (unload self)) w
    = RecordIterator___len__ self (mkRecordIterator true) w.
Proof.
  unfold Table___len__, unload. cbn [records deleted set_records].
  unfold len_attr, RecordIterator___len__, bind, gen_list. cbn [_deleted].
  now rewrite !iter_records_set_records.
Qed.

(** X8.  Loading does not change what [len()] says: the loaded table
    answers from its lists, without touching the file, with the numbers
    that the unloaded table finds by counting markers, for the records
    and for the deleted records; and the two numbers add up to the number
    of records in the file. *)
Theorem len_is_the_same_loaded_or_not (self : Table) (w : world) (t : Table)
    (w' : world) :
  load self w = (inr t, w') ->
  exists n m,
    (forall ws,
       Table___len__ t ws = (inr n, ws) /\
       len_attr t (deleted t) ws = (inr m, ws)) /\
    (forall ws, exists ws',
       Table___len__ (unload self) ws = (inr n, ws') /\
       Table___len__ (unload t) ws = (inr n, ws') /\
       len_attr (unload self) (deleted (unload self)) ws = (inr m, ws') /\
       len_attr (unload t) (deleted (unload t)) ws = (inr m, ws')) /\
    (forall data, fs (filename self) = Some data ->
       n = count_byte x20 (table_markers self data) /\
       m = count_byte x2a (table_markers self data) /\
       n + m = length (table_markers self data)).
Proof.
  intro H. apply load_inv in H.
  destruct H as [recs [dels [wa [wa' [wb [-> [Hr Hd]]]]]]].
  exists (length recs), (length dels).
  split; [intro ws; split; reflexivity|].
  assert (C : forall ws, exists ws',
            _iter_records self false false ws
              = ((repeat None (length recs), None), ws') /\
            _iter_records self true false ws
              = ((repeat None (length dels), None), ws')).
  { intro ws.
    destruct (count_traversal_agrees _ _ _ Hr ws) as [ws1 [C1 C1']].
    destruct (count_traversal_agrees _ _ _ Hd ws) as [ws2 [C2 C2']].
    exists ws1. split; [exact C1|].
    destruct (fs (filename self)) as [data|] eqn:E.
    - destruct (count_traversal_markers _ _ _ E C1) as [_ A].
      rewrite (A true). rewrite <- (C2' data eq_refl). reflexivity.
    - unfold _iter_records in C1. rewrite E in C1. discriminate. }
  split.
  - intro ws. destruct (C ws) as [ws' [C1 C2]]. exists ws'.
    apply len_of_count_traversal in C1, C2.
    destruct (len_unload self ws) as [U1 U2].
    destruct (len_unload
                (set_records self (AttrList recs) (AttrList dels) true) ws)
      as [V1 V2].
    rewrite U1, U2, V1, V2.
    unfold RecordIterator___len__, bind, gen_list in *. cbn [_deleted] in *.
    rewrite !iter_records_set_records.
    repeat split; assumption.
  - intros data E.
    destruct (count_traversal_agrees _ _ _ Hr w) as [ws1 [C1 C1']].
    destruct (count_traversal_agrees _ _ _ Hd w) as [ws2 [C2 C2']].
    destruct (count_traversal_markers _ _ _ E C1) as [F _].
    pose proof (count_byte_partition F) as P.
    specialize (C1' data E). specialize (C2' data E).
    cbn [wanted_marker] in C1', C2'. lia.
Qed.


(** ** The header and the schema as bytes of the file *)

Lemma nth_slice (f : bytes) (p n i : nat) (d : byte) :
  i < n -> nth i (firstn n (skipn p f)) d = nth (p + i) f d.
Proof.
  intro L. rewrite nth_firstn.
  destruct (i <? n) eqn:E; [|apply Nat.ltb_ge in E; lia].
  apply nth_skipn.
Qed.

Lemma slice_full (f : bytes) (p n : nat) :
  length (firstn n (skipn p f)) = n -> 0 < n -> p + n <= length f.
Proof. rewrite slice_length. lia. Qed.

Lemma byte_to_N_bound (b : byte) : (Byte.to_N b < 256)%N.
Proof. destruct b; reflexivity. Qed.

Ltac split_block blk :=
  do 32 (destruct blk as [|? blk]; [discriminate|]);
  destruct blk; [|discriminate].

(** The table header is the first 32 bytes that the file holds from the
    read position on, each field at its offset. *)
Lemma DBFHeader_read_layout (f : file) (w : world) (hdr : DBFHeader) (w' : world) :
  DBFHeader_read f w = (inr hdr, w') ->
  let p := w_pos w in
  w_pos w' = p + 32 /\ p + 32 <= length f /\
  w_log w' = w_log w ++ [EvRead 32 (firstn 32 (skipn p f))] /\
  dbversion hdr = byte_at f p /\
  year hdr = byte_at f (p + 1) /\
  month hdr = byte_at f (p + 2) /\
  day hdr = byte_at f (p + 3) /\
  numrecords hdr = le_uint (firstn 4 (skipn (p + 4) f)) /\
  headerlen hdr = (byte_at f (p + 8) + 256 * byte_at f (p + 9))%N /\
  recordlen hdr = (byte_at f (p + 10) + 256 * byte_at f (p + 11))%N /\
  language_driver hdr = byte_at f (p + 29).
Proof.
  intros H p. unfold DBFHeader_read, StructParser_read, bind, struct_unpack in H.
  unfold f_read in H. fold p in H.
  change (calcsize DBFHeader_format) with 32 in H.
  assert (N4 : firstn 4 (skipn (p + 4) f)
               = firstn 4 (skipn 4 (firstn 32 (skipn p f)))).
  { rewrite skipn_firstn_comm, firstn_firstn, skipn_skipn.
    rewrite (Nat.add_comm 4 p). reflexivity. }
  assert (Hn : forall i, i < 32 ->
                 byte_at f (p + i) = Byte.to_N (nth i (firstn 32 (skipn p f)) x00)).
  { intros i L. unfold byte_at. now rewrite nth_slice. }
  assert (D0 : byte_at f p = Byte.to_N (nth 0 (firstn 32 (skipn p f)) x00)).
  { rewrite <- (Hn 0) by lia. now rewrite Nat.add_0_r. }
  rewrite N4, D0, !Hn by lia.
  pose proof (@slice_full f p 32) as B.
  remember (firstn 32 (skipn p f)) as blk eqn:Eb.
  destruct (Nat.eqb (length blk) 32) eqn:El; [|discriminate].
  apply Nat.eqb_eq in El. specialize (B El ltac:(lia)).
  clear Eb Hn N4 D0.
  split_block blk.
  cbv [unpack_items unpack_one fmt_size firstn skipn DBFHeader_format
       DBFHeader_of_items ret] in H.
  inversion H; subst.
  cbn [w_pos w_log dbversion year month day numrecords headerlen recordlen
       language_driver nth firstn skipn length le_uint].
  repeat split; try lia; rewrite ?N.mul_0_r, ?N.add_0_r; reflexivity.
Qed.

Lemma slice_cons (f : bytes) (p n : nat) (b : byte) :
  nth_error f p = Some b ->
  firstn (S n) (skipn p f) = b :: firstn n (skipn (S p) f).
Proof.
  revert p. induction f as [|x f IH]; intros [|p] H; try discriminate.
  - inversion H; subst. reflexivity.
  - cbn [skipn]. apply IH. exact H.
Qed.

(** A field descriptor read after its first byte [b] was read at [p] is
    the 32 bytes of the file from [p] on, each field at its offset. *)
Lemma DBFField_read_layout (f : file) (w : world) (p : nat) (b : byte)
    (fh : DBFField_raw) (w' : world) :
  nth_error f p = Some b ->
  w_pos w = S p ->
  DBFField_read f [b] w = (inr fh, w') ->
  w_pos w' = p + 32 /\ p + 32 <= length f /\
  f_name fh = firstn 11 (skipn p f) /\
  f_type fh = firstn 1 (skipn (p + 11) f) /\
  f_length fh = byte_at f (p + 16) /\
  decimal_count fh = byte_at f (p + 17).
Proof.
  intros Hb Hp H. unfold DBFField_read, bind in H.
  rewrite DBFField_read_prepends in H. cbv zeta in H.
  cbn [length Nat.sub app] in H. rewrite Hp in H.
  rewrite <- (@slice_cons f p 31 b Hb) in H.
  assert (Hl : length (firstn 31 (skipn (S p) f)) = 31 ->
               S p + length (firstn 31 (skipn (S p) f)) = p + 32) by lia.
  assert (N11 : firstn 11 (skipn p f) = firstn 11 (firstn 32 (skipn p f))).
  { now rewrite firstn_firstn. }
  assert (N1 : firstn 1 (skipn (p + 11) f)
               = firstn 1 (skipn 11 (firstn 32 (skipn p f)))).
  { rewrite skipn_firstn_comm, firstn_firstn, skipn_skipn.
    rewrite (Nat.add_comm 11 p). reflexivity. }
  assert (Hn : forall i, i < 32 ->
                 byte_at f (p + i) = Byte.to_N (nth i (firstn 32 (skipn p f)) x00)).
  { intros i L. unfold byte_at. now rewrite nth_slice. }
  rewrite N11, N1, !Hn by lia.
  pose proof (@slice_full f p 32) as B.
  assert (L31 : length (firstn 32 (skipn p f)) = 32 ->
                length (firstn 31 (skipn (S p) f)) = 31).
  { rewrite (@slice_cons f p 31 b Hb). cbn [length]. lia. }
  remember (firstn 32 (skipn p f)) as blk eqn:Eb.
  unfold struct_unpack in H.
  change (calcsize DBFField_format) with 32 in H.
  destruct (Nat.eqb (length blk) 32) eqn:El; [|discriminate].
  apply Nat.eqb_eq in El. specialize (B El ltac:(lia)).
  specialize (Hl (L31 El)).
  clear Eb Hn N1 N11 L31.
  remember (firstn 31 (skipn (S p) f)) as rest eqn:Er. clear Er.
  split_block blk.
  cbv [unpack_items unpack_one fmt_size firstn skipn DBFField_format
       DBFField_of_items ret] in H.
  inversion H; subst.
  cbn [w_pos f_name f_type f_length decimal_count nth firstn skipn le_uint].
  repeat split; try lia; rewrite ?N.mul_0_r, ?N.add_0_r; reflexivity.
Qed.


(** The loop over the field headers, when it ends normally, has appended
    one descriptor for each 32 bytes from its start to the first
    boundary that holds 0x0D, and stands behind that byte. *)
Lemma header_loop_layout (enc : option string) (lower : bool) (f : file) :
  forall (fuel : nat) (names : list string) (flds : list DBFField) (w : world)
         (names' : list string) (flds' : list DBFField) (w' : world),
    read_field_headers fuel enc lower f names flds w
      = (inr (names', flds'), w') ->
    exists added,
      flds' = flds ++ added /\
      names' = names ++ map (@f_name string) added /\
      w_pos w' = w_pos w + 32 * length added + 1 /\
      nth_error f (w_pos w + 32 * length added) = Some x0d /\
      only_reads w w' /\
      forall i fld,
        nth_error added i = Some fld ->
        descriptor_at enc lower f (w_pos w + 32 * i) fld.
Proof.
  induction fuel as [|fuel IH]; intros names flds w names' flds' w' H.
  { discriminate. }
  pose proof (@emits_read_field_headers is_read ltac:(reflexivity)
                (S fuel) enc lower f names flds w) as O.
  rewrite H in O. cbn [snd] in O.
  rewrite read_field_headers_turn in H.
  destruct (peek f w) as [b|] eqn:Hb.
  2:{ rewrite next_descriptor_at_eof in H; [discriminate|].
      cbn [after_marker w_pos length]. unfold peek in Hb.
      apply nth_error_None in Hb. lia. }
  unfold peek in Hb.
  destruct (Byte.eqb b x0d) eqn:E0d.
  { apply byte_eqb_eq in E0d. subst b. inversion H; subst.
    exists []. rewrite !app_nil_r. cbn [map length after_marker w_pos].
    split; [reflexivity|]. split; [reflexivity|]. split; [lia|].
    split; [now rewrite Nat.mul_0_r, Nat.add_0_r|].
    split; [exact O|].
    intros [|i] fld; discriminate. }
  apply byte_eqb_neq in E0d.
  unfold next_descriptor, bind, lift in H.
  destruct (DBFField_read f [b] (after_marker w [b])) as [[e|fh] w1] eqn:R;
    [discriminate|].
  eapply DBFField_read_layout with (p := w_pos w) in R;
    [|exact Hb|cbn [after_marker w_pos length]; lia].
  destruct R as [P1 [B [Dn [Dt [Dl Dd]]]]].
  destruct (parse_string (f_name fh) enc) as [e|nm] eqn:En; [discriminate|].
  destruct (parse_string (f_type fh) enc) as [e|ty] eqn:Et; [discriminate|].
  apply IH in H. destruct H as [added [Hf [Hn [Hp [Hc [_ Hd]]]]]].
  exists (DBFField_replace fh (if lower then str_lower nm else nm) ty :: added).
  cbn [map length f_name DBFField_replace] in *.
  split; [now rewrite Hf, <- app_assoc|].
  split; [now rewrite Hn, <- app_assoc|].
  split; [lia|].
  split; [rewrite <- Hc; f_equal; lia|].
  split; [exact O|].
  intros [|i] fld Hi.
  - inversion Hi; subst. rewrite Nat.mul_0_r, Nat.add_0_r.
    unfold descriptor_at. cbn [f_name f_type f_length decimal_count].
    split; [exact B|]. split; [congruence|].
    split; [exists nm; split; [now rewrite <- Dn|reflexivity]|].
    split; [now rewrite <- Dt|]. split; assumption.
  - cbn [nth_error] in Hi. apply Hd in Hi.
    replace (w_pos w + 32 * S i) with (w_pos w1 + 32 * i) by lia. exact Hi.
Qed.

(** [_read_headers] taken apart. *)
Lemma read_headers_inv (self : Table) (f : file) (w : world) (t : Table)
    (w' : world) :
  _read_headers self f w = (inr t, w') ->
  exists hdr w1 names flds memofn,
    DBFHeader_read f w = (inr hdr, w1) /\
    read_field_headers (S (length f)) (resolve_encoding (encoding self) hdr)
      (lowernames self) f (field_names self) (fields self) w1
      = (inr (names, flds), w') /\
    flds <> [] /\
    t = mkTable (resolve_encoding (encoding self) hdr) (ignorecase self)
          (lowernames self) (parserclass self) (recfactory self) (raw self)
          (name self) (deleted self) (filename self) memofn (Some hdr) flds
          names (_field_parser self) (date self) (memofile self)
          (records self) (loaded self) /\
    (if existsb (fun field => String.eqb "M" (f_type field)) flds
     then memofn = ifind (filename self) (Some ".fpt"%string) /\
          truthy memofn = true
     else memofn = memofilename self).
Proof.
  unfold _read_headers, bind. intro H.
  destruct (DBFHeader_read f w) as [[e|hdr] w1] eqn:E1; [discriminate|].
  destruct (read_field_headers (S (length f))
              (resolve_encoding (encoding self) hdr) (lowernames self) f
              (field_names self) (fields self) w1)
    as [[e|[names flds]] w2] eqn:E2; [discriminate|].
  destruct flds as [|fld flds]; [discriminate|].
  cbn [length Nat.ltb Nat.leb] in H.
  exists hdr, w1, names, (fld :: flds).
  match type of H with
  | (let (_, _) := ?c w2 in _) = _ =>
      destruct (c w2) as [[e|memofn] w3] eqn:Em; [discriminate|]
  end.
  unfold ret in H. inversion H; subst. clear H.
  exists memofn.
  destruct (existsb (fun field => String.eqb "M" (f_type field)) (fld :: flds))
    eqn:Ex.
  - destruct (truthy (ifind (filename self) (Some ".fpt"%string))) eqn:Tr;
      [|discriminate].
    unfold ret in Em. inversion Em; subst.
    split; [reflexivity|]. split; [exact E2|]. split; [discriminate|].
    split; [reflexivity|]. split; [reflexivity|exact Tr].
  - unfold ret in Em. inversion Em; subst.
    split; [reflexivity|]. split; [exact E2|]. split; [discriminate|].
    split; reflexivity.
Qed.


(** X9.  The schema of a table is the descriptor section of its file:
    [_read_headers], started on a fresh table at the beginning of the
    file, returns one field for each 32 bytes from offset 32 up to the
    first boundary that holds 0x0D, in file order, with the name, type,
    length and decimal count found at offsets 0, 11, 16 and 17 of the
    descriptor; [field_names] lists the names of [fields]; there is at
    least one field; and the header was read by reads alone, which leave
    the position behind the 0x0D byte. *)
Theorem schema_is_the_descriptor_section (self : Table) (f : file) (w : world)
    (t : Table) (w' : world) :
  fields self = [] -> field_names self = [] -> w_pos w = 0 ->
  _read_headers self f w = (inr t, w') ->
  let n := length (fields t) in
  1 <= n /\
  field_names t = map (@f_name string) (fields t) /\
  w_pos w' = 33 + 32 * n /\
  33 + 32 * n <= length f /\
  nth_error f (32 + 32 * n) = Some x0d /\
  only_reads w w' /\
  forall i fld,
    nth_error (fields t) i = Some fld ->
    descriptor_at (encoding t) (lowernames t) f (32 + 32 * i) fld /\
    (f_length fld < 256)%N.
Proof.
  intros Hf Hn Hp H n.
  pose proof (reads_only__read_headers self f w) as O.
  rewrite H in O. cbn [snd] in O.
  apply read_headers_inv in H.
  destruct H as [hdr [w1 [names [flds [memofn [Hh [Hl [Hne [-> _]]]]]]]]].
  subst n. cbn [fields field_names encoding lowernames].
  apply DBFHeader_read_layout in Hh. cbv zeta in Hh.
  destruct Hh as [P1 _]. rewrite Hp in P1. change (0 + 32) with 32 in P1.
  rewrite Hf, Hn in Hl.
  apply header_loop_layout in Hl.
  destruct Hl as [added [Ef [En [P2 [C [_ D]]]]]].
  cbn [app] in Ef, En. subst flds names. rewrite P1 in P2, C, D.
  split; [destruct added; [congruence|cbn [length]; lia]|].
  split; [reflexivity|].
  split; [lia|].
  assert (B : 32 + 32 * length added < length f)
    by (apply nth_error_Some; congruence).
  split; [lia|].
  split; [exact C|]. split; [exact O|].
  intros i fld Hi. specialize (D i fld Hi). split; [exact D|].
  destruct D as [_ [_ [_ [_ [L _]]]]]. rewrite L. apply byte_to_N_bound.
Qed.

(** ** What the constructor establishes *)

(** The constructor taken apart: every step it took when it returns. *)
Lemma init_anatomy
    (filename_arg : string) (encoding_arg : option string)
    (ignorecase_arg lowernames_arg : bool)
    (parserclass_arg : option string -> FieldParser)
    (recfactory_arg : list FieldValue -> Rec) (load_arg raw_arg : bool)
    (w : world) (t : Table) (w' : world) :
  Table___init__ filename_arg encoding_arg ignorecase_arg lowernames_arg
    parserclass_arg recfactory_arg load_arg raw_arg w = (inr t, w') ->
  exists fname f hdr w1 names flds w2 memofn d mf recs dels,
    resolve_filename filename_arg ignorecase_arg = inr fname /\
    fs fname = Some f /\
    DBFHeader_read f (opened w fname) = (inr hdr, w1) /\
    read_field_headers (S (length f)) (resolve_encoding encoding_arg hdr)
      lowernames_arg f [] [] w1 = (inr (names, flds), w2) /\
    flds <> [] /\
    check_fields (Some (parserclass_arg (resolve_encoding encoding_arg hdr)))
      flds = inr tt /\
    datetime_date (expand_year (Z.of_N (year hdr))) (Z.of_N (month hdr))
      (Z.of_N (day hdr)) = inr d /\
    t = mkTable (resolve_encoding encoding_arg hdr) ignorecase_arg
          lowernames_arg parserclass_arg recfactory_arg raw_arg
          (str_lower (splitext_root (basename filename_arg))) dels fname
          memofn (Some hdr) flds names
          (Some (parserclass_arg (resolve_encoding encoding_arg hdr)))
          (Some d) mf (Some recs) (Some load_arg) /\
    (if load_arg then exists lr ld, recs = AttrList lr /\ dels = AttrList ld
     else recs = AttrIterator (mkRecordIterator false) /\
          dels = AttrIterator (mkRecordIterator true)) /\
    (if existsb (fun field => String.eqb "M" (f_type field)) flds
     then memofn = ifind fname (Some ".fpt"%string) /\ truthy memofn = true
     else memofn = None) /\
    (if truthy memofn && negb raw_arg
     then exists path m, memofn = Some path /\ FPT path = inr m /\ mf = Some m
     else mf = None).
Proof.
  unfold Table___init__, bind at 1, lift. intro H.
  destruct (resolve_filename filename_arg ignorecase_arg) as [e|fname] eqn:Hr;
    [discriminate|].
  unfold bind at 1, with_open in H.
  destruct (fs fname) as [f|] eqn:Hfs; [|discriminate].
  destruct (init_with_file _ f (opened w fname)) as [[e|self2] w2] eqn:Hi;
    [discriminate|].
  unfold init_with_file, bind at 1 in Hi.
  destruct (_read_headers _ f (opened w fname)) as [[e|self1] w1] eqn:Hh;
    [discriminate|].
  apply read_headers_inv in Hh.
  destruct Hh as [hdr [wh [names [flds [memofn [Hh [Hl [Hne [-> Hm]]]]]]]]].
  cbn [new_table encoding lowernames field_names fields filename memofilename]
    in Hl, Hm.
  unfold bind at 1, _check_headers, lift in Hi.
  cbn [set_field_parser _field_parser fields parserclass encoding new_table] in Hi.
  destruct (check_fields _ flds) as [e|[]] eqn:Hc; [discriminate|].
  unfold bind at 1 in Hi. cbn [header set_field_parser] in Hi.
  unfold ret at 1 in Hi. unfold bind at 1, lift in Hi.
  destruct (datetime_date _ _ _) as [e|d] eqn:Hd; [discriminate|].
  unfold bind at 1 in Hi.
  assert (M : exists mf, self2 =
            set_date_memofile
              (set_field_parser
                 (mkTable (resolve_encoding encoding_arg hdr) ignorecase_arg
                    lowernames_arg parserclass_arg recfactory_arg raw_arg
                    (str_lower (splitext_root (basename filename_arg)))
                    (AttrList []) fname memofn (Some hdr) flds names None None
                    None None None)
                 (parserclass_arg (resolve_encoding encoding_arg hdr))) d mf /\
            (if truthy memofn && negb raw_arg
             then exists path m,
                 memofn = Some path /\ FPT path = inr m /\ mf = Some m
             else mf = None)).
  { revert Hi. cbn [new_table encoding ignorecase lowernames parserclass
                    recfactory raw name deleted filename memofilename
                    _field_parser date memofile records loaded
                    set_field_parser].
    destruct (truthy memofn && negb raw_arg) eqn:C.
    - destruct memofn as [path|]; [|discriminate C].
      unfold bind, open_memofile.
      destruct (FPT path) as [e|m] eqn:Ef; [discriminate|].
      unfold ret. intro E. inversion E. eexists. split; [reflexivity|].
      exists path, m. repeat split. exact Ef.
    - unfold ret. intro E. inversion E. eexists. split; reflexivity. }
  destruct M as [mf [-> Hmf]]. clear Hi.
  exists fname, f, hdr, wh, names, flds, w1, memofn, d, mf.
  destruct load_arg.
  - apply load_inv in H. destruct H as [recs [dels [wa [wa' [wb [-> _]]]]]].
    exists (AttrList recs), (AttrList dels).
    repeat (split; [first [assumption|reflexivity]|]).
    split; [exists recs, dels; split; reflexivity|].
    split; assumption.
  - unfold ret in H. inversion H; subst.
    exists (AttrIterator (mkRecordIterator false)),
           (AttrIterator (mkRecordIterator true)).
    repeat (split; [first [assumption|reflexivity]|]).
    split; [split; reflexivity|].
    split; assumption.
Qed.

Lemma opened_pos (w : world) (path : string) : w_pos (opened w path) = 0.
Proof. reflexivity. Qed.

Lemma expand_year_of_byte (b : N) :
  (b < 256)%N ->
  (1980 <= expand_year (Z.of_N b) <= 2155)%Z.
Proof.
  intro L. unfold expand_year.
  destruct (Z.of_N b <? 80)%Z eqn:E;
    [apply Z.ltb_lt in E|apply Z.ltb_ge in E]; lia.
Qed.

Lemma datetime_date_inv (y m d : Z) (dt : pydate) :
  datetime_date y m d = inr dt ->
  dt = mkdate y m d /\
  (1 <= y <= 9999 /\ 1 <= m <= 12 /\ 1 <= d <= days_in_month y m)%Z.
Proof.
  unfold datetime_date.
  destruct ((1 <=? y) && (y <=? 9999) && (1 <=? m) && (m <=? 12)
            && (1 <=? d) && (d <=? days_in_month y m))%Z eqn:C;
    [|discriminate].
  intro H. inversion H; subst.
  repeat (apply andb_prop in C; destruct C as [C ?]).
  repeat match goal with
         | H : (_ <=? _)%Z = true |- _ => apply Z.leb_le in H
         end.
  split; [reflexivity|lia].
Qed.

Lemma datetime_date_rejects (y m d : Z) :
  (m < 1 \/ 12 < m \/ d < 1 \/ days_in_month y m < d)%Z ->
  datetime_date y m d = inl (ValueError_date y m d).
Proof.
  intro H. unfold datetime_date.
  destruct ((1 <=? y) && (y <=? 9999) && (1 <=? m) && (m <=? 12)
            && (1 <=? d) && (d <=? days_in_month y m))%Z eqn:C;
    [|reflexivity].
  repeat (apply andb_prop in C; destruct C as [C ?]).
  repeat match goal with
         | H : (_ <=? _)%Z = true |- _ => apply Z.leb_le in H
         end.
  lia.
Qed.

(** X10.  The header and the date of a constructed table are the first
    bytes of its file: year, month and day are the bytes at offsets 1, 2
    and 3, the record count the four bytes from offset 4, header and
    record length the little-endian pairs at offsets 8 and 10, the
    language driver the byte at offset 29; the date is the calendar date
    of these three bytes, its year between 1980 and 2155. *)
Theorem header_and_date_of_a_constructed_table
    (filename_arg : string) (encoding_arg : option string)
    (ignorecase_arg lowernames_arg : bool)
    (parserclass_arg : option string -> FieldParser)
    (recfactory_arg : list FieldValue -> Rec) (load_arg raw_arg : bool)
    (w : world) (t : Table) (w' : world) :
  Table___init__ filename_arg encoding_arg ignorecase_arg lowernames_arg
    parserclass_arg recfactory_arg load_arg raw_arg w = (inr t, w') ->
  exists f hdr d,
    fs (filename t) = Some f /\ header t = Some hdr /\ date t = Some d /\
    year hdr = byte_at f 1 /\ month hdr = byte_at f 2 /\
    day hdr = byte_at f 3 /\
    numrecords hdr = le_uint (firstn 4 (skipn 4 f)) /\
    headerlen hdr = (byte_at f 8 + 256 * byte_at f 9)%N /\
    recordlen hdr = (byte_at f 10 + 256 * byte_at f 11)%N /\
    language_driver hdr = byte_at f 29 /\
    d = mkdate (expand_year (Z.of_N (byte_at f 1))) (Z.of_N (byte_at f 2))
          (Z.of_N (byte_at f 3)) /\
    (1980 <= d_year d <= 2155)%Z /\ (1 <= d_month d <= 12)%Z /\
    (1 <= d_day d <= days_in_month (d_year d) (d_month d))%Z.
Proof.
  intro H. apply init_anatomy in H.
  destruct H as [fname [f [hdr [w1 [names [flds [w2 [memofn [d [mf [recs [dels
    [_ [Hfs [Hh [_ [_ [_ [Hd [-> _]]]]]]]]]]]]]]]]]]]].
  exists f, hdr, d. cbn [filename header date].
  apply DBFHeader_read_layout in Hh. cbv zeta in Hh. rewrite opened_pos in Hh.
  cbn [Nat.add] in Hh.
  destruct Hh as [_ [_ [_ [_ [Hy [Hm [Hdy [Hn [Hl [Hr Hg]]]]]]]]]].
  apply datetime_date_inv in Hd. destruct Hd as [-> [_ [Bm Bd]]].
  rewrite Hy, Hm, Hdy in *. cbn [d_year d_month d_day].
  repeat (split; [first [assumption|reflexivity]|]).
  split; [|split; assumption].
  apply expand_year_of_byte. apply byte_to_N_bound.
Qed.

Lemma check_fields_inv (parser : option FieldParser) (flds : list DBFField) :
  check_fields parser flds = inr tt ->
  forall field, In field flds -> check_field parser field = inr tt.
Proof.
  induction flds as [|g flds IH]; intros H field Hin; [contradiction|].
  cbn [check_fields] in H.
  destruct (check_field parser g) as [e|[]] eqn:Hg; [discriminate|].
  destruct Hin as [<-|Hin]; [exact Hg|now apply IH].
Qed.

Lemma check_field_inv (parser : FieldParser) (field : DBFField) :
  check_field (Some parser) field = inr tt ->
  ~ bad_length field /\ field_type_supported parser (f_type field) = true.
Proof.
  intro H. split.
  - intro B.
    assert (O : bad_length field \/ unsupported parser field) by now left.
    apply check_field_offending in O. destruct O as [e [He _]]. congruence.
  - destruct (field_type_supported parser (f_type field)) eqn:S; [reflexivity|].
    assert (O : bad_length field \/ unsupported parser field) by now right.
    apply check_field_offending in O. destruct O as [e [He _]]. congruence.
Qed.

(** X11.  Every field of a constructed table has passed validation: the
    table has at least one field and the parser made by [parserclass] for
    the table's encoding; each field breaks none of the length rules of
    the types '0', 'I' and 'L', has a type the parser supports, and a
    length below 256. *)
Theorem constructed_fields_are_valid
    (filename_arg : string) (encoding_arg : option string)
    (ignorecase_arg lowernames_arg : bool)
    (parserclass_arg : option string -> FieldParser)
    (recfactory_arg : list FieldValue -> Rec) (load_arg raw_arg : bool)
    (w : world) (t : Table) (w' : world) :
  Table___init__ filename_arg encoding_arg ignorecase_arg lowernames_arg
    parserclass_arg recfactory_arg load_arg raw_arg w = (inr t, w') ->
  fields t <> [] /\
  field_names t = map (@f_name string) (fields t) /\
  _field_parser t = Some (parserclass_arg (encoding t)) /\
  forall field, In field (fields t) ->
    check_field (_field_parser t) field = inr tt /\
    ~ bad_length field /\
    field_type_supported (parserclass_arg (encoding t)) (f_type field) = true /\
    (f_length field < 256)%N.
Proof.
  intro H. apply init_anatomy in H.
  destruct H as [fname [f [hdr [w1 [names [flds [w2 [memofn [d [mf [recs [dels
    [_ [Hfs [Hh [Hl [Hne [Hc [_ [-> _]]]]]]]]]]]]]]]]]]]].
  cbn [fields field_names _field_parser encoding].
  apply header_loop_layout in Hl.
  destruct Hl as [added [Ef [En [_ [_ [_ D]]]]]].
  cbn [app] in Ef, En. subst flds names.
  split; [exact Hne|]. split; [reflexivity|]. split; [reflexivity|].
  intros field Hin.
  pose proof (check_fields_inv _ _ Hc _ Hin) as C.
  split; [exact C|].
  apply check_field_inv in C. destruct C as [C1 C2].
  split; [exact C1|]. split; [exact C2|].
  apply In_nth_error in Hin. destruct Hin as [i Hi].
  apply D in Hi. destruct Hi as [_ [_ [_ [_ [L _]]]]].
  rewrite L. apply byte_to_N_bound.
Qed.

Lemma has_memo_field (flds : list DBFField) :
  existsb (fun field => String.eqb "M" (f_type field)) flds = true <->
  exists field, In field flds /\ f_type field = "M"%string.
Proof.
  rewrite existsb_exists. split; intros [field [Hin Ht]]; exists field;
    (split; [exact Hin|]).
  - apply String.eqb_eq in Ht. congruence.
  - rewrite Ht. apply String.eqb_refl.
Qed.

(** X12.  What the constructor leaves in the table it returns: the
    encoding is never None (the one passed in, else the one guessed from
    the language driver, else 'latin1'); the file name is the argument,
    or what [ifind] found when [ignorecase] is set, and names a file
    that exists; the table name is made from the argument; [loaded]
    tells what [load] asked for, and [records] and [deleted] are lists
    when it is set and iterators when not; the memo file name is set
    exactly when the schema has a field of type 'M', and the memo file
    is open exactly when it has one and the table is not in raw mode. *)
Theorem constructor_postcondition
    (filename_arg : string) (encoding_arg : option string)
    (ignorecase_arg lowernames_arg : bool)
    (parserclass_arg : option string -> FieldParser)
    (recfactory_arg : list FieldValue -> Rec) (load_arg raw_arg : bool)
    (w : world) (t : Table) (w' : world) :
  Table___init__ filename_arg encoding_arg ignorecase_arg lowernames_arg
    parserclass_arg recfactory_arg load_arg raw_arg w = (inr t, w') ->
  (exists hdr e,
     header t = Some hdr /\ encoding t = Some e /\
     e = match encoding_arg with
         | Some given => given
         | None => match guess_encoding (language_driver hdr) with
                   | Some guessed => guessed
                   | None => "latin1"%string
                   end
         end) /\
  (exists f, fs (filename t) = Some f) /\
  (if ignorecase_arg then ifind filename_arg None = Some (filename t)
   else filename t = filename_arg) /\
  name t = str_lower (splitext_root (basename filename_arg)) /\
  raw t = raw_arg /\ lowernames t = lowernames_arg /\
  loaded t = Some load_arg /\
  (if load_arg
   then exists lr ld, records t = Some (AttrList lr) /\ deleted t = AttrList ld
   else records t = Some (AttrIterator (mkRecordIterator false)) /\
        deleted t = AttrIterator (mkRecordIterator true)) /\
  (memofilename t <> None <->
   exists field, In field (fields t) /\ f_type field = "M"%string) /\
  (memofile t <> None <->
   raw_arg = false /\
   exists field, In field (fields t) /\ f_type field = "M"%string).
Proof.
  intro H. apply init_anatomy in H.
  destruct H as [fname [f [hdr [w1 [names [flds [w2 [memofn [d [mf [recs [dels
    [Hr [Hfs [_ [_ [_ [_ [_ [-> [Hk [Hm Hmf]]]]]]]]]]]]]]]]]]]]]].
  cbn [header encoding filename name raw lowernames loaded records deleted
       memofilename memofile fields].
  split.
  { exists hdr. unfold resolve_encoding.
    destruct encoding_arg as [given|];
      [|destruct (guess_encoding (language_driver hdr))];
      eexists; repeat split. }
  split; [now exists f|].
  split.
  { unfold resolve_filename in Hr. destruct ignorecase_arg.
    - destruct (ifind filename_arg None) as [p|]; [|discriminate].
      destruct (truthy (Some p)); [|discriminate]. congruence.
    - congruence. }
  split; [reflexivity|]. split; [reflexivity|]. split; [reflexivity|].
  split; [reflexivity|].
  split.
  { destruct load_arg.
    - destruct Hk as [lr [ld [-> ->]]]. exists lr, ld. split; reflexivity.
    - destruct Hk as [-> ->]. split; reflexivity. }
  pose proof (has_memo_field flds) as HM.
  destruct (existsb (fun field => String.eqb "M" (f_type field)) flds).
  - destruct Hm as [Em Tr].
    assert (Hs : memofn <> None).
    { intro E. rewrite E in Tr. discriminate. }
    assert (Hx : exists field, In field flds /\ f_type field = "M"%string)
      by now apply HM.
    split; [split; [intros _; exact Hx|intros _; exact Hs]|].
    rewrite Tr in Hmf. cbn [andb] in Hmf. destruct raw_arg; cbn [negb] in Hmf.
    + subst mf. split; [congruence|]. intros [C _]. discriminate.
    + destruct Hmf as [path [m [_ [_ ->]]]].
      split; [intros _; split; [reflexivity|exact Hx]|discriminate].
  - subst memofn. cbn [truthy andb] in Hmf. subst mf.
    assert (Hx : ~ exists field, In field flds /\ f_type field = "M"%string).
    { intro X. apply HM in X. discriminate. }
    split; (split; [congruence|]).
    + intro X. contradiction.
    + intros [_ X]. contradiction.
Qed.

(** X13.  A header whose date is no calendar date (month 0 or above 12,
    day 0 or beyond the month's length: an all-zero date among them)
    makes the constructor raise the ValueError of [datetime.date], after
    the headers were read and validated and before a memo file is
    opened or a record read; the table cannot be constructed. *)
Theorem invalid_header_date_is_fatal
    (filename_arg : string) (encoding_arg : option string)
    (ignorecase_arg lowernames_arg : bool)
    (parserclass_arg : option string -> FieldParser)
    (recfactory_arg : list FieldValue -> Rec) (load_arg raw_arg : bool)
    (w : world) (fname : string) (f : file) (self1 : Table) (w1 : world) :
  resolve_filename filename_arg ignorecase_arg = inr fname ->
  fs fname = Some f ->
  _read_headers
    (new_table filename_arg encoding_arg ignorecase_arg lowernames_arg
       parserclass_arg recfactory_arg raw_arg fname) f (opened w fname)
    = (inr self1, w1) ->
  check_fields (Some (parserclass self1 (encoding self1))) (fields self1)
    = inr tt ->
  let y := expand_year (Z.of_N (byte_at f 1)) in
  let m := Z.of_N (byte_at f 2) in
  let d := Z.of_N (byte_at f 3) in
  (m < 1 \/ 12 < m \/ d < 1 \/ days_in_month y m < d)%Z ->
  Table___init__ filename_arg encoding_arg ignorecase_arg lowernames_arg
    parserclass_arg recfactory_arg load_arg raw_arg w
    = (inl (ValueError_date y m d), w1) /\
  is_ValueError (ValueError_date y m d) = true /\
  only_reads (opened w fname) w1.
Proof.
  intros Hres Hfs Hrh Hck y m d Hbad.
  pose proof (reads_only__read_headers
                (new_table filename_arg encoding_arg ignorecase_arg
                   lowernames_arg parserclass_arg recfactory_arg raw_arg fname)
                f (opened w fname)) as Hro.
  rewrite Hrh in Hro. cbn [snd] in Hro.
  split; [|split; [reflexivity|exact Hro]].
  unfold Table___init__, bind at 1, lift. rewrite Hres.
  unfold bind at 1, with_open. rewrite Hfs.
  unfold init_with_file, bind at 1. rewrite Hrh.
  unfold bind at 1, _check_headers, lift.
  cbn [set_field_parser _field_parser fields]. rewrite Hck.
  apply read_headers_inv in Hrh.
  destruct Hrh as [hdr [wh [names [flds [memofn [Hh [_ [_ [-> _]]]]]]]]].
  cbn [header set_field_parser]. unfold bind at 1, ret at 1.
  apply DBFHeader_read_layout in Hh. cbv zeta in Hh. rewrite opened_pos in Hh.
  cbn [Nat.add] in Hh.
  destruct Hh as [_ [_ [_ [_ [Hy [Hm [Hdy _]]]]]]].
  unfold bind at 1, lift. rewrite Hy, Hm, Hdy.
  fold y m d. rewrite (datetime_date_rejects y Hbad). reflexivity.
Qed.

(** X14.  A path that names no file: the constructor raises IOError
    without any file operation, when [ifind] finds nothing (or an empty
    name) under [ignorecase] and when the path does not exist without
    it; and a table whose file has gone yields no record and raises
    IOError from every traversal, again without a file operation. *)
Theorem missing_file_is_an_IOError
    (filename_arg : string) (encoding_arg : option string)
    (ignorecase_arg lowernames_arg : bool)
    (parserclass_arg : option string -> FieldParser)
    (recfactory_arg : list FieldValue -> Rec) (load_arg raw_arg : bool)
    (w : world) :
  (if ignorecase_arg then truthy (ifind filename_arg None) = false
   else fs filename_arg = None) ->
  Table___init__ filename_arg encoding_arg ignorecase_arg lowernames_arg
    parserclass_arg recfactory_arg load_arg raw_arg w
    = (inl (IOError_no_such_file filename_arg), w) /\
  is_IOError (IOError_no_such_file filename_arg) = true /\
  forall (self : Table) (d r : bool) (w0 : world),
    fs (filename self) = None ->
    _iter_records self d r w0
      = (([], Some (IOError_no_such_file (filename self))), w0) /\
    Table___iter__ (unload self) w0
      = (([], Some (IOError_no_such_file (filename self))), w0) /\
    Table___len__ (unload self) w0
      = (inl (IOError_no_such_file (filename self)), w0) /\
    load self w0 = (inl (IOError_no_such_file (filename self)), w0).
Proof.
  intro H. split; [|split; [reflexivity|]].
  - unfold Table___init__, bind at 1, lift, resolve_filename.
    destruct ignorecase_arg.
    + destruct (ifind filename_arg None) as [p|]; [|reflexivity].
      rewrite H. reflexivity.
    + unfold bind at 1, with_open. rewrite H. reflexivity.
  - intros self d r w0 E.
    assert (I : forall d0 r0,
              _iter_records self d0 r0 w0
              = (([], Some (IOError_no_such_file (filename self))), w0)).
    { intros d0 r0. unfold _iter_records. now rewrite E. }
    split; [apply I|].
    destruct (unloaded_iteration_self self w0) as [U _].
    destruct (len_unload self w0) as [L _].
    split; [rewrite U; apply I|].
    split; [rewrite L|unfold load, bind at 1, list_RecordIterator, bind at 1];
      unfold RecordIterator___len__, bind, gen_list; cbn [_deleted];
      rewrite I; reflexivity.
Qed.


(** ** Decoding a record that has no memo field *)

Lemma read_items_plain (self : Table) (parser : FieldParser) (f : file)
    (flds : list DBFField) :
  raw self = false ->
  _field_parser self = Some parser ->
  Forall (fun field => f_type field <> "M"%string) flds ->
  forall (w : world) (p : nat),
    sync f (w_pos w) p ->
    fst (read_items self f flds w) = parsed_items parser f p flds /\
    only_events is_read_or_parse w (snd (read_items self f flds w)).
Proof.
  intros R P F. induction F as [|field rest Hm F IH]; intros w p S.
  - split; [reflexivity | apply only_events_refl].
  - cbn [read_items parsed_items]. unfold bind.
    rewrite (@read_field_parsed self parser f field w R P). cbv zeta.
    rewrite (@sync_slice f (w_pos w) p (N.to_nat (f_length field)) S).
    set (data := firstn (N.to_nat (f_length field)) (skipn p f)).
    assert (O1 : only_events is_read_or_parse w (parsed_world w field data)).
    { exists [EvRead (N.to_nat (f_length field)) data; EvParse field data].
      split; [|reflexivity]. cbn [parsed_world log_event w_log].
      now rewrite <- app_assoc. }
    destruct (parse parser field data) as [e|value]; [split; [reflexivity|exact O1]|].
    apply String.eqb_neq in Hm. rewrite Hm.
    assert (S1 : sync f (w_pos (parsed_world w field data))
                   (p + N.to_nat (f_length field))).
    { cbn [parsed_world log_event w_pos]. subst data.
      rewrite <- (@sync_slice f (w_pos w) p (N.to_nat (f_length field)) S).
      now apply sync_read. }
    destruct (IH _ _ S1) as [IH1 IH2].
    destruct (read_items self f rest (parsed_world w field data))
      as [[e|items] w2]; cbn [fst snd] in *; rewrite <- IH1;
      (split; [reflexivity|eapply only_events_trans; eassumption]).
Qed.

(** X15.  Outside raw mode, a record of a schema without memo fields is
    built from what the field parser returns for the bytes of each
    field's slot, field by field in schema order; the first exception of
    the parser ends the decoding and is the exception of [_read_record];
    and decoding reads the file and calls the parser only: no memo file
    is asked. *)
Theorem plain_record_is_the_parsed_slots (self : Table) (parser : FieldParser)
    (f : file) (w : world) :
  raw self = false ->
  _field_parser self = Some parser ->
  Forall (fun field => f_type field <> "M"%string) (fields self) ->
  fst (_read_record self f w) =
    match parsed_items parser f (w_pos w) (fields self) with
    | inl e => inl e
    | inr items => inr (recfactory self items)
    end /\
  only_events is_read_or_parse w (snd (_read_record self f w)).
Proof.
  intros R P F.
  destruct (@read_items_plain self parser f (fields self) R P F w (w_pos w)
              (sync_refl f (w_pos w))) as [H O].
  unfold _read_record, bind.
  destruct (read_items self f (fields self) w) as [[e|items] w1];
    cbn [fst snd] in *; rewrite <- H; split; (reflexivity || exact O).
Qed.


(** ** [LegacyTable] *)

Lemma init_loaded_inv
    (filename_arg : string) (encoding_arg : option string)
    (ignorecase_arg lowernames_arg : bool)
    (parserclass_arg : option string -> FieldParser)
    (recfactory_arg : list FieldValue -> Rec) (raw_arg : bool)
    (w : world) (t : Table) (w' : world) :
  Table___init__ filename_arg encoding_arg ignorecase_arg lowernames_arg
    parserclass_arg recfactory_arg true raw_arg w = (inr t, w') ->
  exists self2 w2,
    Table___init__ filename_arg encoding_arg ignorecase_arg lowernames_arg
      parserclass_arg recfactory_arg false raw_arg w
      = (inr (unload self2), w2) /\
    load self2 w2 = (inr t, w').
Proof.
  unfold Table___init__, bind at 1 3, lift.
  destruct (resolve_filename filename_arg ignorecase_arg) as [e|fname];
    [discriminate|].
  unfold bind.
  destruct (with_open fname _ w) as [[e|self2] w2]; [discriminate|].
  intro H. exists self2, w2. split; [reflexivity|exact H].
Qed.

(** X16.  A [LegacyTable] is a table that was loaded, whatever the caller
    asked for: a [load] keyword is overridden, any value of it gives the
    same result, and a positional [load] makes the call fail before
    anything is done.  When the constructor returns, [Table] with
    [load=True] returns its inner table after the same operations; the
    list holds the records of that table, which are the records that
    iterating the table built without [load] yields; and iterating the
    inner table, or asking its length, answers from the list without
    touching the file. *)
Theorem legacy_table_is_a_loaded_table
    (filename_arg : string) (encoding_arg : option string)
    (ignorecase_arg lowernames_arg : bool)
    (parserclass_arg : option string -> FieldParser)
    (recfactory_arg : list FieldValue -> Rec)
    (load_arg : load_passing) (raw_arg : bool)
    (w : world) (lt : LegacyTable) (w' : world) :
  LegacyTable___init__ filename_arg encoding_arg ignorecase_arg lowernames_arg
    parserclass_arg recfactory_arg load_arg raw_arg w = (inr lt, w') ->
  (forall b, load_arg <> LoadPositional b) /\
  Table___init__ filename_arg encoding_arg ignorecase_arg lowernames_arg
    parserclass_arg recfactory_arg true raw_arg w
    = (inr (legacy_table lt), w') /\
  loaded (legacy_table lt) = Some true /\
  records (legacy_table lt) = Some (AttrList (legacy_items lt)) /\
  (exists t0 w0,
     Table___init__ filename_arg encoding_arg ignorecase_arg lowernames_arg
       parserclass_arg recfactory_arg false raw_arg w = (inr t0, w0) /\
     forall w2, fst (Table___iter__ t0 w2) = (legacy_items lt, None)) /\
  (forall w2,
     Table___iter__ (legacy_table lt) w2 = ((legacy_items lt, None), w2) /\
     Table___len__ (legacy_table lt) w2
       = (inr (length (legacy_items lt)), w2)) /\
  (forall b,
     LegacyTable___init__ filename_arg encoding_arg ignorecase_arg
       lowernames_arg parserclass_arg recfactory_arg (LoadPositional b)
       raw_arg w = (inl (Raised "TypeError"), w)) /\
  (forall b,
     LegacyTable___init__ filename_arg encoding_arg ignorecase_arg
       lowernames_arg parserclass_arg recfactory_arg (LoadKeyword b)
       raw_arg w = (inr lt, w')).
Proof.
  intro H.
  assert (K : (forall b, load_arg <> LoadPositional b) /\
              (table <- Table___init__ filename_arg encoding_arg ignorecase_arg
                          lowernames_arg parserclass_arg recfactory_arg true
                          raw_arg ;;
               items <- match LegacyTable___getattr__ (mkLegacyTable [] table)
                                records with
                        | None => raise (AttributeError "records")
                        | Some (AttrList l) => ret l
                        | Some (AttrIterator it) => list_RecordIterator table it
                        end ;;
               ret (mkLegacyTable items (assign_records table (AttrList items))))
                w = (inr lt, w')).
  { unfold LegacyTable___init__ in H.
    destruct load_arg; try discriminate; (split; [intros b0; discriminate|exact H]). }
  clear H. destruct K as [NP H]. split; [exact NP|].
  assert (B : forall b,
            LegacyTable___init__ filename_arg encoding_arg ignorecase_arg
              lowernames_arg parserclass_arg recfactory_arg (LoadKeyword b)
              raw_arg w = (inr lt, w')) by (intro b; exact H).
  unfold bind at 1 in H.
  destruct (Table___init__ filename_arg encoding_arg ignorecase_arg
              lowernames_arg parserclass_arg recfactory_arg true raw_arg w)
    as [[e|t] w1] eqn:Hi; [discriminate|].
  pose proof Hi as Hl. apply init_loaded_inv in Hl.
  destruct Hl as [self2 [w2 [Hu Hl]]].
  pose proof (load_then_unloaded _ _ Hl) as L.
  destruct L as [recs [dels [Hrec [Hdel L]]]].
  apply load_inv in Hl. destruct Hl as [recs' [dels' [wa [wa' [wb [-> _]]]]]].
  cbn [records set_records] in Hrec. inversion Hrec; subst recs'. clear Hrec.
  unfold LegacyTable___getattr__ in H. cbn [legacy_table records set_records] in H.
  unfold bind, ret in H. inversion H; subst. clear H.
  cbn [legacy_table legacy_items assign_records set_records encoding ignorecase
       lowernames parserclass recfactory raw name deleted filename
       memofilename header fields field_names _field_parser date memofile
       records loaded].
  split; [reflexivity|]. split; [reflexivity|]. split; [reflexivity|].
  split.
  { exists (unload self2), w2. split; [exact Hu|].
    intro w3. destruct (L w3) as [L1 _]. exact L1. }
  split; [intro w3; split; reflexivity|].
  split; [intro b; reflexivity|exact B].
Qed.


(** ** Traversals of an unloaded table can be repeated *)

(** X17.  What iterating an unloaded table yields, and what [len()] of it
    returns, does not depend on what was done before: every traversal
    opens the file anew and seeks to the header length, so the records,
    the deleted records, the length and the exception, if any, are the
    same from any earlier state of the file position and of the log. *)
Theorem unloaded_iteration_is_repeatable (self : Table) (w1 w2 : world) :
  fst (Table___iter__ (unload self) w1) = fst (Table___iter__ (unload self) w2) /\
  fst (iterate_deleted (unload self) w1) = fst (iterate_deleted (unload self) w2) /\
  fst (Table___len__ (unload self) w1) = fst (Table___len__ (unload self) w2) /\
  forall deleted read,
    fst (_iter_records self deleted read w1)
      = fst (_iter_records self deleted read w2).
Proof.
  destruct (unloaded_iteration_self self w1) as [A1 B1].
  destruct (unloaded_iteration_self self w2) as [A2 B2].
  destruct (len_unload self w1) as [L1 _].
  destruct (len_unload self w2) as [L2 _].
  rewrite A1, A2, B1, B2, L1, L2.
  split; [apply iter_records_any_world|].
  split; [apply iter_records_any_world|].
  split; [|intros; apply iter_records_any_world].
  unfold RecordIterator___len__, bind, gen_list. cbn [_deleted].
  pose proof (iter_records_any_world self false false w1 w2) as E.
  destruct (_iter_records self false false w1) as [[ys1 [e1|]] wa],
           (_iter_records self false false w2) as [[ys2 [e2|]] wb];
    cbn [fst] in E |- *; inversion E; reflexivity.
Qed.

(** ** Validation accepts the schemas that break no rule *)

(** X18.  With a field parser in place, [_check_headers] returns without
    an exception exactly when no field breaks a length rule and the
    parser supports the type of every field; and it never touches the
    file, whatever it finds. *)
Theorem validation_accepts_conforming_schemas (self : Table)
    (parser : FieldParser) (w : world) :
  _field_parser self = Some parser ->
  (_check_headers self w = (inr tt, w) <->
   forall field, In field (fields self) ->
     ~ bad_length field /\
     field_type_supported parser (f_type field) = true) /\
  snd (_check_headers self w) = w.
Proof.
  intro P. unfold _check_headers, lift. rewrite P. split; [|reflexivity].
  split.
  - intros H field Hin.
    assert (C : check_fields (Some parser) (fields self) = inr tt) by congruence.
    apply check_field_inv. exact (check_fields_inv _ _ C _ Hin).
  - intro H. f_equal. apply check_fields_passes.
    intros field Hin. destruct (H field Hin) as [H1 H2].
    split; [exact H1|]. unfold unsupported. congruence.
Qed.


(** ** A traversal, boundary by boundary *)

(** A turn that goes on leaves the position one marker and one record
    further, or at the end of the file when the record was cut short. *)
Lemma iter_step_sync (self : Table) (f : file) (deleted read : bool)
    (w : world) (s : step_result Rec) (w1 : world) (p : nat) :
  iter_step self f deleted read w = (inr s, w1) ->
  s <> StepReturn ->
  sync f (w_pos w) p ->
  sync f (w_pos w1) (p + 1 + N.to_nat (record_size (fields self))).
Proof.
  intros H Hs S. rewrite iter_step_eq in H. unfold peek in H.
  destruct (nth_error f (w_pos w)) as [b|] eqn:Hb;
    [|inversion H; congruence].
  assert (Lt : w_pos w < length f) by (apply nth_error_Some; congruence).
  assert (Ep : w_pos w = p) by (destruct S as [E|[A _]]; [exact E|lia]).
  subst p.
  destruct (Byte.eqb b x1a); [inversion H; congruence|].
  assert (D : forall s0 w2,
             decode_record self f (after_marker w [b]) = (inr s0, w2) ->
             sync f (w_pos w2)
               (w_pos w + 1 + N.to_nat (record_size (fields self)))).
  { intros s0 w2 Hd. apply decode_record_inv in Hd.
    destruct Hd as [r [_ Hr]].
    eapply read_record_sync; [exact Hr|]. simpl. apply sync_refl. }
  assert (P : forall s0 w2,
             pass_record self f (after_marker w [b]) = (inr s0, w2) ->
             sync f (w_pos w2)
               (w_pos w + 1 + N.to_nat (record_size (fields self)))).
  { intros s0 w2 Hd. rewrite pass_record_eq in Hd. inversion Hd; subst.
    simpl. apply sync_refl. }
  assert (C : forall s0 w2,
             count_record self f (after_marker w [b]) = (inr s0, w2) ->
             sync f (w_pos w2)
               (w_pos w + 1 + N.to_nat (record_size (fields self)))).
  { intros s0 w2 Hd. rewrite count_record_eq in Hd. inversion Hd; subst.
    simpl. apply sync_refl. }
  destruct (Byte.eqb b x20), (Byte.eqb b x2a), deleted, read;
    try discriminate; eauto.
Qed.

(** The boundary reached after [k] turns lies [k] records further. *)
Lemma reaches_sync (self : Table) (f : file) (deleted read : bool)
    (k : nat) (w : world) (ys : list (option Rec)) (wb : world) :
  reaches self f deleted read k w ys wb ->
  forall p, sync f (w_pos w) p ->
    sync f (w_pos wb) (p + k * (1 + N.to_nat (record_size (fields self)))).
Proof.
  induction 1 as [w|k w w1 wb v ys Hs _ IH|k w w1 wb ys Hs _ IH]; intros p Hy.
  - now rewrite Nat.mul_0_l, Nat.add_0_r.
  - replace (p + S k * (1 + N.to_nat (record_size (fields self))))
      with (p + 1 + N.to_nat (record_size (fields self))
            + k * (1 + N.to_nat (record_size (fields self)))) by lia.
    apply IH. eapply iter_step_sync; [exact Hs|discriminate|exact Hy].
  - replace (p + S k * (1 + N.to_nat (record_size (fields self))))
      with (p + 1 + N.to_nat (record_size (fields self))
            + k * (1 + N.to_nat (record_size (fields self)))) by lia.
    apply IH. eapply iter_step_sync; [exact Hs|discriminate|exact Hy].
Qed.

Lemma reaches_turns (self : Table) (f : file) (deleted read : bool)
    (k : nat) (w : world) (ys : list (option Rec)) (wb : world) :
  reaches self f deleted read k w ys wb ->
  w_pos w + k <= w_pos wb /\ (k = 0 \/ w_pos w + k <= length f).
Proof.
  induction 1 as [w|k w w1 wb v ys Hs _ IH|k w w1 wb ys Hs _ IH].
  - split; [lia|now left].
  - apply iter_step_progress in Hs; [|discriminate]. lia.
  - apply iter_step_progress in Hs; [|discriminate]. lia.
Qed.

(** A loop with fuel for the rest of the file goes through the
    boundaries that [reaches] lists, and yields on its way what was
    yielded up to each of them. *)
Lemma reaches_prefix (self : Table) (f : file) (deleted read : bool)
    (k : nat) (w : world) (ys : list (option Rec)) (wb : world) :
  reaches self f deleted read k w ys wb ->
  forall n, length f - w_pos w < n ->
    iter_loop n self f deleted read w =
      (let '((ys', e), w') := iter_loop n self f deleted read wb in
       ((ys ++ ys', e), w')).
Proof.
  induction 1 as [w|k w w1 wb v ys Hs R IH|k w w1 wb ys Hs R IH]; intros n B.
  - destruct (iter_loop n self f deleted read w) as [[ys' e] w']. reflexivity.
  - destruct n as [|m]; [lia|].
    pose proof (iter_step_progress _ _ _ _ _ Hs ltac:(discriminate)) as [P1 P2].
    pose proof (reaches_turns R) as [T _].
    assert (F : iter_loop (S m) self f deleted read wb
                = iter_loop m self f deleted read wb).
    { replace (S m) with (m + 1) by lia. apply iter_loop_fuel_enough. lia. }
    rewrite F. cbn [iter_loop]. rewrite Hs.
    rewrite (IH m) by lia.
    destruct (iter_loop m self f deleted read wb) as [[ys' e] w']. reflexivity.
  - destruct n as [|m]; [lia|].
    pose proof (iter_step_progress _ _ _ _ _ Hs ltac:(discriminate)) as [P1 P2].
    pose proof (reaches_turns R) as [T _].
    assert (F : iter_loop (S m) self f deleted read wb
                = iter_loop m self f deleted read wb).
    { replace (S m) with (m + 1) by lia. apply iter_loop_fuel_enough. lia. }
    rewrite F. cbn [iter_loop]. rewrite Hs.
    rewrite (IH m) by lia. reflexivity.
Qed.

(** A loop with fuel for the rest of the file ends at a boundary it
    reaches, by a turn that returns or by a turn that raises: the fuel
    is not what ends it. *)
Lemma iter_loop_ends (self : Table) (f : file) (deleted read : bool) :
  forall (n : nat) (w : world),
    length f - w_pos w < n ->
    exists k ys wb,
      reaches self f deleted read k w ys wb /\
      ((exists w',
          iter_step self f deleted read wb = (inr StepReturn, w') /\
          iter_loop n self f deleted read w = ((ys, None), w')) \/
       (exists err w',
          iter_step self f deleted read wb = (inl err, w') /\
          iter_loop n self f deleted read w = ((ys, Some err), w'))).
Proof.
  induction n as [|m IH]; intros w B; [lia|].
  cbn [iter_loop].
  destruct (iter_step self f deleted read w) as [[e|[|v|]] w1] eqn:Hs.
  - exists 0, [], w. split; [constructor|]. right. exists e, w1.
    split; [exact Hs|reflexivity].
  - exists 0, [], w. split; [constructor|]. left. exists w1.
    split; [exact Hs|reflexivity].
  - pose proof (iter_step_progress _ _ _ _ _ Hs ltac:(discriminate)) as [P1 P2].
    destruct (IH w1 ltac:(lia)) as [k [ys [wb [R E]]]].
    exists (S k), (v :: ys), wb.
    split; [eapply reaches_yield; eassumption|].
    destruct E as [[w' [E1 E2]]|[err [w' [E1 E2]]]]; rewrite E2.
    + left. exists w'. split; [exact E1|reflexivity].
    + right. exists err, w'. split; [exact E1|reflexivity].
  - pose proof (iter_step_progress _ _ _ _ _ Hs ltac:(discriminate)) as [P1 P2].
    destruct (IH w1 ltac:(lia)) as [k [ys [wb [R E]]]].
    exists (S k), ys, wb.
    split; [eapply reaches_next; eassumption|].
    destruct E as [[w' [E1 E2]]|[err [w' [E1 E2]]]]; rewrite E2.
    + left. exists w'. split; [exact E1|reflexivity].
    + right. exists err, w'. split; [exact E1|reflexivity].
Qed.

(** C1.  A traversal of the record area, that is [_iter_records] for
    either class of records, counting or decoding, starts at the header
    length and goes from record boundary to record boundary: the
    boundary reached after [k] turns lies at header length + k * (1 +
    record size), or past the end of the file when that is.  At every
    boundary [wb] that it reaches, its turn reads exactly one byte there
    (nothing at the end of the stream) and goes by it: 0x20 is an active
    record and 0x2A a deleted one, which is decoded, counted or skipped,
    and nothing else; at 0x1A or the end of the stream the traversal
    ends normally, having yielded what it yielded up to there; at any
    other byte the traversal ends with the invalid record separator
    error for that byte, having yielded what it yielded up to there, in
    the world that the read of that one byte left: nothing is read or
    done after it.  And every traversal ends at a boundary it reaches,
    within length(file) + 1 turns, by a turn that returns or raises. *)
Theorem traversal_classifies_each_marker (self : Table) (data : bytes)
    (hdr : DBFHeader) (deleted read : bool) (w : world) :
  fs (filename self) = Some data ->
  header self = Some hdr ->
  let start := snd (f_seek (headerlen hdr) SEEK_SET (opened w (filename self))) in
  (forall k ys wb,
     reaches self data deleted read k start ys wb ->
     let marker := peek data wb in
     let sep := match marker with Some b => [b] | None => [] end in
     let w1 := after_marker wb sep in
     let wanted := if read then decode_record self data
                   else count_record self data in
     sync data (w_pos wb)
       (N.to_nat (headerlen hdr)
        + k * (1 + N.to_nat (record_size (fields self)))) /\
     match classify marker with
     | Active =>
         iter_step self data deleted read wb =
           (if deleted then pass_record self data else wanted) w1
     | Deleted =>
         iter_step self data deleted read wb =
           (if deleted then wanted else pass_record self data) w1
     | Terminal =>
         iter_step self data deleted read wb = (inr StepReturn, w1) /\
         _iter_records self deleted read w = ((ys, None), w1)
     | Invalid =>
         iter_step self data deleted read wb =
           (inl (IOError_invalid_record_separator sep), w1) /\
         _iter_records self deleted read w =
           ((ys, Some (IOError_invalid_record_separator sep)), w1)
     end) /\
  (exists k ys wb,
     reaches self data deleted read k start ys wb /\
     k <= length data /\
     ((exists w',
         iter_step self data deleted read wb = (inr StepReturn, w') /\
         _iter_records self deleted read w = ((ys, None), w')) \/
      (exists err w',
         iter_step self data deleted read wb = (inl err, w') /\
         _iter_records self deleted read w = ((ys, Some err), w')))).
Proof.
  intros E Eh start.
  assert (I : _iter_records self deleted read w
              = iter_loop (S (length data)) self data deleted read start).
  { unfold _iter_records. rewrite E, Eh. reflexivity. }
  split.
  - intros k ys wb R. cbv zeta.
    split; [apply (reaches_sync R); apply sync_refl|].
    pose proof (iter_step_classifies self data deleted read wb) as C.
    cbv zeta in C.
    pose proof (reaches_prefix R) as P.
    specialize (P (S (length data)) ltac:(lia)).
    destruct (classify (peek data wb)).
    + exact C.
    + exact C.
    + destruct C as [C1 C2]. split; [exact C1|].
      rewrite I, P, (C2 (length data)). now rewrite app_nil_r.
    + destruct C as [C1 C2]. split; [exact C1|].
      rewrite I, P, (C2 (length data)). now rewrite app_nil_r.
  - destruct (@iter_loop_ends self data deleted read (S (length data)) start
                ltac:(lia)) as [k [ys [wb [R En]]]].
    exists k, ys, wb. split; [exact R|].
    split; [destruct (reaches_turns R) as [_ [->|T]]; lia|].
    rewrite I. exact En.
Qed.

(** X2.  The loop of [_iter_records] always ends.  From any position it
    reaches, within length(file) turns that yield or skip a record, a
    boundary at which the next turn returns or raises; that turn ends the
    loop, with what was yielded on the way and no exception or the
    exception of that turn, and this is the result however many more
    turns the loop is allowed: the loop is never cut short.  A traversal
    is this loop run from the header length of the table's file. *)
Theorem traversal_always_ends (self : Table) (f : file) (deleted read : bool)
    (w : world) :
  (exists k ys wb,
     reaches self f deleted read k w ys wb /\
     k <= length f - w_pos w /\
     ((exists w',
         iter_step self f deleted read wb = (inr StepReturn, w') /\
         forall extra,
           iter_loop (S (length f) + extra) self f deleted read w
             = ((ys, None), w')) \/
      (exists err w',
         iter_step self f deleted read wb = (inl err, w') /\
         forall extra,
           iter_loop (S (length f) + extra) self f deleted read w
             = ((ys, Some err), w')))) /\
  (forall w0 hdr,
     fs (filename self) = Some f ->
     header self = Some hdr ->
     _iter_records self deleted read w0
       = iter_loop (S (length f)) self f deleted read
           (snd (f_seek (headerlen hdr) SEEK_SET (opened w0 (filename self))))).
Proof.
  split.
  - destruct (@iter_loop_ends self f deleted read (S (length f)) w ltac:(lia))
      as [k [ys [wb [R En]]]].
    exists k, ys, wb. split; [exact R|].
    split; [destruct (reaches_turns R) as [_ [->|T]]; lia|].
    destruct En as [[w' [E1 E2]]|[err [w' [E1 E2]]]].
    + left. exists w'. split; [exact E1|]. intro extra.
      rewrite iter_loop_fuel_enough by lia. exact E2.
    + right. exists err, w'. split; [exact E1|]. intro extra.
      rewrite iter_loop_fuel_enough by lia. exact E2.
  - intros w0 hdr E Eh. unfold _iter_records. now rewrite E, Eh.
Qed.


(** ** The loop over the field headers is never cut short *)





End Dbf.

(** * The properties on the sample tables *)

Abbreviation sample_init path load_arg raw_arg :=
  (Table___init__ Sample.files Sample.ifind Sample.guess_encoding
     Sample.parse_string Sample.FPT Sample.same Sample.same Sample.same
     path None true false Sample.parserclass Sample.recfactory
     load_arg raw_arg Sample.w0).

Abbreviation sample_field nm ty len :=
  (mkDBFField nm%string ty%string 0%N len%N 0%N 0%N 0%N 0%N 0%N 0%N
     (repeat x00 7) 0%N).

Abbreviation sample_header hlen rlen :=
  (mkDBFHeader 3 95 7 26 0 hlen rlen 0 0 0 0 0 0 0 3 0).

(** The table that the constructor builds from a sample file, unloaded. *)
Abbreviation sample_table fname raw_arg memofn hdr flds names mf :=
  (mkTable (Some "cp1252"%string) true false Sample.parserclass
     Sample.recfactory raw_arg fname%string
     (AttrIterator (list FieldValue) (mkRecordIterator true))
     fname%string memofn (Some hdr) flds names
     (Some (Sample.parserclass (Some "cp1252"%string)))
     (Some (mkdate 1995 7 26)) mf
     (Some (AttrIterator (list FieldValue) (mkRecordIterator false)))
     (Some false)).

Abbreviation people_table raw_arg :=
  (sample_table "people.dbf" raw_arg (@None string) (sample_header 97%N 6%N)
     [sample_field "NAME" "C" 3; sample_field "AGE" "N" 2]
     ["NAME"; "AGE"]%string (@None MemoFile)).

Abbreviation notes_table raw_arg mf :=
  (sample_table "notes.dbf" raw_arg (Some "notes.fpt"%string)
     (sample_header 97%N 8%N)
     [sample_field "TITLE" "C" 3; sample_field "NOTE" "M" 4]
     ["TITLE"; "NOTE"]%string mf).

Lemma expand_year_century_witness :
  expand_year 79 = 2079%Z /\ expand_year 80 = 1980%Z.
Proof.
  destruct (expand_year_century 79) as [H1 _].
  destruct (expand_year_century 80) as [_ [H2 _]].
  split; [apply H1 | apply H2]; lia.
Defined.

Lemma zero_fields_fatal_witness :
  exists w2,
    sample_init "empty.dbf"%string false false
      = (inl (ValueError_no_fields "empty.dbf"), w2) /\
    is_ValueError (ValueError_no_fields "empty.dbf") = true /\
    only_reads (opened Sample.w0 "empty.dbf") w2.
Proof.
  eexists.
  eapply (@zero_fields_fatal _ Sample.files Sample.ifind Sample.guess_encoding
            Sample.parse_string Sample.FPT Sample.same Sample.same Sample.same
            "empty.dbf"%string None true false Sample.parserclass
            Sample.recfactory false false Sample.w0);
    vm_compute; reflexivity.
Defined.

Lemma schema_validation_rejects_witness :
  (exists e w1,
     sample_init "badlen.dbf"%string false false = (inl e, w1) /\
     is_ValueError e = true /\
     only_reads (opened Sample.w0 "badlen.dbf") w1) /\
  check_field (Some (Sample.parserclass None)) (sample_field "ID" "I" 5)
    = inl (ValueError_type_I_length 5) /\
  check_field (Some (Sample.parserclass None)) (sample_field "WHAT" "Z" 2)
    = inl (ValueError_unknown_field_type "Z") /\
  (* a parser without the type I: the length rule is tested first *)
  check_field (Some (Sample.text_parserclass None)) (sample_field "ID" "I" 5)
    = inl (ValueError_type_I_length 5).
Proof.
  destruct (@schema_validation_rejects (list FieldValue) Sample.files
              Sample.ifind Sample.guess_encoding Sample.parse_string Sample.FPT
              Sample.same Sample.same Sample.same) as [F [_ H]].
  split; [|split; [|split]].
  - edestruct (H "badlen.dbf"%string None true false Sample.parserclass
                 Sample.recfactory false false Sample.w0) as [e [H1 [H2 H3]]].
    + vm_compute. reflexivity.
    + vm_compute. reflexivity.
    + vm_compute. reflexivity.
    + left. reflexivity.
    + left. right. left. split; [reflexivity | discriminate].
    + exists e. eexists. split; [exact H1|]. split; [exact H2 | exact H3].
  - destruct (F (Sample.parserclass None) (sample_field "ID" "I" 5))
      as [_ [HI _]].
    apply HI; [reflexivity | discriminate].
  - destruct (F (Sample.parserclass None) (sample_field "WHAT" "Z" 2))
      as [_ [_ [_ [_ HU]]]].
    apply HU; [reflexivity|].
    intros [[T _]|[[T _]|[T _]]]; discriminate.
  - destruct (F (Sample.text_parserclass None) (sample_field "ID" "I" 5))
      as [_ [HI _]].
    apply HI; [reflexivity | discriminate].
Defined.

Lemma active_count_agrees_witness :
  exists w ys w',
    sample_init "people.dbf"%string false false = (inr (people_table false), w) /\
    _iter_records Sample.files Sample.parse_string (people_table false)
      false true Sample.w0 = ((ys, None), w') /\
    length ys = 2 /\
    forall ws, exists ws',
      RecordIterator___len__ Sample.files Sample.parse_string (people_table false)
        (mkRecordIterator false) ws = (inr (length ys), ws') /\
      Table___len__ Sample.files Sample.parse_string
        (unload (people_table false)) ws = (inr (length ys), ws') /\
      only_events is_file_event ws ws' /\
      length ys
        = count_byte x20 (table_markers (people_table false) Sample.people_dbf).
Proof.
  do 3 eexists.
  split; [vm_compute; reflexivity|].
  split; [vm_compute; reflexivity|].
  split; [reflexivity|].
  eapply active_count_agrees with (w := Sample.w0); vm_compute; reflexivity.
Defined.

Lemma loaded_equals_unloaded_witness :
  exists recs dels,
    fst (Table___iter__ Sample.files Sample.parse_string
           (unload (people_table false)) Sample.w0) = (recs, None) /\
    fst (iterate_deleted Sample.files Sample.parse_string
           (unload (people_table false)) Sample.w0) = (dels, None) /\
    length recs = 2 /\ length dels = 1 /\
    exists t' w',
      load Sample.files Sample.parse_string (people_table false) Sample.w0
        = (inr t', w') /\
      records t' = Some (AttrList recs) /\
      deleted t' = AttrList dels /\
      Table___iter__ Sample.files Sample.parse_string t' Sample.w0
        = ((recs, None), Sample.w0) /\
      iterate_deleted Sample.files Sample.parse_string t' Sample.w0
        = ((dels, None), Sample.w0).
Proof.
  do 2 eexists.
  split; [vm_compute; reflexivity|].
  split; [vm_compute; reflexivity|].
  split; [reflexivity|]. split; [reflexivity|].
  eapply (proj2 (@loaded_equals_unloaded _ Sample.files Sample.parse_string _))
    with (w0 := Sample.w0) (w1 := Sample.w0); vm_compute; reflexivity.
Defined.

Lemma raw_record_is_slot_bytes_witness :
  exists w,
    sample_init "people.dbf"%string false true = (inr (people_table true), w) /\
    exists w',
      _read_record Sample.parse_string (people_table true) Sample.people_dbf
        (mkworld 98 [])
        = (inr [mkFieldValue "NAME" (PyBytes (Sample.ascii_bytes "abc"));
                mkFieldValue "AGE" (PyBytes (Sample.ascii_bytes "12"))], w') /\
      only_reads (mkworld 98 []) w'.
Proof.
  eexists. split; [vm_compute; reflexivity|].
  destruct (@raw_record_is_slot_bytes _ Sample.parse_string (people_table true)
              Sample.people_dbf (mkworld 98 []) eq_refl) as [w' [H [O _]]].
  exists w'. split; [rewrite H; reflexivity | exact O].
Defined.

(** C8 as stated fails where the file ends inside a record: the table
    built in raw mode from [truncated_dbf] holds one record, whose NAME
    field, declared with 5 bytes, has the 2 bytes that the file still
    held. *)
Lemma raw_value_shorter_than_field :
  exists t w,
    Table___init__ Sample.files Sample.ifind Sample.guess_encoding
      Sample.parse_string Sample.FPT Sample.same Sample.same Sample.same
      "truncated.dbf"%string None true false Sample.parserclass
      Sample.recfactory true true Sample.w0 = (inr t, w) /\
    raw t = true /\
    fields t = [sample_field "NAME" "C" 5] /\
    records t
      = Some (AttrList
                [Some [mkFieldValue "NAME" (PyBytes (Sample.ascii_bytes "ab"))]]) /\
    length (Sample.ascii_bytes "ab") <> N.to_nat 5.
Proof.
  do 2 eexists.
  split; [vm_compute; reflexivity|].
  split; [reflexivity|]. split; [reflexivity|]. split; [reflexivity|].
  vm_compute. discriminate.
Defined.


Lemma raw_mode_leaves_memo_unopened_witness :
  (exists w,
     sample_init "notes.dbf"%string false true
       = (inr (notes_table true None), w) /\
     raw (notes_table true None) = true /\
     memofile (notes_table true None) = None /\
     only_events is_file_event Sample.w0 w) /\
  (exists w2,
     sample_init "orphan.dbf"%string true true
       = (inl (IOError_missing_memo_file "orphan.dbf.fpt"), w2)).
Proof.
  pose proof (@raw_mode_leaves_memo_unopened (list FieldValue) Sample.files Sample.ifind
                Sample.guess_encoding Sample.parse_string Sample.FPT
                Sample.same Sample.same Sample.same) as T.
  split.
  - eexists. split; [vm_compute; reflexivity|].
    match goal with
    | |- _ /\ _ /\ only_events _ _ ?w =>
        destruct (proj1 (T "notes.dbf"%string None true false Sample.parserclass
                           Sample.recfactory false) Sample.w0
                    (notes_table true None) w)
          as [R [Mf [O _]]]; [vm_compute; reflexivity|]
    end.
    split; [exact R|]. split; [exact Mf | exact O].
  - eexists.
    eapply (proj2 (T "orphan.dbf"%string None true false Sample.parserclass
                     Sample.recfactory true) true Sample.w0 "orphan.dbf"%string).
    + vm_compute. reflexivity.
    + vm_compute. reflexivity.
    + vm_compute. reflexivity.
    + vm_compute. reflexivity.
    + eexists. split; [right; left; reflexivity | reflexivity].
    + reflexivity.
Defined.

(** C5 on a file that ends where the next descriptor would begin: the
    read at that boundary returns no byte, the loop is not left, a
    descriptor is read with nothing in front, and the construction fails
    in that read instead of ending the field headers. *)
Theorem field_headers_not_ended_by_eof :
  exists w,
    Table___init__ Sample.files Sample.ifind Sample.guess_encoding
      Sample.parse_string Sample.FPT Sample.same Sample.same Sample.same
      "nocr.dbf"%string None true false Sample.parserclass Sample.recfactory
      false false Sample.w0 = (inl (struct_error 0), w) /\
    length Sample.nocr_dbf = 64 /\
    skipn 4 (w_log w) = [EvRead 1 []; EvRead 32 []].
Proof.
  eexists. split; [|split]; vm_compute; reflexivity.
Qed.

(** * The further properties on the sample tables *)

Abbreviation corrupt_table :=
  (sample_table "corrupt.dbf" false (@None string) (sample_header 97%N 6%N)
     [sample_field "NAME" "C" 3; sample_field "AGE" "N" 2]
     ["NAME"; "AGE"]%string (@None MemoFile)).

Abbreviation fresh_table fname :=
  (mkTable None true false Sample.parserclass Sample.recfactory false
     fname%string (AttrList (@nil (option (list FieldValue))))
     fname%string None None [] [] None None None None None).

Abbreviation people_record nm age :=
  (Some [mkFieldValue "NAME" (PyStr nm%string);
         mkFieldValue "AGE" (PyBytes (Sample.ascii_bytes age%string))]).

Abbreviation loaded_people_table :=
  (set_records (people_table false)
     (AttrList [people_record "abc" "12"; people_record "def" "56"])
     (AttrList [people_record "xyz" "34"]) true).

Abbreviation headers_read_table :=
  (mkTable (Some "cp1252"%string) true false Sample.parserclass
     Sample.recfactory false "people.dbf"%string
     (AttrList (@nil (option (list FieldValue))))
     "people.dbf"%string None (Some (sample_header 97%N 6%N))
     [sample_field "NAME" "C" 3; sample_field "AGE" "N" 2]
     ["NAME"; "AGE"]%string None None None None None).

(** people.dbf has two active records and a deleted one. *)
Lemma record_classes_partition_witness :
  exists w' m,
    RecordIterator___len__ Sample.files Sample.parse_string (people_table false)
      (mkRecordIterator false) Sample.w0 = (inr 2, w') /\
    RecordIterator___len__ Sample.files Sample.parse_string (people_table false)
      (mkRecordIterator true) Sample.w0 = (inr m, w') /\
    m = 1 /\
    2 + m = length (table_markers (people_table false) Sample.people_dbf).
Proof.
  eexists.
  edestruct (@record_classes_partition (list FieldValue) Sample.files
               Sample.parse_string (people_table false) Sample.people_dbf false
               Sample.w0) as [m [H1 [_ [H3 [H4 _]]]]].
  - vm_compute. reflexivity.
  - vm_compute. reflexivity.
  - exists m. split; [vm_compute; reflexivity|]. split; [exact H1|].
    split; [rewrite H3; vm_compute; reflexivity | exact H4].
Defined.

(** corrupt.dbf: the second marker is the byte 'X'. *)
Lemma counting_fails_only_on_bad_marker_witness :
  exists ys w',
    _iter_records Sample.files Sample.parse_string corrupt_table false false
      Sample.w0
      = ((ys, Some (IOError_invalid_record_separator [x58])), w') /\
    ys = [None] /\
    only_events is_marker_event Sample.w0 w' /\
    nth_error Sample.corrupt_dbf (w_pos w' - 1) = Some x58.
Proof.
  do 2 eexists. split; [vm_compute; reflexivity|]. split; [reflexivity|].
  edestruct (@counting_fails_only_on_bad_marker (list FieldValue) Sample.files
               Sample.parse_string corrupt_table Sample.corrupt_dbf
               (sample_header 97%N 6%N) false Sample.w0) as [O [_ E]].
  - vm_compute. reflexivity.
  - reflexivity.
  - vm_compute. reflexivity.
  - destruct E as [E|[b [E [_ [_ [Hn _]]]]]]; [discriminate|].
    inversion E; subst. split; [exact O | exact Hn].
Defined.

Lemma record_follows_schema_witness :
  exists r w' items,
    _read_record Sample.parse_string (people_table false) Sample.people_dbf
      (mkworld 98 []) = (inr r, w') /\
    r = Sample.recfactory items /\
    map fv_name items = ["NAME"; "AGE"]%string /\
    length items = 2.
Proof.
  edestruct (@record_follows_schema (list FieldValue) Sample.parse_string
               (people_table false) Sample.people_dbf (mkworld 98 []))
    as [items [E [N L]]].
  - vm_compute. reflexivity.
  - do 2 eexists. exists items.
    split; [vm_compute; reflexivity|]. split; [exact E|].
    split; [exact N | exact L].
Defined.

(** The first record of people.dbf lies within the file; the only record
    of truncated.dbf does not. *)
Lemma decode_and_skip_advance_alike_witness :
  (exists r w',
     _read_record Sample.parse_string (people_table false) Sample.people_dbf
       (mkworld 98 []) = (inr r, w') /\
     w_pos w' = 103 /\
     peek Sample.people_dbf w' = Some x2a) /\
  (exists r w',
     _read_record Sample.parse_string
       (sample_table "truncated.dbf" true (@None string)
          (sample_header 65%N 6%N) [sample_field "NAME" "C" 5]
          ["NAME"]%string (@None MemoFile))
       Sample.truncated_dbf (mkworld 66 []) = (inr r, w') /\
     w_pos w' = 68 /\
     peek Sample.truncated_dbf w' = None).
Proof.
  split.
  - edestruct (@decode_and_skip_advance_alike (list FieldValue)
                 Sample.parse_string (people_table false) Sample.people_dbf
                 (mkworld 98 [])) as [P [_ K]].
    + vm_compute. reflexivity.
    + do 2 eexists. split; [vm_compute; reflexivity|].
      split; [exact P | rewrite K; vm_compute; reflexivity].
  - edestruct (@decode_and_skip_advance_alike (list FieldValue)
                 Sample.parse_string
                 (sample_table "truncated.dbf" true (@None string)
                    (sample_header 65%N 6%N) [sample_field "NAME" "C" 5]
                    ["NAME"]%string (@None MemoFile))
                 Sample.truncated_dbf (mkworld 66 [])) as [P [_ K]].
    + vm_compute. reflexivity.
    + do 2 eexists. split; [vm_compute; reflexivity|].
      split; [exact P | rewrite K; vm_compute; reflexivity].
Defined.

Lemma raw_traversal_is_the_record_area_witness :
  exists ys w',
    _iter_records Sample.files Sample.parse_string (people_table true)
      false true Sample.w0 = ((ys, None), w') /\
    ys = [Some [mkFieldValue "NAME" (PyBytes (Sample.ascii_bytes "abc"));
                mkFieldValue "AGE" (PyBytes (Sample.ascii_bytes "12"))];
          Some [mkFieldValue "NAME" (PyBytes (Sample.ascii_bytes "def"));
                mkFieldValue "AGE" (PyBytes (Sample.ascii_bytes "56"))]] /\
    ys = map (fun items => Some (Sample.recfactory items))
           (area_records (S (length Sample.people_dbf)) Sample.people_dbf 97 5
              (fields (people_table true)) x20).
Proof.
  do 2 eexists. split; [vm_compute; reflexivity|]. split; [reflexivity|].
  edestruct (@raw_traversal_is_the_record_area (list FieldValue) Sample.files
               Sample.parse_string (people_table true) Sample.people_dbf
               (sample_header 97%N 6%N) false Sample.w0) as [A _].
  - reflexivity.
  - vm_compute. reflexivity.
  - reflexivity.
  - vm_compute. reflexivity.
  - exact A.
Defined.

Lemma len_is_the_same_loaded_or_not_witness :
  exists w',
    load Sample.files Sample.parse_string (people_table false) Sample.w0
      = (inr loaded_people_table, w') /\
    Table___len__ Sample.files Sample.parse_string loaded_people_table Sample.w0
      = (inr 2, Sample.w0) /\
    exists ws',
      Table___len__ Sample.files Sample.parse_string
        (unload (people_table false)) Sample.w0 = (inr 2, ws').
Proof.
  eexists. split; [vm_compute; reflexivity|].
  edestruct (@len_is_the_same_loaded_or_not (list FieldValue) Sample.files
               Sample.parse_string (people_table false) Sample.w0
               loaded_people_table)
    as [n [m [A [B _]]]].
  - vm_compute. reflexivity.
  - destruct (A Sample.w0) as [A1 _].
    destruct (B Sample.w0) as [ws' [B1 _]].
    assert (E : n = 2) by (cbv in A1; congruence).
    subst n. split; [exact A1|]. exists ws'. exact B1.
Defined.

Lemma schema_is_the_descriptor_section_witness :
  exists w',
    _read_headers Sample.ifind Sample.guess_encoding Sample.parse_string
      Sample.same Sample.same (fresh_table "people.dbf") Sample.people_dbf
      Sample.w0 = (inr headers_read_table, w') /\
    w_pos w' = 97 /\
    nth_error Sample.people_dbf 96 = Some x0d /\
    forall i fld,
      nth_error (fields headers_read_table) i = Some fld ->
      descriptor_at Sample.parse_string Sample.same (Some "cp1252"%string)
        false Sample.people_dbf (32 + 32 * i) fld /\
      (f_length fld < 256)%N.
Proof.
  eexists. split; [vm_compute; reflexivity|].
  edestruct (@schema_is_the_descriptor_section (list FieldValue) Sample.ifind
               Sample.guess_encoding Sample.parse_string Sample.same
               Sample.same (fresh_table "people.dbf") Sample.people_dbf
               Sample.w0 headers_read_table) as [_ [_ [P [_ [C [_ D]]]]]].
  - reflexivity.
  - reflexivity.
  - reflexivity.
  - vm_compute. reflexivity.
  - split; [exact P|]. split; [exact C | exact D].
Defined.

Lemma header_and_date_of_a_constructed_table_witness :
  exists w f hdr,
    sample_init "people.dbf"%string false false = (inr (people_table false), w) /\
    Sample.files "people.dbf" = Some f /\
    header (people_table false) = Some hdr /\
    date (people_table false) = Some (mkdate 1995 7 26) /\
    headerlen hdr = (byte_at f 8 + 256 * byte_at f 9)%N /\
    headerlen hdr = 97%N.
Proof.
  edestruct (@header_and_date_of_a_constructed_table (list FieldValue)
               Sample.files Sample.ifind Sample.guess_encoding
               Sample.parse_string Sample.FPT Sample.same Sample.same
               Sample.same "people.dbf"%string None true false
               Sample.parserclass Sample.recfactory false false Sample.w0
               (people_table false))
    as [f [hdr [d [Hf [Hh [_ [_ [_ [_ [_ [Hl _]]]]]]]]]]].
  - vm_compute. reflexivity.
  - eexists. exists f, hdr.
    split; [vm_compute; reflexivity|]. split; [exact Hf|]. split; [exact Hh|].
    split; [reflexivity|]. split; [exact Hl|].
    cbn [header] in Hh. inversion Hh. reflexivity.
Defined.

Lemma constructed_fields_are_valid_witness :
  exists w,
    sample_init "people.dbf"%string false false = (inr (people_table false), w) /\
    forall field, In field (fields (people_table false)) ->
      check_field (_field_parser (people_table false)) field = inr tt /\
      ~ bad_length field /\
      field_type_supported (Sample.parserclass (encoding (people_table false)))
        (f_type field) = true /\
      (f_length field < 256)%N.
Proof.
  eexists. split; [vm_compute; reflexivity|].
  edestruct (@constructed_fields_are_valid (list FieldValue)
               Sample.files Sample.ifind Sample.guess_encoding
               Sample.parse_string Sample.FPT Sample.same Sample.same
               Sample.same "people.dbf"%string None true false
               Sample.parserclass Sample.recfactory false false Sample.w0
               (people_table false)) as [_ [_ [_ V]]].
  - vm_compute. reflexivity.
  - exact V.
Defined.

(** notes.dbf has a memo field and a memo file beside it. *)
Lemma constructor_postcondition_witness :
  exists w,
    sample_init "notes.dbf"%string false false
      = (inr (notes_table false (Some Sample.memo_file)), w) /\
    encoding (notes_table false (Some Sample.memo_file)) = Some "cp1252"%string /\
    (memofile (notes_table false (Some Sample.memo_file)) <> None <->
     false = false /\
     exists field,
       In field (fields (notes_table false (Some Sample.memo_file))) /\
       f_type field = "M"%string).
Proof.
  eexists. split; [vm_compute; reflexivity|]. split; [reflexivity|].
  edestruct (@constructor_postcondition (list FieldValue)
               Sample.files Sample.ifind Sample.guess_encoding
               Sample.parse_string Sample.FPT Sample.same Sample.same
               Sample.same "notes.dbf"%string None true false
               Sample.parserclass Sample.recfactory false false Sample.w0
               (notes_table false (Some Sample.memo_file)))
    as [_ [_ [_ [_ [_ [_ [_ [_ [_ K]]]]]]]]].
  - vm_compute. reflexivity.
  - exact K.
Defined.

(** undated.dbf: year, month and day of the header are zero. *)
Lemma invalid_header_date_is_fatal_witness :
  exists w1,
    Table___init__ Edge.files Edge.ifind Sample.guess_encoding
      Sample.parse_string Sample.FPT Sample.same Sample.same Sample.same
      "undated.dbf"%string None true false Sample.parserclass
      Sample.recfactory false false Sample.w0
      = (inl (ValueError_date 2000 0 0), w1) /\
    only_reads (opened Sample.w0 "undated.dbf") w1.
Proof.
  eexists.
  edestruct (@invalid_header_date_is_fatal (list FieldValue)
               Edge.files Edge.ifind Sample.guess_encoding
               Sample.parse_string Sample.FPT Sample.same Sample.same
               Sample.same "undated.dbf"%string None true false
               Sample.parserclass Sample.recfactory false false Sample.w0
               "undated.dbf"%string Edge.undated_dbf) as [H1 [_ H3]].
  - vm_compute. reflexivity.
  - vm_compute. reflexivity.
  - vm_compute. reflexivity.
  - vm_compute. reflexivity.
  - left. vm_compute. reflexivity.
  - split; [exact H1 | exact H3].
Defined.

Lemma missing_file_is_an_IOError_witness :
  sample_init "missing.dbf"%string false false
    = (inl (IOError_no_such_file "missing.dbf"), Sample.w0) /\
  Table___init__ Sample.files Sample.ifind Sample.guess_encoding
    Sample.parse_string Sample.FPT Sample.same Sample.same Sample.same
    "missing.dbf"%string None false false Sample.parserclass
    Sample.recfactory false false Sample.w0
    = (inl (IOError_no_such_file "missing.dbf"), Sample.w0).
Proof.
  split.
  - apply (@missing_file_is_an_IOError (list FieldValue)
             Sample.files Sample.ifind Sample.guess_encoding
             Sample.parse_string Sample.FPT Sample.same Sample.same
             Sample.same "missing.dbf"%string None true false
             Sample.parserclass Sample.recfactory false false Sample.w0).
    reflexivity.
  - apply (@missing_file_is_an_IOError (list FieldValue)
             Sample.files Sample.ifind Sample.guess_encoding
             Sample.parse_string Sample.FPT Sample.same Sample.same
             Sample.same "missing.dbf"%string None false false
             Sample.parserclass Sample.recfactory false false Sample.w0).
    reflexivity.
Defined.

Lemma plain_record_is_the_parsed_slots_witness :
  fst (_read_record Sample.parse_string (people_table false) Sample.people_dbf
         (mkworld 98 []))
    = inr [mkFieldValue "NAME" (PyStr "abc");
           mkFieldValue "AGE" (PyBytes (Sample.ascii_bytes "12"))] /\
  parsed_items (Sample.parserclass (Some "cp1252"%string)) Sample.people_dbf 98
    (fields (people_table false))
    = inr [mkFieldValue "NAME" (PyStr "abc");
           mkFieldValue "AGE" (PyBytes (Sample.ascii_bytes "12"))].
Proof.
  edestruct (@plain_record_is_the_parsed_slots (list FieldValue)
               Sample.parse_string (people_table false)
               (Sample.parserclass (Some "cp1252"%string)) Sample.people_dbf
               (mkworld 98 [])) as [H _].
  - reflexivity.
  - reflexivity.
  - repeat constructor; discriminate.
  - split; [rewrite H|]; vm_compute; reflexivity.
Defined.

Lemma legacy_table_is_a_loaded_table_witness :
  exists w',
    LegacyTable___init__ Sample.files Sample.ifind Sample.guess_encoding
      Sample.parse_string Sample.FPT Sample.same Sample.same Sample.same
      "people.dbf"%string None true false Sample.parserclass
      Sample.recfactory (LoadKeyword false) false Sample.w0
      = (inr (mkLegacyTable
                [people_record "abc" "12"; people_record "def" "56"]
                loaded_people_table), w') /\
    loaded loaded_people_table = Some true /\
    exists t0 w0,
      sample_init "people.dbf"%string false false = (inr t0, w0) /\
      forall w2,
        fst (Table___iter__ Sample.files Sample.parse_string t0 w2)
          = ([people_record "abc" "12"; people_record "def" "56"], None).
Proof.
  eexists. split; [vm_compute; reflexivity|].
  edestruct (@legacy_table_is_a_loaded_table (list FieldValue)
               Sample.files Sample.ifind Sample.guess_encoding
               Sample.parse_string Sample.FPT Sample.same Sample.same
               Sample.same "people.dbf"%string None true false
               Sample.parserclass Sample.recfactory (LoadKeyword false) false
               Sample.w0
               (mkLegacyTable
                  [people_record "abc" "12"; people_record "def" "56"]
                  loaded_people_table))
    as [_ [_ [L [_ [[t0 [w0 [I U]]] _]]]]].
  - vm_compute. reflexivity.
  - split; [exact L|]. exists t0, w0. split; [exact I | exact U].
Defined.


Lemma validation_accepts_conforming_schemas_witness :
  _check_headers (people_table false) Sample.w0 = (inr tt, Sample.w0) /\
  ~ (_check_headers
       (sample_table "unknown.dbf" false (@None string)
          (sample_header 65%N 3%N) [sample_field "WHAT" "Z" 2]
          ["WHAT"]%string (@None MemoFile)) Sample.w0
     = (inr tt, Sample.w0)).
Proof.
  split.
  - apply (proj1 (@validation_accepts_conforming_schemas (list FieldValue)
                    (people_table false)
                    (Sample.parserclass (Some "cp1252"%string)) Sample.w0
                    eq_refl)).
    intros field [<-|[<-|[]]]; (split; [|reflexivity]);
      intros [[T _]|[[T _]|[T _]]]; discriminate.
  - intro H.
    pose proof (proj1 (proj1 (@validation_accepts_conforming_schemas
                                (list FieldValue)
                                (sample_table "unknown.dbf" false (@None string)
                                   (sample_header 65%N 3%N)
                                   [sample_field "WHAT" "Z" 2]
                                   ["WHAT"]%string (@None MemoFile))
                                (Sample.parserclass (Some "cp1252"%string))
                                Sample.w0 eq_refl)) H) as K.
    destruct (K (sample_field "WHAT" "Z" 2) (or_introl eq_refl)) as [_ S].
    discriminate S.
Defined.


(** In [corrupt_dbf] the byte at offset 103, where the second record
    begins, is 'X': the decoding traversal of the active records yields
    the first record, arrives at that boundary, and ends with the error
    for that byte, having read it and nothing more. *)
Lemma traversal_classifies_each_marker_witness :
  exists w1 evs,
    _iter_records Sample.files Sample.parse_string corrupt_table false true
      Sample.w0
      = (([people_record "abc" "12"],
          Some (IOError_invalid_record_separator [x58])), w1) /\
    w_log w1 = evs ++ [EvRead 1 [x58]] /\
    w_pos w1 = 104.
Proof.
  destruct (@traversal_classifies_each_marker (list FieldValue) Sample.files
              Sample.parse_string corrupt_table Sample.corrupt_dbf
              (sample_header 97%N 6%N) false true Sample.w0
              eq_refl eq_refl) as [T _].
  eassert (R : reaches Sample.parse_string corrupt_table Sample.corrupt_dbf
                 false true 1
                 (mkworld 97 [EvOpen "corrupt.dbf"; EvSeek 97 SEEK_SET]) _ _).
  { eapply reaches_yield; [vm_compute; reflexivity|apply reaches_here]. }
  apply T in R. cbv zeta in R. destruct R as [_ R].
  match type of R with
  | context [classify ?m] =>
      replace (classify m) with Invalid in R by (vm_compute; reflexivity)
  end.
  destruct R as [_ R].
  do 2 eexists. split; [exact R|].
  split; [cbn [after_marker w_log]; reflexivity|vm_compute; reflexivity].
Defined.

(** C6 as stated fails for a type code that the field parser does not
    support and that is one of '0', 'I' and 'L' with a wrong length: the
    length rules are tested first.  With a parser that knows the type C
    only, the field ID of type I and length 5 of [badlen_dbf] has an
    unsupported type, and validation raises the length error for it, not
    the unknown field type error. *)
Lemma unsupported_type_gets_length_error :
  unsupported (Sample.text_parserclass (Some "cp1252"%string))
    (sample_field "ID" "I" 5) /\
  check_field (Some (Sample.text_parserclass (Some "cp1252"%string)))
    (sample_field "ID" "I" 5) = inl (ValueError_type_I_length 5) /\
  ValueError_type_I_length 5 <> ValueError_unknown_field_type "I" /\
  exists w,
    Table___init__ Sample.files Sample.ifind Sample.guess_encoding
      Sample.parse_string Sample.FPT Sample.same Sample.same Sample.same
      "badlen.dbf"%string None true false Sample.text_parserclass
      Sample.recfactory false false Sample.w0
      = (inl (ValueError_type_I_length 5), w).
Proof.
  split; [reflexivity|]. split; [reflexivity|]. split; [discriminate|].
  eexists. vm_compute. reflexivity.
Defined.

